(** * 0/1 Knapsack: four solvers of [knapsack.py] and their agreement

    A shallow embedding of [Dynamic Programming/Knapsack/knapsack.py].

    - Python integers are [Z]; the memo dictionaries of the two recursive
      solvers are [gmap (Z * Z) Z], threaded explicitly through the
      recursion.
    - Exceptions are the [Raise] outcomes of the [result] monad.
    - For what a call does to the object, the bodies of the methods are
      embedded a second time as statements on a store that holds the fields
      of the object and the dictionaries and arrays allocated so far; the
      functional methods are proved to be what these statements return.
    - The grid of [dp_a] is a NumPy [int64] array ([np.full] with an integer
      fill value, [int64] being NumPy's default integer): cells are [Z] with
      the two's-complement wrap-around of the scalar addition written out.
    - The grid of [dp_b] is a NumPy [float64] array ([np.zeros] without a
      dtype).  Every number that enters it is an integer, so a cell is
      modelled by the integer it holds (or an infinity or NaN), and the
      rounding to 53 significant bits of each conversion and addition is
      written out on [Z].
    - The interpreter's recursion limit and the memory a grid needs are
      resources of the machine and are not modelled. *)

From stdpp Require Import base numbers list gmap strings.
From Stdlib Require Import ZArith Lia.

Local Open Scope Z_scope.

(** ** Outcomes *)

Inductive value_error :=
| NegativeDimensions
| CannotConvertNaN
| InconsistentResults (results : list (string * Z)).

Inductive exn :=
| IndexError
| KeyError
| OverflowError
| ValueError (why : value_error)
| FuelExhausted.

Inductive result (A : Type) :=
| Ok (a : A)
| Raise (e : exn).

Arguments Ok {A} a.
Arguments Raise {A} e.

#[global] Instance result_ret : MRet result := λ A a, Ok a.
#[global] Instance result_bind : MBind result :=
  λ A B f m, match m with Ok a => f a | Raise e => Raise e end.

(** [for x in xs: s = body(s, x)], stopping at the first exception. *)
Fixpoint for_each {A S : Type} (xs : list A) (body : A → S → result S) (s : S)
  : result S :=
  match xs with
  | [] => Ok s
  | x :: xs => s' ← body x s; for_each xs body s'
  end.

(** ** Python and NumPy indexing *)

(** [l[i]] for a Python list or a one-dimensional NumPy array: a negative
    index counts from the end, anything outside raises [IndexError]. *)
Definition getitem {A : Type} (l : list A) (i : Z) : result A :=
  let len := Z.of_nat (length l) in
  let j := if i <? 0 then i + len else i in
  if (0 <=? j) && (j <? len) then
    match l !! Z.to_nat j with
    | Some x => Ok x
    | None => Raise IndexError
    end
  else Raise IndexError.

(** [dp[i][c] = x] on a two-dimensional array. *)
Definition setitem2 {A : Type} (dp : list (list A)) (i c : Z) (x : A)
  : result (list (list A)) :=
  let rows := Z.of_nat (length dp) in
  let i' := if i <? 0 then i + rows else i in
  row ← getitem dp i;
  let cols := Z.of_nat (length row) in
  let c' := if c <? 0 then c + cols else c in
  if (0 <=? c') && (c' <? cols) then
    Ok (<[Z.to_nat i' := <[Z.to_nat c' := x]> row]> dp)
  else Raise IndexError.

(** [np.full((rows, cols), fill)] and [np.zeros((rows, cols))]. *)
Definition np_full {A : Type} (rows cols : Z) (fill : A)
  : result (list (list A)) :=
  if (rows <? 0) || (cols <? 0) then Raise (ValueError NegativeDimensions)
  else Ok (replicate (Z.to_nat rows) (replicate (Z.to_nat cols) fill)).

(** [dp[i, :] = x]. *)
Definition set_row {A : Type} (dp : list (list A)) (i : Z) (x : A)
  : result (list (list A)) :=
  let rows := Z.of_nat (length dp) in
  let i' := if i <? 0 then i + rows else i in
  row ← getitem dp i;
  Ok (<[Z.to_nat i' := replicate (length row) x]> dp).

(** ** NumPy scalars *)

Definition int64_min : Z := - 2 ^ 63.
Definition int64_max : Z := 2 ^ 63 - 1.

Definition wrap64 (x : Z) : Z := (x + 2 ^ 63) mod 2 ^ 64 - 2 ^ 63.

(** [v + cell] for a Python integer [v] and an [int64] scalar [cell], under
    the promotion rules of NumPy 2: the Python integer is converted to
    [int64] ([OverflowError] when it does not fit) and the sum wraps, with
    no more than a warning. *)
Definition int64_radd (v cell : Z) : result Z :=
  if (int64_min <=? v) && (v <=? int64_max) then Ok (wrap64 (v + cell))
  else Raise OverflowError.

(** A [float64] that holds an integer, an infinity or NaN. *)
Inductive float64 :=
| Fin (z : Z)
| PInf
| NInf
| NaN.

(** Round a non-negative integer to 53 significant bits, ties to even. *)
Definition rne53 (x : Z) : Z :=
  if x <? 2 ^ 53 then x
  else
    let e := Z.log2 x - 52 in
    let q := Z.shiftr x e in
    let r := x - Z.shiftl q e in
    let half := Z.shiftl 1 (e - 1) in
    let q' := if r <? half then q
              else if half <? r then q + 1
              else if Z.even q then q else q + 1 in
    Z.shiftl q' e.

Definition round64 (x : Z) : float64 :=
  let m := rne53 (Z.abs x) in
  if 2 ^ 1024 <=? m then (if 0 <? x then PInf else NInf)
  else Fin (Z.sgn x * m).

(** Conversion of a Python integer: [OverflowError] when it rounds to an
    infinity. *)
Definition float_of_int (v : Z) : result float64 :=
  match round64 v with
  | Fin m => Ok (Fin m)
  | _ => Raise OverflowError
  end.

Definition float64_add (a b : float64) : float64 :=
  match a, b with
  | NaN, _ | _, NaN => NaN
  | PInf, NInf | NInf, PInf => NaN
  | PInf, _ | _, PInf => PInf
  | NInf, _ | _, NInf => NInf
  | Fin x, Fin y => round64 (x + y)
  end.

(** [v + cell] for a Python integer [v] and a [float64] scalar [cell]: the
    integer is converted, then the sum is rounded. *)
Definition float64_radd (v : Z) (cell : float64) : result float64 :=
  fv ← float_of_int v; Ok (float64_add fv cell).

(** [a > b]. *)
Definition float64_gt (a b : float64) : bool :=
  match a, b with
  | NaN, _ | _, NaN => false
  | Fin x, Fin y => y <? x
  | PInf, PInf => false
  | PInf, _ => true
  | NInf, _ => false
  | Fin _, PInf => false
  | Fin _, NInf => true
  end.

(** Python's [max(skip, take)]: the first argument unless the second is
    strictly greater. *)
Definition float64_max (skip take : float64) : float64 :=
  if float64_gt take skip then take else skip.

(** [int(x)]. *)
Definition int_of_float (x : float64) : result Z :=
  match x with
  | Fin z => Ok z
  | PInf | NInf => Raise OverflowError
  | NaN => Raise (ValueError CannotConvertNaN)
  end.

(** ** The solver object *)

Record KnapsackSolver := mkSolver {
  weights : list Z;
  values : list Z;
  capacity : Z;
  n : Z
}.

(** [KnapsackSolver.__init__]: stores its arguments and [len(weights)]. *)
Definition __init__ (weights values : list Z) (capacity : Z)
  : result KnapsackSolver :=
  Ok (mkSolver weights values capacity (Z.of_nat (length weights))).

(** The literal [-10**9] that stands for an infeasible take branch. *)
Definition SENTINEL : Z := - 10 ^ 9.

Section Methods.

(** The methods are written over the value [sentinel] given to an
    infeasible take branch; the source has [SENTINEL] there. *)
Variable sentinel : Z.
Variable self : KnapsackSolver.

(** *** Representation A *)

(** The inner [dfs(i, c)] of [dfs_a]. *)
Fixpoint dfs_a_dfs (fuel : nat) (i c : Z) (memo : gmap (Z * Z) Z)
  : result (Z * gmap (Z * Z) Z) :=
  match fuel with
  | O => Raise FuelExhausted
  | S fuel =>
    if (n self <=? i) || (c <=? 0) then Ok (0, memo)
    else
      match memo !! (i, c) with
      | Some r => Ok (r, memo)
      | None =>
        '(skip, memo) ← dfs_a_dfs fuel (i + 1) c memo;
        w ← getitem (weights self) i;
        '(take, memo) ←
          (if w <=? c then
             v ← getitem (values self) i;
             '(r, memo) ← dfs_a_dfs fuel (i + 1) (c - w) memo;
             Ok (v + r, memo)
           else Ok (sentinel, memo));
        let memo := <[(i, c) := Z.max skip take]> memo in
        match memo !! (i, c) with
        | Some r => Ok (r, memo)
        | None => Raise KeyError
        end
      end
  end.

(** The recursion descends one item per call, so [n + 1] calls deep is as
    far as it can go. *)
Definition dfs_a_with : result Z :=
  '(r, _) ← dfs_a_dfs (S (Z.to_nat (n self))) 0 (capacity self) ∅; Ok r.

Definition dp_a_cell (i c : Z) (dp : list (list Z)) : result (list (list Z)) :=
  row ← getitem dp (i + 1);
  skip ← getitem row c;
  w ← getitem (weights self) i;
  take ←
    (if w <=? c then
       v ← getitem (values self) i;
       row ← getitem dp (i + 1);
       cell ← getitem row (c - w);
       int64_radd v cell
     else Ok sentinel);
  setitem2 dp i c (Z.max skip take).

Definition dp_a_with : result Z :=
  dp ← np_full (n self + 1) (capacity self + 1) SENTINEL;
  dp ← set_row dp (n self) 0;
  dp ← for_each (reverse (seqZ 0 (n self)))
         (λ i, for_each (seqZ 0 (capacity self + 1)) (dp_a_cell i)) dp;
  row ← getitem dp 0;
  getitem row (capacity self).

(** *** Representation B *)

(** The inner [dfs(k, w)] of [dfs_b]. *)
Fixpoint dfs_b_dfs (fuel : nat) (k w : Z) (memo : gmap (Z * Z) Z)
  : result (Z * gmap (Z * Z) Z) :=
  match fuel with
  | O => Raise FuelExhausted
  | S fuel =>
    if k =? 0 then Ok (0, memo)
    else
      match memo !! (k, w) with
      | Some r => Ok (r, memo)
      | None =>
        '(skip, memo) ← dfs_b_dfs fuel (k - 1) w memo;
        wk ← getitem (weights self) (k - 1);
        '(take, memo) ←
          (if wk <=? w then
             v ← getitem (values self) (k - 1);
             '(r, memo) ← dfs_b_dfs fuel (k - 1) (w - wk) memo;
             Ok (v + r, memo)
           else Ok (sentinel, memo));
        let memo := <[(k, w) := Z.max skip take]> memo in
        match memo !! (k, w) with
        | Some r => Ok (r, memo)
        | None => Raise KeyError
        end
      end
  end.

Definition dfs_b_with : result Z :=
  '(r, _) ← dfs_b_dfs (S (Z.to_nat (n self))) (n self) (capacity self) ∅; Ok r.

Definition dp_b_cell (k w : Z) (dp : list (list float64))
  : result (list (list float64)) :=
  row ← getitem dp (k - 1);
  skip ← getitem row w;
  wk ← getitem (weights self) (k - 1);
  take ←
    (if wk <=? w then
       v ← getitem (values self) (k - 1);
       row ← getitem dp (k - 1);
       cell ← getitem row (w - wk);
       float64_radd v cell
     else Ok (Fin sentinel));
  setitem2 dp k w (float64_max skip take).

Definition dp_b_with : result Z :=
  dp ← np_full (n self + 1) (capacity self + 1) (Fin 0);
  dp ← for_each (seqZ 1 (n self))
         (λ k, for_each (seqZ 0 (capacity self + 1)) (dp_b_cell k)) dp;
  row ← getitem dp (n self);
  cell ← getitem row (capacity self);
  int_of_float cell.

End Methods.

Definition dfs_a : KnapsackSolver → result Z := dfs_a_with SENTINEL.
Definition dp_a : KnapsackSolver → result Z := dp_a_with SENTINEL.
Definition dfs_b : KnapsackSolver → result Z := dfs_b_with SENTINEL.
Definition dp_b : KnapsackSolver → result Z := dp_b_with SENTINEL.

(** ** Unified solution verification *)

(** [solve_all]: the four results in a dictionary, in the order the source
    builds it; [ValueError] when the set of its values has not exactly one
    element. *)
Definition solve_all (self : KnapsackSolver) : result (list (string * Z)) :=
  a ← dfs_a self;
  b ← dp_a self;
  c ← dfs_b self;
  d ← dp_b self;
  let results := [("DFS_A"%string, a); ("DP_A"%string, b);
                  ("DFS_B"%string, c); ("DP_B"%string, d)] in
  let unique_results : gset Z := list_to_set (results.*2) in
  if decide (size unique_results ≠ 1%nat)
  then Raise (ValueError (InconsistentResults results))
  else Ok results.

(** The scenarios of [run_test_suite]: weights, values, capacity, expected. *)
Definition test_cases : list (list Z * list Z * Z * Z) :=
  [ ([2; 3; 4; 5], [3; 4; 5; 6], 8, 10);
    ([1; 2; 3], [6; 10; 12], 5, 22);
    ([5; 6; 7], [10; 20; 30], 4, 0);
    ([1; 2; 3], [4; 5; 6], 0, 0);
    ([], [], 10, 0);
    ([10; 20; 30], [60; 100; 120], 50, 220);
    ([3; 4; 5], [30; 50; 60], 8, 90);
    ([2; 4; 6], [100; 1000; 10000], 6, 10000);
    ([3; 3; 3], [5; 5; 5], 6, 10) ].

(** The per-method verdicts and the consistency verdict that the loop of
    [run_test_suite] prints for one scenario. *)
Definition run_test_case (t : list Z * list Z * Z * Z)
  : result (list (string * bool) * bool) :=
  let '(ws, vs, cap, expected) := t in
  solver ← __init__ ws vs cap;
  results ← solve_all solver;
  Ok ((λ mv : string * Z, (mv.1, bool_decide (mv.2 = expected))) <$> results,
      bool_decide (size (list_to_set (results.*2) : gset Z) = 1%nat)).

Definition run_test_suite : result (list (list (string * bool) * bool)) :=
  mapM run_test_case test_cases.

(** ** Calls on the object *)

Inductive method := DFS_A | DP_A | DFS_B | DP_B.

Definition solve (m : method) : KnapsackSolver → result Z :=
  match m with
  | DFS_A => dfs_a
  | DP_A => dp_a
  | DFS_B => dfs_b
  | DP_B => dp_b
  end.

(** *** The object in the store *)

(** What a call can read and write: the four fields of the object and the
    dictionaries and arrays allocated so far, each named by its position. *)
Record world := mkWorld {
  w_self : KnapsackSolver;
  w_dicts : list (gmap (Z * Z) Z);
  w_ints : list (list (list Z));
  w_floats : list (list (list float64))
}.

(** A statement: from a store to an outcome and the store it leaves, also
    when it raises. *)
Definition st (A : Type) : Type := world → result A * world.

#[global] Instance st_ret : MRet st := λ A a w, (Ok a, w).
#[global] Instance st_bind : MBind st :=
  λ A B k m w,
    match m w with
    | (Ok a, w') => k a w'
    | (Raise e, w') => (Raise e, w')
    end.

(** An expression that reads nothing from the store. *)
Definition lift {A : Type} (r : result A) : st A := λ w, (r, w).

(** [self.weights], [self.values], [self.capacity], [self.n]. *)
Definition self_weights : st (list Z) := λ w, (Ok (weights (w_self w)), w).
Definition self_values : st (list Z) := λ w, (Ok (values (w_self w)), w).
Definition self_capacity : st Z := λ w, (Ok (capacity (w_self w)), w).
Definition self_n : st Z := λ w, (Ok (n (w_self w)), w).

(** [self.weights = x] and the like. *)
Definition set_self (f : KnapsackSolver → KnapsackSolver) : st () :=
  λ w, (Ok (), mkWorld (f (w_self w)) (w_dicts w) (w_ints w) (w_floats w)).
Definition set_weights (x : list Z) : st () :=
  set_self (λ o, mkSolver x (values o) (capacity o) (n o)).
Definition set_values (x : list Z) : st () :=
  set_self (λ o, mkSolver (weights o) x (capacity o) (n o)).
Definition set_capacity (x : Z) : st () :=
  set_self (λ o, mkSolver (weights o) (values o) x (n o)).
Definition set_n (x : Z) : st () :=
  set_self (λ o, mkSolver (weights o) (values o) (capacity o) x).

(** The body of [__init__]. *)
Definition init_body (weights values : list Z) (capacity : Z) : st () :=
  _ ← set_weights weights;
  _ ← set_values values;
  _ ← set_capacity capacity;
  set_n (Z.of_nat (length weights)).

(** The dictionary, the [int64] array and the [float64] array at a
    position. *)
Definition the_dict (l : nat) (w : world) : gmap (Z * Z) Z :=
  default ∅ (w_dicts w !! l).
Definition the_ints (l : nat) (w : world) : list (list Z) :=
  default [] (w_ints w !! l).
Definition the_floats (l : nat) (w : world) : list (list float64) :=
  default [] (w_floats w !! l).

Definition put_dict (l : nat) (m : gmap (Z * Z) Z) (w : world) : world :=
  mkWorld (w_self w) (<[l := m]> (w_dicts w)) (w_ints w) (w_floats w).
Definition put_ints (l : nat) (dp : list (list Z)) (w : world) : world :=
  mkWorld (w_self w) (w_dicts w) (<[l := dp]> (w_ints w)) (w_floats w).
Definition put_floats (l : nat) (dp : list (list float64)) (w : world)
  : world :=
  mkWorld (w_self w) (w_dicts w) (w_ints w) (<[l := dp]> (w_floats w)).

(** [memo = {}]. *)
Definition new_dict : st nat :=
  λ w, (Ok (length (w_dicts w)),
        mkWorld (w_self w) (w_dicts w ++ [∅]) (w_ints w) (w_floats w)).

(** [memo[key]] when [key in memo]. *)
Definition dict_get (l : nat) (key : Z * Z) : st (option Z) :=
  λ w, (Ok (the_dict l w !! key), w).

(** [memo[key] = v]. *)
Definition dict_set (l : nat) (key : Z * Z) (v : Z) : st () :=
  λ w, (Ok (), put_dict l (<[key := v]> (the_dict l w)) w).

(** [np.full((rows, cols), fill)] with an integer [fill]. *)
Definition new_ints (rows cols fill : Z) : st nat :=
  λ w, match np_full rows cols fill with
       | Ok dp => (Ok (length (w_ints w)),
                   mkWorld (w_self w) (w_dicts w) (w_ints w ++ [dp])
                     (w_floats w))
       | Raise e => (Raise e, w)
       end.

(** [dp[i][c]], [dp[i][c] = x] and [dp[i, :] = x] on an [int64] array. *)
Definition ints_get (l : nat) (i c : Z) : st Z :=
  λ w, (row ← getitem (the_ints l w) i; getitem row c, w).

Definition ints_set (l : nat) (i c x : Z) : st () :=
  λ w, match setitem2 (the_ints l w) i c x with
       | Ok dp => (Ok (), put_ints l dp w)
       | Raise e => (Raise e, w)
       end.

Definition ints_set_row (l : nat) (i x : Z) : st () :=
  λ w, match set_row (the_ints l w) i x with
       | Ok dp => (Ok (), put_ints l dp w)
       | Raise e => (Raise e, w)
       end.

(** [np.zeros((rows, cols))]. *)
Definition new_floats (rows cols : Z) : st nat :=
  λ w, match np_full rows cols (Fin 0) with
       | Ok dp => (Ok (length (w_floats w)),
                   mkWorld (w_self w) (w_dicts w) (w_ints w)
                     (w_floats w ++ [dp]))
       | Raise e => (Raise e, w)
       end.

Definition floats_get (l : nat) (i c : Z) : st float64 :=
  λ w, (row ← getitem (the_floats l w) i; getitem row c, w).

Definition floats_set (l : nat) (i c : Z) (x : float64) : st () :=
  λ w, match setitem2 (the_floats l w) i c x with
       | Ok dp => (Ok (), put_floats l dp w)
       | Raise e => (Raise e, w)
       end.

(** [for x in xs: body(x)]. *)
Fixpoint for_each_st {A : Type} (xs : list A) (body : A → st ()) : st () :=
  match xs with
  | [] => mret ()
  | x :: xs => _ ← body x; for_each_st xs body
  end.

(** The inner [dfs(i, c)] of [dfs_a], statement by statement, on the
    dictionary at [memo]: every [self.x] is a read of the store, every
    [memo[...]] a read or a write of that dictionary. *)
Fixpoint dfs_a_st (fuel : nat) (memo : nat) (i c : Z) : st Z :=
  match fuel with
  | O => lift (Raise FuelExhausted)
  | S fuel =>
    n ← self_n;
    if (n <=? i) || (c <=? 0) then mret 0
    else
      hit ← dict_get memo (i, c);
      match hit with
      | Some r => mret r
      | None =>
        skip ← dfs_a_st fuel memo (i + 1) c;
        ws ← self_weights;
        w ← lift (getitem ws i);
        take ← (if w <=? c then
                  vs ← self_values;
                  v ← lift (getitem vs i);
                  ws ← self_weights;
                  w ← lift (getitem ws i);
                  r ← dfs_a_st fuel memo (i + 1) (c - w);
                  mret (v + r)
                else mret SENTINEL);
        _ ← dict_set memo (i, c) (Z.max skip take);
        r ← dict_get memo (i, c);
        match r with
        | Some r => mret r
        | None => lift (Raise KeyError)
        end
      end
  end.

(** The body of [dfs_a]: [memo = {}] allocates, the recursion runs from
    [(0, self.capacity)].  The fuel is that of [dfs_a_with]. *)
Definition dfs_a_body : st Z :=
  memo ← new_dict;
  n ← self_n;
  cap ← self_capacity;
  dfs_a_st (S (Z.to_nat n)) memo 0 cap.

(** The inner [dfs(k, w)] of [dfs_b], on the dictionary [memo]. *)
Fixpoint dfs_b_st (fuel : nat) (memo : nat) (k w : Z) : st Z :=
  match fuel with
  | O => lift (Raise FuelExhausted)
  | S fuel =>
    if k =? 0 then mret 0
    else
      hit ← dict_get memo (k, w);
      match hit with
      | Some r => mret r
      | None =>
        skip ← dfs_b_st fuel memo (k - 1) w;
        ws ← self_weights;
        wk ← lift (getitem ws (k - 1));
        take ← (if wk <=? w then
                  vs ← self_values;
                  v ← lift (getitem vs (k - 1));
                  ws ← self_weights;
                  wk ← lift (getitem ws (k - 1));
                  r ← dfs_b_st fuel memo (k - 1) (w - wk);
                  mret (v + r)
                else mret SENTINEL);
        _ ← dict_set memo (k, w) (Z.max skip take);
        r ← dict_get memo (k, w);
        match r with
        | Some r => mret r
        | None => lift (Raise KeyError)
        end
      end
  end.

(** The body of [dfs_b]: [memo = {}] allocates, the recursion runs from
    [(self.n, self.capacity)]. *)
Definition dfs_b_body : st Z :=
  memo ← new_dict;
  n ← self_n;
  cap ← self_capacity;
  dfs_b_st (S (Z.to_nat n)) memo n cap.

(** The statements of the inner loop of [dp_a], on the array [dp]. *)
Definition dp_a_cell_st (dp : nat) (i c : Z) : st () :=
  skip ← ints_get dp (i + 1) c;
  ws ← self_weights;
  w ← lift (getitem ws i);
  take ← (if w <=? c then
            vs ← self_values;
            v ← lift (getitem vs i);
            ws ← self_weights;
            w ← lift (getitem ws i);
            cell ← ints_get dp (i + 1) (c - w);
            lift (int64_radd v cell)
          else mret SENTINEL);
  ints_set dp i c (Z.max skip take).

(** The body of [dp_a]: [np.full] allocates, [range(self.capacity + 1)] is
    evaluated anew in each round of the outer loop. *)
Definition dp_a_body : st Z :=
  n ← self_n;
  cap ← self_capacity;
  dp ← new_ints (n + 1) (cap + 1) SENTINEL;
  n ← self_n;
  _ ← ints_set_row dp n 0;
  n ← self_n;
  _ ← for_each_st (reverse (seqZ 0 n))
        (λ i, cap ← self_capacity;
              for_each_st (seqZ 0 (cap + 1)) (dp_a_cell_st dp i));
  cap ← self_capacity;
  ints_get dp 0 cap.

(** The statements of the inner loop of [dp_b], on the array [dp]. *)
Definition dp_b_cell_st (dp : nat) (k w : Z) : st () :=
  skip ← floats_get dp (k - 1) w;
  ws ← self_weights;
  wk ← lift (getitem ws (k - 1));
  take ← (if wk <=? w then
            vs ← self_values;
            v ← lift (getitem vs (k - 1));
            ws ← self_weights;
            wk ← lift (getitem ws (k - 1));
            cell ← floats_get dp (k - 1) (w - wk);
            lift (float64_radd v cell)
          else mret (Fin SENTINEL));
  floats_set dp k w (float64_max skip take).

(** The body of [dp_b]: [np.zeros] allocates a [float64] array. *)
Definition dp_b_body : st Z :=
  n ← self_n;
  cap ← self_capacity;
  dp ← new_floats (n + 1) (cap + 1);
  n ← self_n;
  _ ← for_each_st (seqZ 1 n)
        (λ k, cap ← self_capacity;
              for_each_st (seqZ 0 (cap + 1)) (dp_b_cell_st dp k));
  n ← self_n;
  cap ← self_capacity;
  cell ← floats_get dp n cap;
  lift (int_of_float cell).

(** A call of a method on the object in the store, and calls one after the
    other, an exception ending the call that raised it only. *)
Definition call (m : method) : st Z :=
  match m with
  | DFS_A => dfs_a_body
  | DP_A => dp_a_body
  | DFS_B => dfs_b_body
  | DP_B => dp_b_body
  end.

Fixpoint calls (ms : list method) (w : world) : list (result Z) * world :=
  match ms with
  | [] => ([], w)
  | m :: ms =>
    let '(r, w) := call m w in
    let '(rs, w) := calls ms w in
    (r :: rs, w)
  end.

(** The store [w'] has the object of [w] and, at their positions, every
    dictionary and array of [w]. *)
Definition extends (w w' : world) : Prop :=
  w_self w' = w_self w
  ∧ w_dicts w `prefix_of` w_dicts w'
  ∧ w_ints w `prefix_of` w_ints w'
  ∧ w_floats w `prefix_of` w_floats w'.

(** ** Instances and the optimisation problem *)

(** A valid instance of the specification. *)
Definition valid_instance (ws vs : list Z) (cap : Z) : Prop :=
  length ws = length vs ∧ Forall (λ w, 0 ≤ w) ws ∧ Forall (λ v, 0 ≤ v) vs
  ∧ 0 ≤ cap.

(** The solver object that [__init__] builds. *)
Definition instance (ws vs : list Z) (cap : Z) : KnapsackSolver :=
  mkSolver ws vs cap (Z.of_nat (length ws)).

(** Items are (weight, value) pairs. *)
Definition total_weight (sel : list (Z * Z)) : Z :=
  foldr (λ it acc, it.1 + acc) 0 sel.

Definition total_value (sel : list (Z * Z)) : Z :=
  foldr (λ it acc, it.2 + acc) 0 sel.

(** A selection of items that fits the capacity. *)
Definition feasible (items : list (Z * Z)) (cap : Z) (sel : list (Z * Z))
  : Prop :=
  sel `sublist_of` items ∧ total_weight sel ≤ cap.

(** [r] is the maximum value of a feasible selection. *)
Definition is_optimum (items : list (Z * Z)) (cap : Z) (r : Z) : Prop :=
  (∃ sel, feasible items cap sel ∧ total_value sel = r) ∧
  (∀ sel, feasible items cap sel → total_value sel ≤ r).

(** ** The recurrences of the specification *)

(** State space A, on the items from [i] on:
    [f(i, c) = 0] if [i >= n] or [c <= 0], otherwise
    [max(f(i+1, c), [if c >= weights[i]] values[i] + f(i+1, c - weights[i]))],
    the take branch left out of the maximum when it is infeasible. *)
Fixpoint f_from (items : list (Z * Z)) (c : Z) : Z :=
  match items with
  | [] => 0
  | (w, v) :: items =>
    if c <=? 0 then 0
    else
      let skip := f_from items c in
      if w <=? c then Z.max skip (v + f_from items (c - w)) else skip
  end.

Definition f (ws vs : list Z) (i c : Z) : Z :=
  f_from (drop (Z.to_nat i) (zip ws vs)) c.

(** State space B, on the first [k] items: [g(0, w) = 0] and for [k >= 1]
    [g(k, w) = max(g(k-1, w),
                   [if w >= weights[k-1]] values[k-1] + g(k-1, w - weights[k-1]))]. *)
Fixpoint g_upto (items : list (Z * Z)) (k : nat) (w : Z) : Z :=
  match k with
  | O => 0
  | S k =>
    let skip := g_upto items k w in
    match items !! k with
    | Some (wk, v) =>
      if wk <=? w then Z.max skip (v + g_upto items k (w - wk)) else skip
    | None => skip
    end
  end.

Definition g (ws vs : list Z) (k w : Z) : Z :=
  g_upto (zip ws vs) (Z.to_nat k) w.

(** The recurrence that the grid of [dp_a] tabulates: that of [f] without
    the cut at [c <= 0]. *)
Fixpoint knap (items : list (Z * Z)) (c : Z) : Z :=
  match items with
  | [] => 0
  | (w, v) :: items =>
    let skip := knap items c in
    if w <=? c then Z.max skip (v + knap items (c - w)) else skip
  end.

(** ** The grids, row by row *)

(** The value that [dp_a_cell] stores at column [c] of row [i], from the row
    [prev] below it. *)
Definition dp_a_value (sentinel : Z) (self : KnapsackSolver) (i : Z)
  (prev : list Z) (c : Z) : result Z :=
  skip ← getitem prev c;
  w ← getitem (weights self) i;
  take ←
    (if w <=? c then
       v ← getitem (values self) i;
       cell ← getitem prev (c - w);
       int64_radd v cell
     else Ok sentinel);
  Ok (Z.max skip take).

Definition dp_a_row (sentinel : Z) (self : KnapsackSolver) (i : Z)
  (prev : list Z) : result (list Z) :=
  mapM (dp_a_value sentinel self i prev) (seqZ 0 (capacity self + 1)).

(** The value that [dp_b_cell] stores at column [w] of row [k], from the row
    [prev] above it. *)
Definition dp_b_value (sentinel : Z) (self : KnapsackSolver) (k : Z)
  (prev : list float64) (w : Z) : result float64 :=
  skip ← getitem prev w;
  wk ← getitem (weights self) (k - 1);
  take ←
    (if wk <=? w then
       v ← getitem (values self) (k - 1);
       cell ← getitem prev (w - wk);
       float64_radd v cell
     else Ok (Fin sentinel));
  Ok (float64_max skip take).

Definition dp_b_row (sentinel : Z) (self : KnapsackSolver) (k : Z)
  (prev : list float64) : result (list float64) :=
  mapM (dp_b_value sentinel self k prev) (seqZ 0 (capacity self + 1)).

(** Rows computed one from the other along the list [xs] of row indices. *)
Fixpoint sweep {A : Type} (rowf : Z → list A → result (list A))
  (xs : list Z) (prev : list A) : result (list A) :=
  match xs with
  | [] => Ok prev
  | x :: xs => row ← rowf x prev; sweep rowf xs row
  end.

(** A cell that no sentinel can beat. *)
Definition float64_nonneg (x : float64) : Prop :=
  match x with
  | Fin z => 0 ≤ z
  | PInf => True
  | _ => False
  end.

(** The recurrence of [g] as the [float64] grid of [dp_b] evaluates it: each
    value is converted and each sum is rounded. *)
Fixpoint g_float (items : list (Z * Z)) (k : nat) (w : Z) : float64 :=
  match k with
  | O => Fin 0
  | S k =>
    let skip := g_float items k w in
    match items !! k with
    | Some (wk, v) =>
      if wk <=? w
      then float64_max skip (float64_add (round64 v) (g_float items k (w - wk)))
      else skip
    | None => skip
    end
  end.

(** The order of the cells that are not negative. *)
Definition float64_le (a b : float64) : Prop :=
  match a, b with
  | Fin x, Fin y => 0 ≤ x ≤ y
  | Fin x, PInf => 0 ≤ x
  | PInf, PInf => True
  | _, _ => False
  end.

(** ** Invariants of the grids and of the memos *)

(** A grid of [rows] rows of [cols] columns. *)
Definition grid_dims {A : Type} (rows cols : nat) (dp : list (list A)) : Prop :=
  length dp = rows ∧ Forall (λ row, length row = cols) dp.

(** Row indices visited one after the other, each row read by the next
    step. *)
Fixpoint chained (src dst : Z → nat) (rows : nat) (d0 : nat) (xs : list Z)
  : Prop :=
  match xs with
  | [] => True
  | x :: xs =>
    src x = d0 ∧ dst x ≠ d0 ∧ (dst x < rows)%nat ∧ chained src dst rows (dst x) xs
  end.

(** Every entry of the memo of [dfs_a] is the value of [f] at its key, and
    every entry of the memo of [dfs_b] the value of [g]. *)
Definition memo_a_ok (self : KnapsackSolver) (memo : gmap (Z * Z) Z) : Prop :=
  ∀ i c r, memo !! (i, c) = Some r → r = f (weights self) (values self) i c.

Definition memo_b_ok (self : KnapsackSolver) (memo : gmap (Z * Z) Z) : Prop :=
  ∀ k w r, memo !! (k, w) = Some r → r = g (weights self) (values self) k w.

(** * Proofs *)

(** ** The outcome monad, indexing and loops *)

Lemma bind_Ok {A B : Type} (h : A → result B) (a : A) :
  (Ok a ≫= h) = h a.
Proof. reflexivity. Qed.

Lemma getitem_lookup {A : Type} (l : list A) (i : Z) (x : A) :
  0 ≤ i → l !! Z.to_nat i = Some x → getitem l i = Ok x.
Proof.
  intros Hi Hl. unfold getitem.
  apply lookup_lt_Some in Hl as Hlt.
  destruct (i <? 0) eqn:Hneg; [lia|].
  replace ((0 <=? i) && (i <? Z.of_nat (length l))) with true
    by (symmetry; apply andb_true_iff; lia).
  by rewrite Hl.
Qed.

Lemma getitem_nat {A : Type} (l : list A) (k : nat) (x : A) :
  l !! k = Some x → getitem l (Z.of_nat k) = Ok x.
Proof. intros Hl. apply getitem_lookup; [lia|]. by rewrite Nat2Z.id. Qed.

Lemma setitem2_lookup {A : Type} (dp : list (list A)) (i c : Z)
    (row : list A) (x : A) :
  0 ≤ i → 0 ≤ c < Z.of_nat (length row) → dp !! Z.to_nat i = Some row →
  setitem2 dp i c x = Ok (<[Z.to_nat i := <[Z.to_nat c := x]> row]> dp).
Proof.
  intros Hi Hc Hrow. unfold setitem2.
  rewrite (getitem_lookup _ _ _ Hi Hrow), bind_Ok.
  destruct (i <? 0) eqn:Hineg; [lia|].
  destruct (c <? 0) eqn:Hcneg; [lia|].
  replace ((0 <=? c) && (c <? Z.of_nat (length row))) with true
    by (symmetry; apply andb_true_iff; lia).
  done.
Qed.

Lemma length_mapM {A B : Type} (h : A → result B) (xs : list A) (ys : list B) :
  mapM h xs = Ok ys → length ys = length xs.
Proof.
  revert ys. induction xs as [|x xs IH]; intros ys; simpl.
  - by intros [= <-].
  - destruct (h x); simpl; [|done].
    destruct (mapM h xs); simpl; [|done].
    intros [= <-]. simpl. f_equal. by apply IH.
Qed.

Lemma mapM_ext_in {A B : Type} (h1 h2 : A → result B) (xs : list A) :
  (∀ x, x ∈ xs → h1 x = h2 x) → mapM h1 xs = mapM h2 xs.
Proof.
  induction xs as [|x xs IH]; intros Hext; simpl; [done|].
  rewrite Hext by left. rewrite IH; [done|].
  intros y Hy. apply Hext. by right.
Qed.

Lemma mapM_Ok_fmap {A B : Type} (h : A → result B) (k : A → B) (xs : list A) :
  (∀ x, x ∈ xs → h x = Ok (k x)) → mapM h xs = Ok (k <$> xs).
Proof.
  induction xs as [|x xs IH]; intros Hext; simpl; [done|].
  rewrite Hext by left. simpl. rewrite IH; [done|].
  intros y Hy. apply Hext. by right.
Qed.

Lemma mapM_Ok_Forall {A B : Type} (P : B → Prop) (h : A → result B)
    (xs : list A) (ys : list B) :
  (∀ x y, x ∈ xs → h x = Ok y → P y) → mapM h xs = Ok ys → Forall P ys.
Proof.
  revert ys. induction xs as [|x xs IH]; intros ys HP; simpl.
  - intros [= <-]. constructor.
  - destruct (h x) as [y|] eqn:Hy; simpl; [|done].
    destruct (mapM h xs) as [ys'|] eqn:Hys; simpl; [|done].
    intros [= <-]. constructor.
    + eapply HP; [left|done].
    + apply IH; [|done]. intros x' y' Hx'. apply HP. by right.
Qed.

(** The inner loop of a tabulation: when the body at column [c] stores a
    value [cellf c] that does not depend on the row being written, the loop
    writes the row [mapM cellf] of all columns, or stops at the first
    exception. *)
Lemma fill_row {A : Type} (cellf : Z → result A)
    (body : Z → list (list A) → result (list (list A)))
    (dst : nat) (Inv : list (list A) → Prop) :
  (∀ c dp row x, Inv dp → Inv (<[dst := <[c := x]> row]> dp)) →
  (∀ c dp row, Inv dp → dp !! dst = Some row →
     0 ≤ c < Z.of_nat (length row) →
     body c dp = (x ← cellf c; Ok (<[dst := <[Z.to_nat c := x]> row]> dp))) →
  ∀ (m : nat) (c0 : nat) dp row,
    Inv dp → dp !! dst = Some row → (c0 + m)%nat = length row →
    for_each (seqZ (Z.of_nat c0) (Z.of_nat m)) body dp =
    (xs ← mapM cellf (seqZ (Z.of_nat c0) (Z.of_nat m));
     Ok (<[dst := take c0 row ++ xs]> dp)).
Proof.
  intros Hframe Hbody. induction m as [|m IH]; intros c0 dp row HI Hrow Hlen.
  - simpl. f_equal. rewrite app_nil_r, take_ge by lia.
    symmetry. by apply list_insert_id.
  - rewrite seqZ_cons by lia. simpl.
    rewrite (Hbody _ _ row) by (done || lia).
    destruct (cellf (Z.of_nat c0)) as [x|e]; simpl; [|done].
    replace (Z.succ (Z.of_nat c0)) with (Z.of_nat (S c0)) by lia.
    replace (Z.pred (Z.of_nat (S m))) with (Z.of_nat m) by lia.
    rewrite Nat2Z.id.
    rewrite (IH (S c0) _ (<[c0 := x]> row)).
    + destruct (mapM cellf _) as [xs|e]; simpl; [|done].
      f_equal. rewrite list_insert_insert_eq. f_equal.
      rewrite take_insert_lt by lia.
      assert (Hc0 : (c0 < length row)%nat) by lia.
      apply lookup_lt_is_Some in Hc0 as [y Hy].
      rewrite (take_S_r _ _ y) by done.
      rewrite insert_app_r_alt by (rewrite length_take; lia).
      rewrite length_take, Nat.min_l by lia.
      rewrite Nat.sub_diag. simpl. by rewrite <- app_assoc.
    + by apply Hframe.
    + apply list_lookup_insert_eq. by eapply lookup_lt_Some.
    + rewrite length_insert. lia.
Qed.

Lemma grid_dims_insert {A : Type} (rows cols : nat) (dp : list (list A))
    (i : nat) (row : list A) :
  grid_dims rows cols dp → length row = cols →
  grid_dims rows cols (<[i := row]> dp).
Proof.
  intros [Hlen Hall] Hrow. split; [by rewrite length_insert|].
  destruct (decide (i < length dp)%nat) as [Hi|Hi].
  - apply Forall_insert; done.
  - rewrite list_insert_ge by lia. done.
Qed.

(** The outer loop of a tabulation computes the rows that [sweep] computes,
    and raises what it raises. *)
Lemma sweep_loop {A : Type} (rowf : Z → list A → result (list A))
    (body : Z → list (list A) → result (list (list A)))
    (src dst : Z → nat) (rows cols : nat) :
  (∀ x prev row, rowf x prev = Ok row → length row = cols) →
  (∀ x dp prev, grid_dims rows cols dp → (dst x < rows)%nat →
     dst x ≠ src x → dp !! src x = Some prev →
     body x dp = (row ← rowf x prev; Ok (<[dst x := row]> dp))) →
  ∀ xs d0 dp prev,
    chained src dst rows d0 xs → grid_dims rows cols dp →
    dp !! d0 = Some prev →
    match for_each xs body dp with
    | Ok dp' => ∃ r, sweep rowf xs prev = Ok r
                     ∧ dp' !! foldl (λ _ x, dst x) d0 xs = Some r
                     ∧ grid_dims rows cols dp'
    | Raise e => sweep rowf xs prev = Raise e
    end.
Proof.
  intros Hcols Hbody. induction xs as [|x xs IH]; intros d0 dp prev Hch Hdims Hprev.
  - simpl. eauto.
  - destruct Hch as (Hsrc & Hne & Hlt & Hch). simpl.
    rewrite (Hbody x dp prev) by (done || congruence).
    destruct (rowf x prev) as [row|e] eqn:Hrow; simpl; [|done].
    apply (IH (dst x) _ row); [done| |].
    + apply grid_dims_insert; [done|]. by eapply Hcols.
    + apply list_lookup_insert_eq. destruct Hdims as [-> _]. done.
Qed.

Lemma chained_down (m rows : nat) :
  (m < rows)%nat →
  chained (λ i, Z.to_nat (i + 1)) Z.to_nat rows m
    (reverse (seqZ 0 (Z.of_nat m))).
Proof.
  induction m as [|m IH]; intros Hm; [done|].
  rewrite seqZ_S, reverse_snoc. simpl.
  replace (Z.to_nat (0 + Z.of_nat m)) with m by lia.
  repeat split; [lia|lia|lia|]. apply IH. lia.
Qed.

Lemma foldl_down (m : nat) :
  foldl (λ _ x, Z.to_nat x) m (reverse (seqZ 0 (Z.of_nat m))) = 0%nat.
Proof.
  destruct m as [|m]; [done|].
  rewrite seqZ_cons by lia. rewrite reverse_cons, foldl_app. simpl. done.
Qed.

Lemma chained_up (m d0 rows : nat) :
  (d0 + m < rows)%nat →
  chained (λ k, Z.to_nat (k - 1)) Z.to_nat rows d0
    (seqZ (Z.of_nat d0 + 1) (Z.of_nat m)).
Proof.
  revert d0. induction m as [|m IH]; intros d0 Hm; [done|].
  rewrite seqZ_cons by lia. simpl.
  repeat split; [lia|lia|lia|].
  replace (Z.to_nat (Z.of_nat d0 + 1)) with (S d0) by lia.
  replace (Z.succ (Z.of_nat d0 + 1)) with (Z.of_nat (S d0) + 1) by lia.
  replace (Z.pred (Z.of_nat (S m))) with (Z.of_nat m) by lia.
  apply IH. lia.
Qed.

Lemma foldl_up (m d0 : nat) :
  foldl (λ _ x, Z.to_nat x) d0 (seqZ (Z.of_nat d0 + 1) (Z.of_nat m))
  = (d0 + m)%nat.
Proof.
  destruct m as [|m]; [simpl; lia|].
  rewrite seqZ_S, foldl_app. simpl. lia.
Qed.

(** ** The grid of [dp_a] *)

Section Grid_a.

Variable sentinel : Z.
Variable self : KnapsackSolver.

Lemma dp_a_cell_value (i c : Z) (dp : list (list Z)) (prev row : list Z) :
  0 ≤ i → dp !! Z.to_nat (i + 1) = Some prev → dp !! Z.to_nat i = Some row →
  0 ≤ c < Z.of_nat (length row) →
  dp_a_cell sentinel self i c dp =
  (x ← dp_a_value sentinel self i prev c;
   Ok (<[Z.to_nat i := <[Z.to_nat c := x]> row]> dp)).
Proof.
  intros Hi Hprev Hrow Hc. unfold dp_a_cell, dp_a_value.
  rewrite (getitem_lookup dp (i + 1) prev) by (done || lia). simpl.
  destruct (getitem prev c) as [skip|]; simpl; [|done].
  destruct (getitem (weights self) i) as [w|]; simpl; [|done].
  destruct (w <=? c).
  - destruct (getitem (values self) i) as [v|]; simpl; [|done].
    destruct (getitem prev (c - w)) as [cell|]; simpl; [|done].
    destruct (int64_radd v cell) as [t|]; simpl; [|done].
    by apply setitem2_lookup.
  - simpl. by apply setitem2_lookup.
Qed.

Lemma dp_a_inner (i : Z) (rows cols : nat) (dp : list (list Z))
    (prev : list Z) :
  capacity self + 1 = Z.of_nat cols →
  grid_dims rows cols dp → (Z.to_nat i < rows)%nat →
  Z.to_nat i ≠ Z.to_nat (i + 1) → dp !! Z.to_nat (i + 1) = Some prev →
  for_each (seqZ 0 (capacity self + 1)) (dp_a_cell sentinel self i) dp =
  (row ← dp_a_row sentinel self i prev; Ok (<[Z.to_nat i := row]> dp)).
Proof.
  intros Hcap Hdims Hlt Hne Hprev. unfold dp_a_row. rewrite Hcap.
  assert (Hi : 0 ≤ i) by lia.
  destruct Hdims as [Hlen Hall].
  assert (Hrow : is_Some (dp !! Z.to_nat i)) by (apply lookup_lt_is_Some; lia).
  destruct Hrow as [row Hrow].
  pose proof (Forall_lookup_1 _ _ _ _ Hall Hrow) as Hrowlen. simpl in Hrowlen.
  apply (fill_row (dp_a_value sentinel self i prev) (dp_a_cell sentinel self i)
           (Z.to_nat i) (λ dp, dp !! Z.to_nat (i + 1) = Some prev)
           ltac:(intros; simpl; by rewrite list_lookup_insert_ne)
           ltac:(intros; by apply dp_a_cell_value)
           cols 0%nat dp row); [done|done|lia].
Qed.

Lemma dp_a_row_length (i : Z) (prev row : list Z) :
  dp_a_row sentinel self i prev = Ok row →
  length row = Z.to_nat (capacity self + 1).
Proof.
  unfold dp_a_row. intros H. apply length_mapM in H. by rewrite length_seqZ in H.
Qed.

(** [dp_a] is the last of the rows computed from the zero row [n], read at
    column [capacity]. *)
Lemma dp_a_with_sweep :
  0 ≤ n self → -1 ≤ capacity self →
  dp_a_with sentinel self =
  (row ← sweep (dp_a_row sentinel self) (reverse (seqZ 0 (n self)))
           (replicate (Z.to_nat (capacity self + 1)) 0);
   getitem row (capacity self)).
Proof.
  intros Hn Hcap. unfold dp_a_with, np_full.
  destruct (Z_of_nat_complete (n self) Hn) as [m Hm]. rewrite Hm.
  destruct (Z.of_nat m + 1 <? 0) eqn:E1; [lia|].
  destruct (capacity self + 1 <? 0) eqn:E2; [lia|]. simpl.
  set (cols := Z.to_nat (capacity self + 1)).
  replace (Z.to_nat (Z.of_nat m + 1)) with (S m) by lia.
  set (dp0 := replicate (S m) (replicate cols SENTINEL)).
  assert (Hdims0 : grid_dims (S m) cols dp0).
  { split; [apply length_replicate|].
    apply Forall_replicate, length_replicate. }
  unfold set_row.
  assert (Hrown : dp0 !! m = Some (replicate cols SENTINEL)).
  { apply lookup_replicate_2. lia. }
  rewrite (getitem_nat _ _ _ Hrown). simpl.
  destruct (Z.of_nat m <? 0) eqn:E3; [lia|].
  rewrite length_replicate, Nat2Z.id.
  set (dp1 := <[m := replicate cols 0]> dp0).
  assert (Hdims1 : grid_dims (S m) cols dp1).
  { apply grid_dims_insert; [done|apply length_replicate]. }
  assert (Hrow1 : dp1 !! m = Some (replicate cols 0)).
  { apply list_lookup_insert_eq. unfold dp0. rewrite length_replicate. lia. }
  pose proof (sweep_loop (dp_a_row sentinel self)
    (λ i, for_each (seqZ 0 (capacity self + 1)) (dp_a_cell sentinel self i))
    (λ i, Z.to_nat (i + 1)) Z.to_nat (S m) cols
    ltac:(intros; by eapply dp_a_row_length)
    ltac:(intros; apply dp_a_inner with (S m) cols;
          (done || (unfold cols; lia)))
    (reverse (seqZ 0 (Z.of_nat m))) m dp1 (replicate cols 0)
    ltac:(apply chained_down; lia) Hdims1 Hrow1) as Hloop.
  rewrite foldl_down in Hloop.
  destruct (for_each _ _ dp1) as [dp'|e]; simpl.
  - destruct Hloop as (r & -> & Hr & _). simpl.
    by rewrite (getitem_lookup dp' 0 r).
  - by rewrite Hloop.
Qed.

End Grid_a.

(** ** The grid of [dp_b] *)

Section Grid_b.

Variable sentinel : Z.
Variable self : KnapsackSolver.

Lemma dp_b_cell_value (k w : Z) (dp : list (list float64))
    (prev row : list float64) :
  1 ≤ k → dp !! Z.to_nat (k - 1) = Some prev → dp !! Z.to_nat k = Some row →
  0 ≤ w < Z.of_nat (length row) →
  dp_b_cell sentinel self k w dp =
  (x ← dp_b_value sentinel self k prev w;
   Ok (<[Z.to_nat k := <[Z.to_nat w := x]> row]> dp)).
Proof.
  intros Hk Hprev Hrow Hw. unfold dp_b_cell, dp_b_value.
  rewrite (getitem_lookup dp (k - 1) prev) by (done || lia). simpl.
  destruct (getitem prev w) as [skip|]; simpl; [|done].
  destruct (getitem (weights self) (k - 1)) as [wk|]; simpl; [|done].
  destruct (wk <=? w).
  - destruct (getitem (values self) (k - 1)) as [v|]; simpl; [|done].
    destruct (getitem prev (w - wk)) as [cell|]; simpl; [|done].
    destruct (float64_radd v cell) as [t|]; simpl; [|done].
    apply setitem2_lookup; (done || lia).
  - simpl. apply setitem2_lookup; (done || lia).
Qed.

Lemma dp_b_inner (k : Z) (rows cols : nat) (dp : list (list float64))
    (prev : list float64) :
  capacity self + 1 = Z.of_nat cols →
  grid_dims rows cols dp → (Z.to_nat k < rows)%nat →
  Z.to_nat k ≠ Z.to_nat (k - 1) → dp !! Z.to_nat (k - 1) = Some prev →
  for_each (seqZ 0 (capacity self + 1)) (dp_b_cell sentinel self k) dp =
  (row ← dp_b_row sentinel self k prev; Ok (<[Z.to_nat k := row]> dp)).
Proof.
  intros Hcap Hdims Hlt Hne Hprev. unfold dp_b_row. rewrite Hcap.
  assert (Hk : 1 ≤ k) by lia.
  destruct Hdims as [Hlen Hall].
  assert (Hrow : is_Some (dp !! Z.to_nat k)) by (apply lookup_lt_is_Some; lia).
  destruct Hrow as [row Hrow].
  pose proof (Forall_lookup_1 _ _ _ _ Hall Hrow) as Hrowlen. simpl in Hrowlen.
  apply (fill_row (dp_b_value sentinel self k prev) (dp_b_cell sentinel self k)
           (Z.to_nat k) (λ dp, dp !! Z.to_nat (k - 1) = Some prev)
           ltac:(intros; simpl; by rewrite list_lookup_insert_ne)
           ltac:(intros; by apply dp_b_cell_value)
           cols 0%nat dp row); [done|done|lia].
Qed.

Lemma dp_b_row_length (k : Z) (prev row : list float64) :
  dp_b_row sentinel self k prev = Ok row →
  length row = Z.to_nat (capacity self + 1).
Proof.
  unfold dp_b_row. intros H. apply length_mapM in H. by rewrite length_seqZ in H.
Qed.

(** [dp_b] is the last of the rows computed from the zero row [0], read at
    column [capacity] and converted by [int]. *)
Lemma dp_b_with_sweep :
  0 ≤ n self → -1 ≤ capacity self →
  dp_b_with sentinel self =
  (row ← sweep (dp_b_row sentinel self) (seqZ 1 (n self))
           (replicate (Z.to_nat (capacity self + 1)) (Fin 0));
   cell ← getitem row (capacity self);
   int_of_float cell).
Proof.
  intros Hn Hcap. unfold dp_b_with, np_full.
  destruct (Z_of_nat_complete (n self) Hn) as [m Hm]. rewrite Hm.
  destruct (Z.of_nat m + 1 <? 0) eqn:E1; [lia|].
  destruct (capacity self + 1 <? 0) eqn:E2; [lia|]. simpl.
  set (cols := Z.to_nat (capacity self + 1)).
  replace (Z.to_nat (Z.of_nat m + 1)) with (S m) by lia.
  set (dp0 := replicate (S m) (replicate cols (Fin 0))).
  assert (Hdims0 : grid_dims (S m) cols dp0).
  { split; [apply length_replicate|].
    apply Forall_replicate, length_replicate. }
  assert (Hrow0 : dp0 !! 0%nat = Some (replicate cols (Fin 0))) by done.
  pose proof (sweep_loop (dp_b_row sentinel self)
    (λ k, for_each (seqZ 0 (capacity self + 1)) (dp_b_cell sentinel self k))
    (λ k, Z.to_nat (k - 1)) Z.to_nat (S m) cols
    ltac:(intros; by eapply dp_b_row_length)
    ltac:(intros; apply dp_b_inner with (S m) cols;
          (done || (unfold cols; lia)))
    (seqZ (Z.of_nat 0 + 1) (Z.of_nat m)) 0%nat dp0 (replicate cols (Fin 0))
    ltac:(apply chained_up; lia) Hdims0 Hrow0) as Hloop.
  rewrite foldl_up in Hloop. change (Z.of_nat 0 + 1) with 1 in Hloop.
  destruct (for_each _ _ dp0) as [dp'|e]; simpl.
  - destruct Hloop as (r & -> & Hr & _). simpl.
    by rewrite (getitem_nat dp' m r).
  - by rewrite Hloop.
Qed.

End Grid_b.

(** ** Selections and their totals *)

Lemma total_weight_app (l1 l2 : list (Z * Z)) :
  total_weight (l1 ++ l2) = total_weight l1 + total_weight l2.
Proof. induction l1 as [|x l1 IH]; simpl; [done|]. rewrite IH. lia. Qed.

Lemma total_value_app (l1 l2 : list (Z * Z)) :
  total_value (l1 ++ l2) = total_value l1 + total_value l2.
Proof. induction l1 as [|x l1 IH]; simpl; [done|]. rewrite IH. lia. Qed.

Lemma total_weight_nonneg (l : list (Z * Z)) :
  Forall (λ it, 0 ≤ it.1) l → 0 ≤ total_weight l.
Proof. induction 1; simpl; lia. Qed.

Lemma total_value_nonneg (l : list (Z * Z)) :
  Forall (λ it, 0 ≤ it.2) l → 0 ≤ total_value l.
Proof. induction 1; simpl; lia. Qed.

Lemma Forall_sublist_of {A : Type} (P : A → Prop) (l k : list A) :
  l `sublist_of` k → Forall P k → Forall P l.
Proof.
  induction 1; intros Hk; [done| |].
  - inversion_clear Hk. constructor; auto.
  - inversion_clear Hk. auto.
Qed.

Lemma total_value_sublist (l k : list (Z * Z)) :
  l `sublist_of` k → Forall (λ it, 0 ≤ it.2) k →
  total_value l ≤ total_value k.
Proof.
  induction 1; intros Hk; simpl; [done| |].
  - inversion_clear Hk. specialize (IHsublist ltac:(done)). lia.
  - inversion_clear Hk. specialize (IHsublist ltac:(done)). lia.
Qed.

Lemma Forall_zip_weights (ws vs : list Z) :
  Forall (λ w, 0 ≤ w) ws → Forall (λ it : Z * Z, 0 ≤ it.1) (zip ws vs).
Proof.
  intros H. revert vs. induction H as [|w ws Hw _ IH]; intros [|v vs];
    simpl; constructor; auto.
Qed.

Lemma Forall_zip_pos_weights (ws vs : list Z) :
  Forall (λ w, 0 < w) ws → Forall (λ it : Z * Z, 0 < it.1) (zip ws vs).
Proof.
  intros H. revert vs. induction H as [|w ws Hw _ IH]; intros [|v vs];
    simpl; constructor; auto.
Qed.

Lemma Forall_zip_values (ws vs : list Z) :
  Forall (λ v, 0 ≤ v) vs → Forall (λ it : Z * Z, 0 ≤ it.2) (zip ws vs).
Proof.
  intros H. revert ws. induction H as [|v vs Hv _ IH]; intros [|w ws];
    simpl; constructor; auto.
Qed.

Lemma is_optimum_unique (items : list (Z * Z)) (cap r1 r2 : Z) :
  is_optimum items cap r1 → is_optimum items cap r2 → r1 = r2.
Proof.
  intros [(s1 & Hf1 & Hv1) Hub1] [(s2 & Hf2 & Hv2) Hub2].
  specialize (Hub1 _ Hf2). specialize (Hub2 _ Hf1). lia.
Qed.

(** ** The recurrences *)

Lemma f_from_nonneg (items : list (Z * Z)) (c : Z) : 0 ≤ f_from items c.
Proof.
  revert c. induction items as [|[w v] items IH]; intros c; simpl; [done|].
  destruct (c <=? 0); [done|]. specialize (IH c).
  destruct (w <=? c); lia.
Qed.

Lemma knap_nonneg (items : list (Z * Z)) (c : Z) : 0 ≤ knap items c.
Proof.
  revert c. induction items as [|[w v] items IH]; intros c; simpl; [done|].
  specialize (IH c). destruct (w <=? c); lia.
Qed.

Lemma g_upto_nonneg (items : list (Z * Z)) (k : nat) (w : Z) :
  0 ≤ g_upto items k w.
Proof.
  revert w. induction k as [|k IH]; intros w; simpl; [done|].
  specialize (IH w). destruct (items !! k) as [[wk v]|]; [|done].
  destruct (wk <=? w); lia.
Qed.

Lemma f_from_mono (items : list (Z * Z)) (c1 c2 : Z) :
  c1 ≤ c2 → f_from items c1 ≤ f_from items c2.
Proof.
  revert c1 c2. induction items as [|[w v] items IH]; intros c1 c2 Hc; simpl;
    [done|].
  destruct (Z.leb_spec c1 0).
  { destruct (c2 <=? 0); [done|].
    pose proof (f_from_nonneg items c2). destruct (w <=? c2); lia. }
  destruct (Z.leb_spec c2 0); [lia|].
  pose proof (IH c1 c2 Hc). pose proof (IH (c1 - w) (c2 - w) ltac:(lia)).
  destruct (Z.leb_spec w c1), (Z.leb_spec w c2); lia.
Qed.

Lemma knap_mono (items : list (Z * Z)) (c1 c2 : Z) :
  c1 ≤ c2 → knap items c1 ≤ knap items c2.
Proof.
  revert c1 c2. induction items as [|[w v] items IH]; intros c1 c2 Hc; simpl;
    [done|].
  pose proof (IH c1 c2 Hc). pose proof (IH (c1 - w) (c2 - w) ltac:(lia)).
  destruct (Z.leb_spec w c1), (Z.leb_spec w c2); lia.
Qed.

Lemma g_upto_mono (items : list (Z * Z)) (k : nat) (w1 w2 : Z) :
  w1 ≤ w2 → g_upto items k w1 ≤ g_upto items k w2.
Proof.
  revert w1 w2. induction k as [|k IH]; intros w1 w2 Hw; simpl; [done|].
  pose proof (IH w1 w2 Hw). destruct (items !! k) as [[wk v]|]; [|done].
  pose proof (IH (w1 - wk) (w2 - wk) ltac:(lia)).
  destruct (Z.leb_spec wk w1), (Z.leb_spec wk w2); lia.
Qed.

Lemma knap_le_total (items : list (Z * Z)) (c : Z) :
  Forall (λ it, 0 ≤ it.2) items → knap items c ≤ total_value items.
Proof.
  intros H. revert c. induction H as [|[w v] items Hv _ IH]; intros c; simpl;
    [done|].
  simpl in Hv. pose proof (IH c). pose proof (IH (c - w)).
  destruct (w <=? c); lia.
Qed.

(** With positive weights nothing fits a capacity that is not positive, and
    the cut of [f] at [c <= 0] changes nothing. *)
Lemma knap_nothing_fits (items : list (Z * Z)) (c : Z) :
  Forall (λ it, 0 < it.1) items → c ≤ 0 → knap items c = 0.
Proof.
  intros H Hc. induction H as [|[w v] items Hw _ IH]; simpl; [done|].
  simpl in Hw. destruct (Z.leb_spec w c); [lia|done].
Qed.

Lemma f_from_knap (items : list (Z * Z)) (c : Z) :
  Forall (λ it, 0 < it.1) items → f_from items c = knap items c.
Proof.
  intros H. revert c. induction H as [|[w v] items Hw Hws IH]; intros c; simpl;
    [done|].
  simpl in Hw. rewrite !IH.
  destruct (Z.leb_spec c 0); [|done].
  destruct (Z.leb_spec w c); [lia|].
  symmetry. by apply knap_nothing_fits.
Qed.

(** [knap] is the optimum of the items it is given. *)
Lemma knap_optimum (items : list (Z * Z)) (c : Z) :
  Forall (λ it, 0 ≤ it.1) items → 0 ≤ c → is_optimum items c (knap items c).
Proof.
  intros H. revert c. induction H as [|[w v] items Hw Hws IH]; intros c Hc.
  - split.
    + exists []. repeat split; simpl; [constructor|done].
    + intros sel [Hsub _]. apply sublist_nil_r in Hsub as ->. done.
  - simpl in Hw. simpl.
    destruct (IH c Hc) as [(s0 & [Hs0 Hw0] & Hv0) Hub0].
    split.
    + destruct (Z.leb_spec w c) as [Hfit|Hfit].
      * destruct (IH (c - w) ltac:(lia)) as [(s1 & [Hs1 Hw1] & Hv1) _].
        destruct (Z.max_spec (knap items c) (v + knap items (c - w)))
          as [[_ ->]|[_ ->]].
        -- exists ((w, v) :: s1). repeat split; simpl; [|lia|lia].
           by apply sublist_skip.
        -- exists s0. repeat split; [|done|done]. by apply sublist_cons.
      * exists s0. repeat split; [|done|done]. by apply sublist_cons.
    + intros sel [Hsub Hwt].
      apply sublist_cons_r in Hsub as [Hsub|(sel' & -> & Hsub)].
      * specialize (Hub0 sel ltac:(by split)).
        destruct (w <=? c); lia.
      * simpl in Hwt. simpl.
        pose proof (total_weight_nonneg sel'
                      (Forall_sublist_of _ _ _ Hsub Hws)) as Hnn.
        destruct (Z.leb_spec w c) as [Hfit|Hfit]; [|lia].
        destruct (IH (c - w) ltac:(lia)) as [_ Hub1].
        specialize (Hub1 sel' ltac:(split; [done|lia])). lia.
Qed.

(** [g_upto] is the optimum of the first [k] items. *)
Lemma g_upto_optimum (items : list (Z * Z)) (k : nat) (w : Z) :
  Forall (λ it, 0 ≤ it.1) items → 0 ≤ w →
  is_optimum (take k items) w (g_upto items k w).
Proof.
  intros Hws. revert w. induction k as [|k IH]; intros w Hw.
  - rewrite take_0. split.
    + exists []. repeat split; simpl; [constructor|done].
    + intros sel [Hsub _]. apply sublist_nil_r in Hsub as ->. done.
  - simpl. destruct (items !! k) as [[wk v]|] eqn:Hk.
    2:{ apply lookup_ge_None in Hk. rewrite take_ge by lia.
        specialize (IH w Hw). by rewrite take_ge in IH by lia. }
    rewrite (take_S_r _ _ _ Hk).
    pose proof (Forall_lookup_1 _ _ _ _ Hws Hk) as Hwk. simpl in Hwk.
    destruct (IH w Hw) as [(s0 & [Hs0 Hw0] & Hv0) Hub0].
    split.
    + destruct (Z.leb_spec wk w) as [Hfit|Hfit].
      * destruct (IH (w - wk) ltac:(lia)) as [(s1 & [Hs1 Hw1] & Hv1) _].
        destruct (Z.max_spec (g_upto items k w) (v + g_upto items k (w - wk)))
          as [[_ ->]|[_ ->]].
        -- exists (s1 ++ [(wk, v)]). repeat split.
           ++ by apply sublist_app.
           ++ rewrite total_weight_app. simpl. lia.
           ++ rewrite total_value_app. simpl. lia.
        -- exists s0. repeat split; [|done|done]. by apply sublist_inserts_r.
      * exists s0. repeat split; [|done|done]. by apply sublist_inserts_r.
    + intros sel [Hsub Hwt].
      apply sublist_app_r in Hsub as (l1 & l2 & -> & Hl1 & Hl2).
      rewrite total_weight_app in Hwt. rewrite total_value_app.
      apply sublist_cons_r in Hl2 as [Hl2|(l' & -> & Hl2)];
        apply sublist_nil_r in Hl2 as ->.
      * simpl in *. specialize (Hub0 l1 ltac:(split; [done|lia])).
        destruct (wk <=? w); lia.
      * simpl in *.
        pose proof (total_weight_nonneg l1
          (Forall_sublist_of _ _ _ Hl1
             (Forall_sublist_of _ _ _ (sublist_take items k) Hws))) as Hnn.
        destruct (Z.leb_spec wk w) as [Hfit|Hfit]; [|lia].
        destruct (IH (w - wk) ltac:(lia)) as [_ Hub1].
        specialize (Hub1 l1 ltac:(split; [done|lia])). lia.
Qed.

Lemma g_upto_knap (items : list (Z * Z)) (c : Z) :
  Forall (λ it, 0 ≤ it.1) items → 0 ≤ c →
  g_upto items (length items) c = knap items c.
Proof.
  intros Hws Hc. apply (is_optimum_unique items c).
  - pose proof (g_upto_optimum items (length items) c Hws Hc) as H.
    by rewrite take_ge in H by lia.
  - by apply knap_optimum.
Qed.

(** ** The recurrences at an index *)

Lemma f_from_cut (items : list (Z * Z)) (c : Z) : c ≤ 0 → f_from items c = 0.
Proof.
  intros Hc. destruct items as [|[w v] items]; simpl; [done|].
  destruct (Z.leb_spec c 0); [done|lia].
Qed.

Lemma f_base (ws vs : list Z) (i c : Z) :
  Z.of_nat (length ws) ≤ i ∨ c ≤ 0 → f ws vs i c = 0.
Proof.
  unfold f. intros [Hi|Hc]; [|by apply f_from_cut].
  rewrite drop_ge; [done|]. rewrite length_zip. lia.
Qed.

Lemma f_step (ws vs : list Z) (i c w v : Z) :
  0 ≤ i → ws !! Z.to_nat i = Some w → vs !! Z.to_nat i = Some v → 0 < c →
  f ws vs i c =
  if w <=? c then Z.max (f ws vs (i + 1) c) (v + f ws vs (i + 1) (c - w))
  else f ws vs (i + 1) c.
Proof.
  intros Hi Hw Hv Hc. unfold f.
  rewrite (drop_S _ (w, v)) by by apply lookup_zip_Some.
  replace (Z.to_nat (i + 1)) with (S (Z.to_nat i)) by lia. simpl.
  destruct (Z.leb_spec c 0); [lia|done].
Qed.

Lemma f_nonneg (ws vs : list Z) (i c : Z) : 0 ≤ f ws vs i c.
Proof. apply f_from_nonneg. Qed.

Lemma g_base (ws vs : list Z) (w : Z) : g ws vs 0 w = 0.
Proof. done. Qed.

Lemma g_step (ws vs : list Z) (k w wk v : Z) :
  1 ≤ k → ws !! Z.to_nat (k - 1) = Some wk → vs !! Z.to_nat (k - 1) = Some v →
  g ws vs k w =
  if wk <=? w then Z.max (g ws vs (k - 1) w) (v + g ws vs (k - 1) (w - wk))
  else g ws vs (k - 1) w.
Proof.
  intros Hk Hw Hv. unfold g.
  replace (Z.to_nat k) with (S (Z.to_nat (k - 1))) by lia. simpl.
  assert (zip ws vs !! Z.to_nat (k - 1) = Some (wk, v)) as ->
    by by apply lookup_zip_Some.
  done.
Qed.

Lemma g_nonneg (ws vs : list Z) (k w : Z) : 0 ≤ g ws vs k w.
Proof. apply g_upto_nonneg. Qed.

(** ** The memoised recursions *)

Section Memo.

Variable sentinel : Z.
Variable self : KnapsackSolver.
Hypothesis sentinel_nonpos : sentinel ≤ 0.
Hypothesis n_len : n self = Z.of_nat (length (weights self)).
Hypothesis values_len : length (weights self) = length (values self).

Lemma item_at (i : Z) :
  0 ≤ i < n self →
  ∃ w v, weights self !! Z.to_nat i = Some w
         ∧ values self !! Z.to_nat i = Some v.
Proof.
  intros Hi.
  destruct (lookup_lt_is_Some_2 (weights self) (Z.to_nat i)) as [w Hw]; [lia|].
  destruct (lookup_lt_is_Some_2 (values self) (Z.to_nat i)) as [v Hv]; [lia|].
  eauto.
Qed.

Lemma dfs_a_dfs_spec (fuel : nat) :
  ∀ i c memo,
    0 ≤ i → (Z.to_nat (n self - i) < fuel)%nat → memo_a_ok self memo →
    ∃ memo', dfs_a_dfs sentinel self fuel i c memo
             = Ok (f (weights self) (values self) i c, memo')
             ∧ memo_a_ok self memo'.
Proof.
  induction fuel as [|fuel IH]; intros i c memo Hi Hfuel Hmemo; [lia|].
  simpl.
  destruct (Z.leb_spec (n self) i) as [Hin|Hin]; simpl.
  { exists memo. rewrite f_base by lia. done. }
  destruct (Z.leb_spec c 0) as [Hc|Hc]; simpl.
  { exists memo. rewrite f_base by lia. done. }
  destruct (memo !! (i, c)) as [r|] eqn:Hlook.
  { exists memo. by rewrite (Hmemo _ _ _ Hlook). }
  destruct (IH (i + 1) c memo) as (memo1 & -> & Hmemo1); [lia|lia|done|].
  simpl.
  destruct (item_at i) as (w & v & Hw & Hv); [lia|].
  rewrite (getitem_lookup _ _ _ Hi Hw). simpl.
  rewrite (f_step _ _ i c w v) by (done || lia).
  pose proof (f_nonneg (weights self) (values self) (i + 1) c) as Hskip.
  destruct (Z.leb_spec w c) as [Hfit|Hfit].
  - rewrite (getitem_lookup _ _ _ Hi Hv). simpl.
    destruct (IH (i + 1) (c - w) memo1) as (memo2 & -> & Hmemo2);
      [lia|lia|done|].
    simpl. rewrite lookup_insert_eq.
    eexists. split; [done|].
    intros i' c' r'. rewrite lookup_insert. case_decide as Hkey.
    + injection Hkey as <- <-. intros [= <-].
      rewrite (f_step _ _ i c w v) by (done || lia).
      destruct (Z.leb_spec w c); [done|lia].
    + apply Hmemo2.
  - simpl. rewrite lookup_insert_eq.
    rewrite Z.max_l by lia.
    eexists. split; [done|].
    intros i' c' r'. rewrite lookup_insert. case_decide as Hkey.
    + injection Hkey as <- <-. intros [= <-].
      rewrite (f_step _ _ i c w v) by (done || lia).
      destruct (Z.leb_spec w c); [lia|done].
    + apply Hmemo1.
Qed.

Lemma dfs_b_dfs_spec (fuel : nat) :
  ∀ k w memo,
    0 ≤ k ≤ n self → (Z.to_nat k < fuel)%nat → memo_b_ok self memo →
    ∃ memo', dfs_b_dfs sentinel self fuel k w memo
             = Ok (g (weights self) (values self) k w, memo')
             ∧ memo_b_ok self memo'.
Proof.
  induction fuel as [|fuel IH]; intros k w memo Hk Hfuel Hmemo; [lia|].
  simpl.
  destruct (Z.eqb_spec k 0) as [->|Hk0].
  { exists memo. done. }
  destruct (memo !! (k, w)) as [r|] eqn:Hlook.
  { exists memo. by rewrite (Hmemo _ _ _ Hlook). }
  destruct (IH (k - 1) w memo) as (memo1 & -> & Hmemo1); [lia|lia|done|].
  simpl.
  destruct (item_at (k - 1)) as (wk & v & Hw & Hv); [lia|].
  rewrite (getitem_lookup (weights self) (k - 1) wk) by (done || lia). simpl.
  rewrite (g_step _ _ k w wk v) by (done || lia).
  pose proof (g_nonneg (weights self) (values self) (k - 1) w) as Hskip.
  destruct (Z.leb_spec wk w) as [Hfit|Hfit].
  - rewrite (getitem_lookup (values self) (k - 1) v) by (done || lia). simpl.
    destruct (IH (k - 1) (w - wk) memo1) as (memo2 & -> & Hmemo2);
      [lia|lia|done|].
    simpl. rewrite lookup_insert_eq.
    eexists. split; [done|].
    intros k' w' r'. rewrite lookup_insert. case_decide as Hkey.
    + injection Hkey as <- <-. intros [= <-].
      rewrite (g_step _ _ k w wk v) by (done || lia).
      destruct (Z.leb_spec wk w); [done|lia].
    + apply Hmemo2.
  - simpl. rewrite lookup_insert_eq.
    rewrite Z.max_l by lia.
    eexists. split; [done|].
    intros k' w' r'. rewrite lookup_insert. case_decide as Hkey.
    + injection Hkey as <- <-. intros [= <-].
      rewrite (g_step _ _ k w wk v) by (done || lia).
      destruct (Z.leb_spec wk w); [lia|done].
    + apply Hmemo1.
Qed.

Lemma memo_a_ok_empty : memo_a_ok self ∅.
Proof. intros i c r. by rewrite lookup_empty. Qed.

Lemma memo_b_ok_empty : memo_b_ok self ∅.
Proof. intros k w r. by rewrite lookup_empty. Qed.

Lemma dfs_a_with_f :
  dfs_a_with sentinel self
  = Ok (f (weights self) (values self) 0 (capacity self)).
Proof.
  unfold dfs_a_with.
  destruct (dfs_a_dfs_spec (S (Z.to_nat (n self))) 0 (capacity self) ∅)
    as (memo' & -> & _); [lia|lia|apply memo_a_ok_empty|done].
Qed.

Lemma dfs_b_with_g :
  dfs_b_with sentinel self
  = Ok (g (weights self) (values self) (n self) (capacity self)).
Proof.
  unfold dfs_b_with.
  destruct (dfs_b_dfs_spec (S (Z.to_nat (n self))) (n self) (capacity self) ∅)
    as (memo' & -> & _); [lia|lia|apply memo_b_ok_empty|done].
Qed.

End Memo.

(** ** Rows of the grids: the sentinel never wins *)

Lemma getitem_elem_of {A : Type} (l : list A) (i : Z) (x : A) :
  getitem l i = Ok x → x ∈ l.
Proof.
  unfold getitem.
  destruct ((0 <=? _) && _); [|done].
  destruct (l !! _) eqn:Hl; [|done].
  intros [= <-]. by eapply list_elem_of_lookup_2.
Qed.

Lemma sweep_ext {A : Type} (P : list A → Prop)
    (rowf1 rowf2 : Z → list A → result (list A)) (xs : list Z) (prev : list A) :
  (∀ x prev, P prev → rowf1 x prev = rowf2 x prev) →
  (∀ x prev row, P prev → rowf1 x prev = Ok row → P row) →
  P prev → sweep rowf1 xs prev = sweep rowf2 xs prev.
Proof.
  intros Hext Hpres. revert prev.
  induction xs as [|x xs IH]; intros prev HP; simpl; [done|].
  rewrite <- (Hext x prev HP).
  destruct (rowf1 x prev) as [row|] eqn:Hrow; simpl; [|done].
  apply IH. by eapply Hpres.
Qed.

Section Sentinel.

Variables s1 s2 : Z.
Variable self : KnapsackSolver.
Hypothesis s1_nonpos : s1 ≤ 0.
Hypothesis s2_nonpos : s2 ≤ 0.

Lemma dp_a_value_nonneg (s : Z) (i : Z) (prev : list Z) (c x : Z) :
  Forall (λ y, 0 ≤ y) prev → dp_a_value s self i prev c = Ok x → 0 ≤ x.
Proof.
  intros Hprev. unfold dp_a_value.
  destruct (getitem prev c) as [skip|] eqn:Hskip; simpl; [|done].
  apply getitem_elem_of in Hskip.
  pose proof (proj1 (Forall_forall _ _) Hprev _ Hskip) as Hnn. simpl in Hnn.
  destruct (getitem (weights self) i) as [w|]; simpl; [|done].
  destruct (w <=? c).
  - destruct (getitem (values self) i) as [v|]; simpl; [|done].
    destruct (getitem prev (c - w)) as [cell|]; simpl; [|done].
    destruct (int64_radd v cell) as [t|]; simpl; [|done].
    intros [= <-]. lia.
  - simpl. intros [= <-]. lia.
Qed.

Lemma dp_a_value_sentinel (i : Z) (prev : list Z) (c : Z) :
  Forall (λ y, 0 ≤ y) prev →
  dp_a_value s1 self i prev c = dp_a_value s2 self i prev c.
Proof.
  intros Hprev. unfold dp_a_value.
  destruct (getitem prev c) as [skip|] eqn:Hskip; simpl; [|done].
  apply getitem_elem_of in Hskip.
  pose proof (proj1 (Forall_forall _ _) Hprev _ Hskip) as Hnn. simpl in Hnn.
  destruct (getitem (weights self) i) as [w|]; simpl; [|done].
  destruct (w <=? c); [done|]. simpl.
  by rewrite !Z.max_l by lia.
Qed.

Lemma dp_a_with_sentinel :
  0 ≤ n self → dp_a_with s1 self = dp_a_with s2 self.
Proof.
  intros Hn. destruct (Z.le_gt_cases (-1) (capacity self)) as [Hcap|Hcap].
  - rewrite !dp_a_with_sweep by done. f_equal.
    apply (sweep_ext (Forall (λ y, 0 ≤ y))).
    + intros i prev Hprev. unfold dp_a_row.
      apply mapM_ext_in. intros c _. by apply dp_a_value_sentinel.
    + intros i prev row Hprev. unfold dp_a_row.
      apply mapM_Ok_Forall. intros c x _. by apply dp_a_value_nonneg.
    + by apply Forall_replicate.
  - unfold dp_a_with, np_full.
    destruct (n self + 1 <? 0); [done|].
    destruct (Z.ltb_spec (capacity self + 1) 0); [done|lia].
Qed.

Lemma float64_max_nonneg (skip take : float64) :
  float64_nonneg skip → float64_nonneg (float64_max skip take).
Proof.
  unfold float64_max.
  destruct skip as [z| | |], take as [t| | |]; simpl; try done.
  destruct (Z.ltb_spec z t); simpl; lia.
Qed.

Lemma float64_max_sentinel (s : Z) (skip : float64) :
  s ≤ 0 → float64_nonneg skip → float64_max skip (Fin s) = skip.
Proof.
  intros Hs. unfold float64_max.
  destruct skip as [z| | |]; simpl; try done.
  intros Hz. destruct (Z.ltb_spec z s); [lia|done].
Qed.

Lemma dp_b_value_nonneg (s : Z) (k : Z) (prev : list float64) (w : Z)
    (x : float64) :
  Forall float64_nonneg prev → dp_b_value s self k prev w = Ok x →
  float64_nonneg x.
Proof.
  intros Hprev. unfold dp_b_value.
  destruct (getitem prev w) as [skip|] eqn:Hskip; simpl; [|done].
  apply getitem_elem_of in Hskip.
  pose proof (proj1 (Forall_forall _ _) Hprev _ Hskip) as Hnn.
  destruct (getitem (weights self) (k - 1)) as [wk|]; simpl; [|done].
  destruct (wk <=? w).
  - destruct (getitem (values self) (k - 1)) as [v|]; simpl; [|done].
    destruct (getitem prev (w - wk)) as [cell|]; simpl; [|done].
    destruct (float64_radd v cell) as [t|]; simpl; [|done].
    intros [= <-]. by apply float64_max_nonneg.
  - simpl. intros [= <-]. by apply float64_max_nonneg.
Qed.

Lemma dp_b_value_sentinel (k : Z) (prev : list float64) (w : Z) :
  Forall float64_nonneg prev →
  dp_b_value s1 self k prev w = dp_b_value s2 self k prev w.
Proof.
  intros Hprev. unfold dp_b_value.
  destruct (getitem prev w) as [skip|] eqn:Hskip; simpl; [|done].
  apply getitem_elem_of in Hskip.
  pose proof (proj1 (Forall_forall _ _) Hprev _ Hskip) as Hnn.
  destruct (getitem (weights self) (k - 1)) as [wk|]; simpl; [|done].
  destruct (wk <=? w); [done|]. simpl.
  by rewrite !float64_max_sentinel.
Qed.

Lemma dp_b_with_sentinel :
  0 ≤ n self → dp_b_with s1 self = dp_b_with s2 self.
Proof.
  intros Hn. destruct (Z.le_gt_cases (-1) (capacity self)) as [Hcap|Hcap].
  - rewrite !dp_b_with_sweep by done. f_equal.
    apply (sweep_ext (Forall float64_nonneg)).
    + intros k prev Hprev. unfold dp_b_row.
      apply mapM_ext_in. intros w _. by apply dp_b_value_sentinel.
    + intros k prev row Hprev. unfold dp_b_row.
      apply mapM_Ok_Forall. intros w x _. by apply dp_b_value_nonneg.
    + by apply Forall_replicate.
  - unfold dp_b_with, np_full.
    destruct (n self + 1 <? 0); [done|].
    destruct (Z.ltb_spec (capacity self + 1) 0); [done|lia].
Qed.

End Sentinel.

(** ** Rows of the grids: the values they hold *)

Lemma getitem_fmap_seqZ {A : Type} (h : Z → A) (m c : Z) :
  0 ≤ c < m → getitem (h <$> seqZ 0 m) c = Ok (h c).
Proof.
  intros Hc. apply getitem_lookup; [lia|].
  rewrite list_lookup_fmap, lookup_seqZ_lt by lia. simpl.
  f_equal. f_equal. lia.
Qed.

Lemma replicate_fmap_seqZ {A : Type} (x : A) (m : Z) :
  replicate (Z.to_nat m) x = (λ _, x) <$> seqZ 0 m.
Proof.
  unfold seqZ. rewrite <- list_fmap_compose.
  generalize 0%nat. induction (Z.to_nat m) as [|k IH]; intros j; simpl; [done|].
  f_equal. apply IH.
Qed.

Lemma elem_of_seqZ_0 (m c : Z) : c ∈ seqZ 0 m → 0 ≤ c < m.
Proof. intros H. apply elem_of_seqZ in H. lia. Qed.

Lemma wrap64_small (x : Z) : int64_min ≤ x ≤ int64_max → wrap64 x = x.
Proof.
  unfold int64_min, int64_max, wrap64. intros Hx.
  rewrite Z.mod_small by lia. lia.
Qed.

Lemma rne53_exact (x : Z) : 0 ≤ x ≤ 2 ^ 53 → rne53 x = x.
Proof.
  intros Hx. unfold rne53.
  destruct (Z.ltb_spec x (2 ^ 53)); [done|].
  assert (x = 2 ^ 53) as -> by lia. by vm_compute.
Qed.

Lemma round64_exact (x : Z) : 0 ≤ x ≤ 2 ^ 53 → round64 x = Fin x.
Proof.
  intros Hx. unfold round64.
  rewrite Z.abs_eq, rne53_exact by lia.
  assert (2 ^ 53 < 2 ^ 1024) by (by vm_compute).
  destruct (Z.leb_spec (2 ^ 1024) x); [lia|].
  f_equal. destruct (Z.eq_dec x 0) as [->|]; [done|].
  rewrite Z.sgn_pos by lia. lia.
Qed.

Lemma total_value_drop_S (items : list (Z * Z)) (i : nat) (w v : Z) :
  items !! i = Some (w, v) →
  total_value (drop i items) = v + total_value (drop (S i) items).
Proof. intros H. by rewrite (drop_S _ _ _ H). Qed.

Lemma total_value_drop_le (items : list (Z * Z)) (i : nat) :
  Forall (λ it, 0 ≤ it.2) items →
  total_value (drop i items) ≤ total_value items.
Proof. intros H. apply total_value_sublist; [apply sublist_drop|done]. Qed.

Lemma total_value_take_le (items : list (Z * Z)) (k : nat) :
  Forall (λ it, 0 ≤ it.2) items →
  total_value (take k items) ≤ total_value items.
Proof. intros H. apply total_value_sublist; [apply sublist_take|done]. Qed.

Lemma g_upto_le_take (items : list (Z * Z)) (k : nat) (w : Z) :
  Forall (λ it, 0 ≤ it.2) items →
  g_upto items k w ≤ total_value (take k items).
Proof.
  intros Hv. revert w. induction k as [|k IH]; intros w; simpl g_upto; [done|].
  destruct (items !! k) as [[wk v]|] eqn:Hk.
  - rewrite (take_S_r _ _ _ Hk), total_value_app. simpl.
    pose proof (Forall_lookup_1 _ _ _ _ Hv Hk) as Hv0. simpl in Hv0.
    pose proof (IH w). pose proof (IH (w - wk)).
    destruct (wk <=? w); lia.
  - apply lookup_ge_None in Hk.
    rewrite take_ge by lia. rewrite take_ge in IH by lia. apply IH.
Qed.

Section Values.

Variable sentinel : Z.
Variables ws vs : list Z.
Variable cap : Z.
Hypothesis sentinel_nonpos : sentinel ≤ 0.
Hypothesis valid : valid_instance ws vs cap.

Local Abbreviation self := (instance ws vs cap).
Local Abbreviation items := (zip ws vs).

Lemma valid_weights : Forall (λ it : Z * Z, 0 ≤ it.1) items.
Proof. apply Forall_zip_weights, valid. Qed.

Lemma valid_values : Forall (λ it : Z * Z, 0 ≤ it.2) items.
Proof. apply Forall_zip_values, valid. Qed.

Lemma valid_length : length items = length ws.
Proof. destruct valid as [Hlen _]. rewrite length_zip. lia. Qed.

Lemma valid_item (i : nat) :
  (i < length ws)%nat →
  ∃ w v, ws !! i = Some w ∧ vs !! i = Some v ∧ items !! i = Some (w, v)
         ∧ 0 ≤ w ∧ 0 ≤ v.
Proof.
  intros Hi. destruct valid as (Hlen & Hws & Hvs & _).
  destruct (lookup_lt_is_Some_2 ws i Hi) as [w Hw].
  destruct (lookup_lt_is_Some_2 vs i ltac:(lia)) as [v Hv].
  exists w, v. repeat split; [done|done|by apply lookup_zip_Some| |].
  - apply (Forall_lookup_1 _ _ _ _ Hws Hw).
  - apply (Forall_lookup_1 _ _ _ _ Hvs Hv).
Qed.

(** Row [i] of the grid of [dp_a] holds [knap] of the items from [i] on, as
    long as no sum leaves [int64]. *)
Lemma dp_a_row_knap (i : nat) :
  total_value items ≤ int64_max → (i < length ws)%nat →
  dp_a_row sentinel self (Z.of_nat i)
    (knap (drop (S i) items) <$> seqZ 0 (cap + 1))
  = Ok (knap (drop i items) <$> seqZ 0 (cap + 1)).
Proof.
  intros Hbound Hi. unfold dp_a_row. simpl capacity.
  apply mapM_Ok_fmap. intros c Hc. apply elem_of_seqZ_0 in Hc.
  destruct (valid_item i Hi) as (w & v & Hw & Hv & Hit & Hw0 & Hv0).
  unfold dp_a_value. simpl weights. simpl values.
  rewrite getitem_fmap_seqZ by lia. simpl.
  rewrite (getitem_nat _ _ _ Hw). simpl.
  rewrite (drop_S _ _ _ Hit). simpl.
  pose proof (knap_nonneg (drop (S i) items) c) as Hskip.
  destruct (Z.leb_spec w c) as [Hfit|Hfit].
  - rewrite (getitem_nat _ _ _ Hv). simpl.
    rewrite getitem_fmap_seqZ by lia. simpl.
    pose proof (knap_nonneg (drop (S i) items) (c - w)).
    pose proof (knap_le_total (drop (S i) items) (c - w)
                  (Forall_drop _ _ _ valid_values)).
    pose proof (total_value_drop_S _ _ _ _ Hit).
    pose proof (total_value_drop_le items i valid_values).
    unfold int64_radd.
    assert (Hmin : int64_min ≤ 0) by (by vm_compute).
    replace ((int64_min <=? v) && (v <=? int64_max)) with true
      by (symmetry; apply andb_true_iff; lia).
    simpl. rewrite wrap64_small by lia. done.
  - simpl. by rewrite Z.max_l by lia.
Qed.

Lemma sweep_down_knap (m : nat) :
  total_value items ≤ int64_max → (m ≤ length ws)%nat →
  sweep (dp_a_row sentinel self) (reverse (seqZ 0 (Z.of_nat m)))
    (knap (drop m items) <$> seqZ 0 (cap + 1))
  = Ok (knap items <$> seqZ 0 (cap + 1)).
Proof.
  intros Hbound. induction m as [|m IH]; intros Hm; [done|].
  rewrite seqZ_S, reverse_snoc. cbn [sweep]. rewrite Z.add_0_l.
  rewrite dp_a_row_knap by (done || lia). rewrite bind_Ok. apply IH. lia.
Qed.

Lemma dp_a_with_knap :
  total_value items ≤ int64_max →
  dp_a_with sentinel self = Ok (knap items cap).
Proof.
  intros Hbound. destruct valid as (Hlen & _ & _ & Hcap).
  rewrite dp_a_with_sweep by (simpl; lia). simpl n. simpl capacity.
  rewrite replicate_fmap_seqZ.
  pose proof (sweep_down_knap (length ws) Hbound ltac:(lia)) as Hsweep.
  rewrite drop_ge in Hsweep by (rewrite valid_length; lia).
  simpl in Hsweep. rewrite Hsweep. simpl.
  by rewrite getitem_fmap_seqZ by lia.
Qed.

(** Row [k] of the grid of [dp_b] holds [g] of the first [k] items, as long
    as every sum is below [2^53] and so is a [float64] exactly. *)
Lemma dp_b_row_g (k : nat) :
  total_value items ≤ 2 ^ 53 → (k < length ws)%nat →
  dp_b_row sentinel self (Z.of_nat (S k))
    ((λ w, Fin (g_upto items k w)) <$> seqZ 0 (cap + 1))
  = Ok ((λ w, Fin (g_upto items (S k) w)) <$> seqZ 0 (cap + 1)).
Proof.
  intros Hbound Hk. unfold dp_b_row. simpl capacity.
  apply mapM_Ok_fmap. intros w Hw. apply elem_of_seqZ_0 in Hw.
  destruct (valid_item k Hk) as (wk & v & Hwk & Hv & Hit & Hw0 & Hv0).
  unfold dp_b_value. simpl weights. simpl values.
  replace (Z.of_nat (S k) - 1) with (Z.of_nat k) by lia.
  rewrite (getitem_fmap_seqZ (λ w, Fin (g_upto items k w))) by lia. simpl.
  rewrite (getitem_nat _ _ _ Hwk). simpl. rewrite Hit.
  pose proof (g_upto_nonneg items k w) as Hskip.
  destruct (Z.leb_spec wk w) as [Hfit|Hfit].
  - rewrite (getitem_nat _ _ _ Hv). simpl.
    rewrite (getitem_fmap_seqZ (λ w, Fin (g_upto items k w))) by lia. simpl.
    pose proof (g_upto_nonneg items k (w - wk)).
    pose proof (g_upto_le_take items k (w - wk) valid_values).
    pose proof (total_value_take_le items (S k) valid_values) as Htake.
    rewrite (take_S_r _ _ _ Hit), total_value_app in Htake. simpl in Htake.
    pose proof (total_value_nonneg (take k items)
                  (Forall_take _ _ _ valid_values)).
    unfold float64_radd, float_of_int.
    rewrite round64_exact by lia. simpl.
    rewrite round64_exact by lia.
    unfold float64_max. simpl.
    destruct (Z.ltb_spec (g_upto items k w) (v + g_upto items k (w - wk)));
      f_equal; f_equal; lia.
  - simpl. by rewrite float64_max_sentinel.
Qed.

Lemma sweep_up_g (m k0 : nat) :
  total_value items ≤ 2 ^ 53 → (k0 + m ≤ length ws)%nat →
  sweep (dp_b_row sentinel self) (seqZ (Z.of_nat k0 + 1) (Z.of_nat m))
    ((λ w, Fin (g_upto items k0 w)) <$> seqZ 0 (cap + 1))
  = Ok ((λ w, Fin (g_upto items (k0 + m) w)) <$> seqZ 0 (cap + 1)).
Proof.
  intros Hbound. revert k0. induction m as [|m IH]; intros k0 Hm.
  - simpl. by rewrite Nat.add_0_r.
  - rewrite seqZ_cons by lia. cbn [sweep].
    replace (Z.of_nat k0 + 1) with (Z.of_nat (S k0)) by lia.
    rewrite dp_b_row_g by (done || lia). rewrite bind_Ok.
    replace (Z.succ (Z.of_nat (S k0))) with (Z.of_nat (S k0) + 1) by lia.
    replace (Z.pred (Z.of_nat (S m))) with (Z.of_nat m) by lia.
    replace (k0 + S m)%nat with (S k0 + m)%nat by lia.
    apply IH. lia.
Qed.

Lemma dp_b_with_g :
  total_value items ≤ 2 ^ 53 →
  dp_b_with sentinel self = Ok (g ws vs (Z.of_nat (length ws)) cap).
Proof.
  intros Hbound. destruct valid as (Hlen & _ & _ & Hcap).
  rewrite dp_b_with_sweep by (simpl; lia). simpl n. simpl capacity.
  rewrite replicate_fmap_seqZ.
  pose proof (sweep_up_g (length ws) 0 Hbound ltac:(lia)) as Hsweep.
  change (Z.of_nat 0 + 1) with 1 in Hsweep.
  change (0 + length ws)%nat with (length ws) in Hsweep.
  cbn [g_upto] in Hsweep. rewrite Hsweep, bind_Ok.
  rewrite (getitem_fmap_seqZ (λ w, Fin (g_upto items (length ws) w))) by lia.
  simpl. unfold g. by rewrite Nat2Z.id.
Qed.

End Values.

(** ** Rounding to [float64] is monotone *)

(** Rounding to the nearest multiple of [2 * h], ties to the even multiple,
    as [rne53] does it above [2^53]. *)
Lemma nearest_mono (h x y : Z) :
  0 < h → 0 ≤ x ≤ y →
  let rn := λ x,
    let q := x / (2 * h) in
    let r := x - q * (2 * h) in
    (if r <? h then q else if h <? r then q + 1
     else if Z.even q then q else q + 1) * (2 * h) in
  rn x ≤ rn y ∧ x / (2 * h) * (2 * h) ≤ rn x ≤ (x / (2 * h) + 1) * (2 * h).
Proof.
  intros Hh Hxy rn. unfold rn.
  pose proof (Z.div_le_mono x y (2 * h) ltac:(lia) ltac:(lia)) as Hq.
  pose proof (Z.mul_div_le x (2 * h) ltac:(lia)).
  pose proof (Z.mul_div_le y (2 * h) ltac:(lia)).
  pose proof (Z.mul_succ_div_gt x (2 * h) ltac:(lia)).
  pose proof (Z.mul_succ_div_gt y (2 * h) ltac:(lia)).
  set (qx := x / (2 * h)) in *. set (qy := y / (2 * h)) in *.
  split.
  - destruct (Z.eq_dec qx qy) as [Heq|Hne].
    + rewrite <- Heq.
      destruct (Z.ltb_spec (x - qx * (2 * h)) h),
        (Z.ltb_spec (y - qx * (2 * h)) h); try nia;
      destruct (Z.ltb_spec h (x - qx * (2 * h))),
        (Z.ltb_spec h (y - qx * (2 * h))); try nia;
      destruct (Z.even qx); nia.
    + assert (qx + 1 ≤ qy) by lia.
      transitivity ((qx + 1) * (2 * h)).
      * destruct (x - qx * (2 * h) <? h); [nia|].
        destruct (h <? x - qx * (2 * h)); [nia|].
        destruct (Z.even qx); nia.
      * transitivity (qy * (2 * h)); [nia|].
        destruct (y - qy * (2 * h) <? h); [nia|].
        destruct (h <? y - qy * (2 * h)); [nia|].
        destruct (Z.even qy); nia.
  - destruct (x - qx * (2 * h) <? h); [nia|].
    destruct (h <? x - qx * (2 * h)); [nia|].
    destruct (Z.even qx); nia.
Qed.

Lemma rne53_grid (x : Z) :
  2 ^ 53 ≤ x →
  let e := Z.log2 x - 52 in
  1 ≤ e ∧ 2 ^ e = 2 * 2 ^ (e - 1) ∧ 0 < 2 ^ (e - 1)
  ∧ 2 ^ Z.log2 x = 2 ^ 52 * 2 ^ e
  ∧ rne53 x =
    (let q := x / (2 * 2 ^ (e - 1)) in
     let r := x - q * (2 * 2 ^ (e - 1)) in
     (if r <? 2 ^ (e - 1) then q else if 2 ^ (e - 1) <? r then q + 1
      else if Z.even q then q else q + 1) * (2 * 2 ^ (e - 1))).
Proof.
  intros Hx e.
  assert (H53 : 0 < 2 ^ 53) by (by vm_compute).
  assert (Hlog : 53 ≤ Z.log2 x).
  { change 53 with (Z.log2 (2 ^ 53)). by apply Z.log2_le_mono. }
  assert (He : 1 ≤ e) by (unfold e; lia).
  assert (Hpow : 2 ^ e = 2 * 2 ^ (e - 1)).
  { replace e with (Z.succ (e - 1)) at 1 by lia.
    rewrite Z.pow_succ_r by lia. done. }
  assert (Hpos : 0 < 2 ^ (e - 1)) by (apply Z.pow_pos_nonneg; lia).
  repeat split; [done|done|done| |].
  - rewrite <- Z.pow_add_r by lia. f_equal. unfold e. lia.
  - unfold rne53. destruct (Z.ltb_spec x (2 ^ 53)); [lia|].
    fold e. rewrite Z.shiftr_div_pow2, !Z.shiftl_mul_pow2 by lia.
    rewrite Hpow, Z.mul_1_l. done.
Qed.

Local Ltac goal_rn :=
  match goal with
  | |- _ ≤ ?rn → _ => generalize rn
  end.

Lemma rne53_bounds (x : Z) :
  2 ^ 53 ≤ x → 2 ^ Z.log2 x ≤ rne53 x ≤ 2 ^ (Z.log2 x + 1).
Proof.
  intros Hx. destruct (rne53_grid x Hx) as (He & Hpow & Hpos & Hlog & ->).
  set (e := Z.log2 x - 52) in *. set (h := 2 ^ (e - 1)) in *.
  assert (H53 : 0 < 2 ^ 53) by (by vm_compute).
  destruct (Z.log2_spec x ltac:(lia)) as [Hlo Hhi].
  rewrite Z.pow_succ_r in Hhi by (apply Z.log2_nonneg).
  replace (2 ^ (Z.log2 x + 1)) with (2 * 2 ^ Z.log2 x)
    by (rewrite Z.pow_add_r by (pose proof (Z.log2_nonneg x); lia); lia).
  destruct (nearest_mono h x x Hpos ltac:(lia)) as [_ [Hge Hle]].
  cbv zeta in Hge, Hle. cbv zeta.
  change (2 ^ 52) with 4503599627370496 in *.
  clearbody h. clearbody e.
  generalize dependent (2 ^ e). intros p Hpow Hlog.
  generalize dependent (2 ^ Z.log2 x). intros l Hlo Hhi Hlog.
  assert (Hq1 : 4503599627370496 ≤ x / (2 * h)).
  { apply Z.div_le_lower_bound; lia. }
  assert (Hq2 : x / (2 * h) < 2 * 4503599627370496).
  { apply Z.div_lt_upper_bound; lia. }
  revert Hge Hle. goal_rn. intros rn Hge Hle.
  set (q := x / (2 * h)) in *. clearbody q.
  assert (4503599627370496 * (2 * h) ≤ q * (2 * h))
    by (apply Z.mul_le_mono_nonneg_r; lia).
  assert ((q + 1) * (2 * h) ≤ 2 * 4503599627370496 * (2 * h))
    by (apply Z.mul_le_mono_nonneg_r; lia).
  lia.
Qed.

Lemma rne53_mono (x y : Z) : 0 ≤ x ≤ y → rne53 x ≤ rne53 y.
Proof.
  intros Hxy.
  assert (H53 : 0 < 2 ^ 53) by (by vm_compute).
  destruct (Z.lt_ge_cases y (2 ^ 53)) as [Hy|Hy].
  { unfold rne53. destruct (Z.ltb_spec x (2 ^ 53)), (Z.ltb_spec y (2 ^ 53));
      lia. }
  pose proof (rne53_bounds y Hy) as [Hylo _].
  destruct (Z.log2_spec y ltac:(lia)) as [Hy1 Hy2].
  assert (Hlogy : 53 ≤ Z.log2 y).
  { change 53 with (Z.log2 (2 ^ 53)). by apply Z.log2_le_mono. }
  destruct (Z.lt_ge_cases x (2 ^ 53)) as [Hx|Hx].
  { unfold rne53 at 1. destruct (Z.ltb_spec x (2 ^ 53)); [|lia].
    pose proof (Z.pow_le_mono_r 2 53 (Z.log2 y) ltac:(lia) Hlogy). lia. }
  pose proof (rne53_bounds x Hx) as [_ Hxhi].
  pose proof (Z.log2_le_mono x y ltac:(lia)) as Hlog.
  destruct (Z.eq_dec (Z.log2 x) (Z.log2 y)) as [Heq|Hne].
  - destruct (rne53_grid x Hx) as (_ & _ & Hpos & _ & ->).
    destruct (rne53_grid y Hy) as (_ & _ & _ & _ & ->).
    rewrite <- Heq.
    apply (nearest_mono (2 ^ (Z.log2 x - 52 - 1)) x y Hpos Hxy).
  - pose proof (Z.pow_le_mono_r 2 (Z.log2 x + 1) (Z.log2 y) ltac:(lia)
                  ltac:(lia)). lia.
Qed.

Lemma rne53_nonneg (x : Z) : 0 ≤ x → 0 ≤ rne53 x.
Proof.
  intros Hx. pose proof (rne53_mono 0 x ltac:(lia)) as H.
  by change (rne53 0) with 0 in H.
Qed.

Lemma round64_nonneg (x : Z) : 0 ≤ x → float64_nonneg (round64 x).
Proof.
  intros Hx. unfold round64. rewrite Z.abs_eq by done.
  pose proof (rne53_nonneg x Hx).
  destruct (Z.leb_spec (2 ^ 1024) (rne53 x)) as [Hbig|Hbig].
  - destruct (Z.ltb_spec 0 x); [done|].
    assert (x = 0) as -> by lia. by vm_compute in Hbig.
  - simpl. destruct (Z.eq_dec x 0) as [->|]; [done|].
    rewrite Z.sgn_pos by lia. lia.
Qed.

Lemma round64_mono (x y : Z) :
  0 ≤ x ≤ y → float64_le (round64 x) (round64 y).
Proof.
  intros Hxy. unfold round64. rewrite !Z.abs_eq by lia.
  pose proof (rne53_mono x y Hxy) as Hmono.
  pose proof (rne53_nonneg x ltac:(lia)) as Hx0.
  assert (Hbig : 0 < 2 ^ 1024) by (by vm_compute).
  assert (Hsgn : ∀ z, 0 ≤ z → 0 ≤ rne53 z → 0 ≤ Z.sgn z * rne53 z
                       ∧ (0 < z → Z.sgn z * rne53 z = rne53 z)).
  { intros z Hz Hr. destruct (Z.eq_dec z 0) as [->|]; [by vm_compute|].
    rewrite Z.sgn_pos by lia. lia. }
  destruct (Z.leb_spec (2 ^ 1024) (rne53 x)) as [Hix|Hix].
  - destruct (Z.leb_spec (2 ^ 1024) (rne53 y)); [|lia].
    destruct (Z.ltb_spec 0 x).
    + destruct (Z.ltb_spec 0 y); [done|lia].
    + assert (x = 0) as -> by lia. by vm_compute in Hix.
  - destruct (Z.leb_spec (2 ^ 1024) (rne53 y)) as [Hiy|Hiy].
    + destruct (Z.ltb_spec 0 y) as [Hy|Hy]; simpl.
      * apply Hsgn; lia.
      * assert (y = 0) as -> by lia. by vm_compute in Hiy.
    + simpl. destruct (Z.eq_dec x 0) as [->|Hx].
      * change (Z.sgn 0 * rne53 0) with 0. split; [done|].
        apply Hsgn; [lia|]. apply rne53_nonneg. lia.
      * rewrite !Z.sgn_pos by lia. lia.
Qed.

Lemma float64_add_mono (a b1 b2 : float64) :
  float64_nonneg a → float64_le b1 b2 →
  float64_le (float64_add a b1) (float64_add a b2).
Proof.
  destruct a as [x| | |], b1 as [y1| | |], b2 as [y2| | |]; simpl; try done.
  - intros Hx Hy. apply round64_mono. lia.
  - intros Hx Hy. pose proof (round64_nonneg (x + y1) ltac:(lia)) as Hnn.
    destruct (round64 (x + y1)); simpl in *; done.
Qed.

Lemma float64_max_mono (s1 s2 t1 t2 : float64) :
  float64_le s1 s2 → float64_le t1 t2 →
  float64_le (float64_max s1 t1) (float64_max s2 t2).
Proof.
  unfold float64_max.
  destruct s1 as [x1| | |], s2 as [x2| | |], t1 as [y1| | |], t2 as [y2| | |];
    simpl; try done;
    repeat match goal with
           | |- context [?a <? ?b] => destruct (Z.ltb_spec a b)
           end; simpl; lia.
Qed.

Lemma float64_max_ge (skip take : float64) :
  float64_nonneg skip → float64_le skip (float64_max skip take).
Proof.
  unfold float64_max.
  destruct skip as [x| | |], take as [y| | |]; simpl; try done;
    try lia.
  destruct (Z.ltb_spec x y); simpl; lia.
Qed.

Lemma float64_le_trans (a b c : float64) :
  float64_le a b → float64_le b c → float64_le a c.
Proof. destruct a, b, c; simpl; lia. Qed.

Lemma g_float_nonneg (items : list (Z * Z)) (k : nat) (w : Z) :
  float64_nonneg (g_float items k w).
Proof.
  revert w. induction k as [|k IH]; intros w; simpl; [done|].
  destruct (items !! k) as [[wk v]|]; [|done].
  destruct (wk <=? w); [|done]. by apply float64_max_nonneg.
Qed.

(** The grid of [dp_b] is monotone along each row, rounding or not. *)
Lemma g_float_mono (items : list (Z * Z)) (k : nat) (w1 w2 : Z) :
  Forall (λ it, 0 ≤ it.2) items → w1 ≤ w2 →
  float64_le (g_float items k w1) (g_float items k w2).
Proof.
  intros Hvs. revert w1 w2. induction k as [|k IH]; intros w1 w2 Hw; simpl;
    [done|].
  pose proof (IH w1 w2 Hw) as Hskip.
  destruct (items !! k) as [[wk v]|] eqn:Hk; [|done].
  pose proof (Forall_lookup_1 _ _ _ _ Hvs Hk) as Hv. simpl in Hv.
  pose proof (round64_nonneg v Hv) as Hrv.
  destruct (Z.leb_spec wk w1), (Z.leb_spec wk w2); try lia.
  - apply float64_max_mono; [done|].
    apply float64_add_mono; [done|]. apply IH. lia.
  - eapply float64_le_trans; [apply Hskip|].
    apply float64_max_ge, g_float_nonneg.
  - done.
Qed.

Lemma mapM_Ok_inv_fmap {A B : Type} (h : A → result B) (k : A → B)
    (xs : list A) (ys : list B) :
  (∀ x y, x ∈ xs → h x = Ok y → y = k x) → mapM h xs = Ok ys →
  ys = k <$> xs.
Proof.
  revert ys. induction xs as [|x xs IH]; intros ys Hk; simpl.
  - by intros [= <-].
  - destruct (h x) as [y|] eqn:Hy; simpl; [|done].
    destruct (mapM h xs) as [ys'|] eqn:Hys; simpl; [|done].
    intros [= <-]. f_equal.
    + apply Hk; [left|done].
    + apply IH; [|done]. intros x' y' Hx'. apply Hk. by right.
Qed.

Section Float_grid.

Variable sentinel : Z.
Variables ws vs : list Z.
Variable cap : Z.
Hypothesis sentinel_nonpos : sentinel ≤ 0.
Hypothesis valid : valid_instance ws vs cap.

Local Abbreviation self := (instance ws vs cap).
Local Abbreviation items := (zip ws vs).

(** Whatever [dp_b] stores in row [k + 1] is [g_float] there. *)
Lemma dp_b_value_g_float (k : nat) (w : Z) (x : float64) :
  (k < length ws)%nat → 0 ≤ w < cap + 1 →
  dp_b_value sentinel self (Z.of_nat (S k))
    (g_float items k <$> seqZ 0 (cap + 1)) w = Ok x →
  x = g_float items (S k) w.
Proof.
  intros Hk Hw.
  destruct (valid_item ws vs cap valid k Hk)
    as (wk & v & Hwk & Hv & Hit & Hw0 & Hv0).
  unfold dp_b_value. simpl weights. simpl values.
  replace (Z.of_nat (S k) - 1) with (Z.of_nat k) by lia.
  rewrite getitem_fmap_seqZ by lia. rewrite bind_Ok.
  rewrite (getitem_nat _ _ _ Hwk), bind_Ok. cbn [g_float]. rewrite Hit.
  destruct (Z.leb_spec wk w) as [Hfit|Hfit].
  - rewrite (getitem_nat _ _ _ Hv), bind_Ok.
    rewrite getitem_fmap_seqZ by lia. rewrite bind_Ok.
    unfold float64_radd, float_of_int.
    destruct (round64 v) as [m| | |]; simpl; [|done..].
    by intros [= <-].
  - simpl. intros [= <-].
    apply float64_max_sentinel; [done|apply g_float_nonneg].
Qed.

Lemma sweep_up_g_float (m k0 : nat) (row : list float64) :
  (k0 + m ≤ length ws)%nat →
  sweep (dp_b_row sentinel self) (seqZ (Z.of_nat k0 + 1) (Z.of_nat m))
    (g_float items k0 <$> seqZ 0 (cap + 1)) = Ok row →
  row = g_float items (k0 + m) <$> seqZ 0 (cap + 1).
Proof.
  revert k0. induction m as [|m IH]; intros k0 Hm.
  - simpl. rewrite Nat.add_0_r. by intros [= <-].
  - rewrite seqZ_cons by lia. cbn [sweep].
    replace (Z.of_nat k0 + 1) with (Z.of_nat (S k0)) by lia.
    destruct (dp_b_row sentinel self (Z.of_nat (S k0)) _) as [row1|] eqn:Hrow;
      simpl; [|done].
    apply (mapM_Ok_inv_fmap _ (g_float items (S k0))) in Hrow.
    2:{ intros w x Hw. apply elem_of_seqZ_0 in Hw.
        apply dp_b_value_g_float; (done || lia). }
    subst row1.
    replace (Z.succ (Z.of_nat (S k0))) with (Z.of_nat (S k0) + 1) by lia.
    replace (Z.pred (Z.of_nat (S m))) with (Z.of_nat m) by lia.
    replace (k0 + S m)%nat with (S k0 + m)%nat by lia.
    apply IH. lia.
Qed.

(** What [dp_b] returns is the corner of that grid. *)
Lemma dp_b_with_g_float (r : Z) :
  dp_b_with sentinel self = Ok r →
  g_float items (length ws) cap = Fin r.
Proof.
  destruct valid as (Hlen & _ & _ & Hcap).
  rewrite dp_b_with_sweep by (simpl; lia). simpl n. simpl capacity.
  rewrite (replicate_fmap_seqZ (Fin 0)).
  destruct (sweep _ _ _) as [row|] eqn:Hsweep; simpl; [|done].
  apply (sweep_up_g_float (length ws) 0) in Hsweep; [|lia].
  subst row. rewrite getitem_fmap_seqZ by lia. simpl.
  destruct (g_float items (length ws) cap); simpl; [|done..].
  by intros [= ->].
Qed.

End Float_grid.

(** [dp_b] never returns less for more capacity. *)
Lemma dp_b_mono (ws vs : list Z) (c1 c2 r1 r2 : Z) :
  valid_instance ws vs c1 → c1 ≤ c2 →
  dp_b (instance ws vs c1) = Ok r1 → dp_b (instance ws vs c2) = Ok r2 →
  r1 ≤ r2.
Proof.
  intros Hv1 Hc H1 H2.
  assert (Hv2 : valid_instance ws vs c2).
  { destruct Hv1 as (? & ? & ? & ?). repeat split; (done || lia). }
  assert (Hs : SENTINEL ≤ 0) by (by vm_compute).
  apply (dp_b_with_g_float SENTINEL ws vs c1 Hs Hv1) in H1.
  apply (dp_b_with_g_float SENTINEL ws vs c2 Hs Hv2) in H2.
  pose proof (g_float_mono (zip ws vs) (length ws) c1 c2
                (valid_values ws vs c1 Hv1) Hc) as Hmono.
  rewrite H1, H2 in Hmono. simpl in Hmono. lia.
Qed.

(** ** Outside the validated domain: negative capacity *)

Lemma sweep_empty_rows {A : Type} (rowf : Z → list A → result (list A))
    (xs : list Z) :
  (∀ x, rowf x [] = Ok []) → sweep rowf xs [] = Ok [].
Proof.
  intros Hrow. induction xs as [|x xs IH]; simpl; [done|].
  by rewrite Hrow.
Qed.

Lemma dfs_b_dfs_negative (self : KnapsackSolver) (fuel : nat) :
  n self = Z.of_nat (length (weights self)) →
  Forall (λ w, 0 ≤ w) (weights self) →
  ∀ k w memo,
    w < 0 → 0 ≤ k ≤ n self → (Z.to_nat k < fuel)%nat →
    (∀ key r, memo !! key = Some r → r = 0) →
    ∃ memo', dfs_b_dfs SENTINEL self fuel k w memo = Ok (0, memo')
             ∧ (∀ key r, memo' !! key = Some r → r = 0).
Proof.
  intros Hn Hws. induction fuel as [|fuel IH]; intros k w memo Hw Hk Hfuel Hmemo;
    [lia|].
  simpl. destruct (Z.eqb_spec k 0) as [->|Hk0].
  { by exists memo. }
  destruct (memo !! (k, w)) as [r|] eqn:Hlook.
  { exists memo. by rewrite (Hmemo _ _ Hlook). }
  destruct (IH (k - 1) w memo) as (memo1 & -> & Hmemo1); [lia|lia|lia|done|].
  simpl.
  destruct (lookup_lt_is_Some_2 (weights self) (Z.to_nat (k - 1)))
    as [wk Hwk]; [lia|].
  rewrite (getitem_lookup (weights self) (k - 1) wk) by (done || lia). simpl.
  pose proof (Forall_lookup_1 _ _ _ _ Hws Hwk) as Hwk0. simpl in Hwk0.
  destruct (Z.leb_spec wk w); [lia|]. simpl.
  rewrite lookup_insert_eq. eexists. split; [done|].
  intros key r. rewrite lookup_insert. case_decide; [|apply Hmemo1].
  by intros [= <-].
Qed.

(** C10: with a negative capacity and non-negative weights the two
    recursive methods return 0, while the two iterative methods raise: at
    capacity -1 the grid has no column and reading [dp[..][capacity]] is an
    [IndexError]; below -1 building the grid is a [ValueError]. *)
Theorem negative_capacity_splits_the_methods (ws vs : list Z) (cap : Z) :
  cap < 0 → Forall (λ w, 0 ≤ w) ws →
  dfs_a (instance ws vs cap) = Ok 0
  ∧ dfs_b (instance ws vs cap) = Ok 0
  ∧ dp_a (instance ws vs cap)
    = Raise (if decide (cap = -1) then IndexError
             else ValueError NegativeDimensions)
  ∧ dp_b (instance ws vs cap)
    = Raise (if decide (cap = -1) then IndexError
             else ValueError NegativeDimensions).
Proof.
  intros Hcap Hws. split; [|split; [|split]].
  - unfold dfs_a, dfs_a_with. simpl.
    destruct (Z.of_nat (length ws) <=? 0); simpl;
      destruct (Z.leb_spec cap 0); (done || lia).
  - unfold dfs_b, dfs_b_with.
    destruct (dfs_b_dfs_negative (instance ws vs cap)
                (S (Z.to_nat (n (instance ws vs cap)))) eq_refl Hws
                (n (instance ws vs cap)) (capacity (instance ws vs cap)) ∅)
      as (memo' & -> & _); simpl; (done || lia).
  - case_decide as Hc.
    + unfold dp_a. rewrite dp_a_with_sweep by (simpl; lia).
      subst cap. simpl. rewrite sweep_empty_rows; done.
    + unfold dp_a, dp_a_with, np_full. simpl.
      destruct (Z.of_nat (length ws) + 1 <? 0); [done|].
      destruct (Z.ltb_spec (cap + 1) 0); [done|lia].
  - case_decide as Hc.
    + unfold dp_b. rewrite dp_b_with_sweep by (simpl; lia).
      subst cap. simpl. rewrite sweep_empty_rows; done.
    + unfold dp_b, dp_b_with, np_full. simpl.
      destruct (Z.of_nat (length ws) + 1 <? 0); [done|].
      destruct (Z.ltb_spec (cap + 1) 0); [done|lia].
Qed.

Lemma negative_capacity_splits_the_methods_witness :
  dfs_a (instance [2; 3] [4; 5] (-1)) = Ok 0
  ∧ dfs_b (instance [2; 3] [4; 5] (-1)) = Ok 0
  ∧ dp_a (instance [2; 3] [4; 5] (-1)) = Raise IndexError
  ∧ dp_b (instance [2; 3] [4; 5] (-1)) = Raise IndexError.
Proof.
  apply (negative_capacity_splits_the_methods [2; 3] [4; 5] (-1)).
  - lia.
  - repeat constructor; lia.
Defined.

(** ** Construction *)

(** C5 fails on the code: [__init__] accepts sequences of different
    lengths, and the object it builds reaches the solvers; here [dfs_a]
    runs until it needs the missing value. *)
Lemma init_accepts_mismatched_lengths :
  length [1; 2] ≠ length [3]
  ∧ ∃ self, __init__ [1; 2] [3] 5 = Ok self
            ∧ dfs_a self = Raise IndexError
            ∧ dfs_b self = Raise IndexError.
Proof.
  split; [done|]. eexists. split; [reflexivity|]. by vm_compute.
Qed.

(** C5, amended: construction never fails; whatever the lengths, it yields
    the object that holds the three arguments and [n = len(weights)]. *)
Theorem init_always_succeeds (ws vs : list Z) (cap : Z) :
  __init__ ws vs cap
  = Ok {| weights := ws; values := vs; capacity := cap;
          n := Z.of_nat (length ws) |}.
Proof. reflexivity. Qed.

(** ** Calls in sequence *)

Lemma st_bind_unfold {A B : Type} (m : st A) (k : A → st B) (w : world) :
  (m ≫= k) w =
  match m w with
  | (Ok a, w') => k a w'
  | (Raise e, w') => (Raise e, w')
  end.
Proof. reflexivity. Qed.

Lemma st_bind_Ok {A B : Type} (m : st A) (k : A → st B) (w w' : world) a :
  m w = (Ok a, w') → (m ≫= k) w = k a w'.
Proof. intros H. rewrite st_bind_unfold, H. done. Qed.

Lemma st_bind_Raise {A B : Type} (m : st A) (k : A → st B) (w w' : world) e :
  m w = (Raise e, w') → (m ≫= k) w = (Raise e, w').
Proof. intros H. rewrite st_bind_unfold, H. done. Qed.

Lemma bind_Raise {A B : Type} (h : A → result B) (e : exn) :
  Raise e ≫= h = Raise e.
Proof. reflexivity. Qed.

Lemma extends_refl (w : world) : extends w w.
Proof. by repeat split. Qed.

Lemma extends_trans (w1 w2 w3 : world) :
  extends w1 w2 → extends w2 w3 → extends w1 w3.
Proof.
  intros (Hs & Hd & Hi & Hf) (Hs' & Hd' & Hi' & Hf'). repeat split.
  - congruence.
  - by etrans.
  - by etrans.
  - by etrans.
Qed.

Lemma prefix_insert_ge {A : Type} (xs ys : list A) (l : nat) (y : A) :
  xs `prefix_of` ys → (length xs ≤ l)%nat → xs `prefix_of` <[l := y]> ys.
Proof.
  intros [k ->] Hl. rewrite insert_app_r_alt by done. by eexists.
Qed.

Lemma put_dict_extends (w0 w : world) (l : nat) m :
  extends w0 w → (length (w_dicts w0) ≤ l)%nat → extends w0 (put_dict l m w).
Proof.
  intros (Hs & Hd & Hi & Hf) Hl. repeat split; try done.
  by apply prefix_insert_ge.
Qed.

Lemma put_ints_extends (w0 w : world) (l : nat) dp :
  extends w0 w → (length (w_ints w0) ≤ l)%nat → extends w0 (put_ints l dp w).
Proof.
  intros (Hs & Hd & Hi & Hf) Hl. repeat split; try done.
  by apply prefix_insert_ge.
Qed.

Lemma put_floats_extends (w0 w : world) (l : nat) dp :
  extends w0 w → (length (w_floats w0) ≤ l)%nat →
  extends w0 (put_floats l dp w).
Proof.
  intros (Hs & Hd & Hi & Hf) Hl. repeat split; try done.
  by apply prefix_insert_ge.
Qed.

Local Ltac st_step :=
  rewrite ?st_bind_unfold;
  cbn [self_n self_weights self_values self_capacity lift dict_get dict_set
       ints_get floats_get mret st_ret];
  cbv beta iota;
  change (w_self (put_dict ?l ?m ?w)) with (w_self w);
  change (w_self (put_ints ?l ?m ?w)) with (w_self w);
  change (w_self (put_floats ?l ?m ?w)) with (w_self w).

(** *** The dictionaries *)

Lemma the_dict_put (l : nat) m (w : world) :
  (l < length (w_dicts w))%nat → the_dict l (put_dict l m w) = m.
Proof.
  intros Hl. unfold the_dict, put_dict. simpl.
  by rewrite list_lookup_insert_eq.
Qed.

Lemma put_dict_put (l : nat) m m' (w : world) :
  put_dict l m (put_dict l m' w) = put_dict l m w.
Proof. unfold put_dict. simpl. by rewrite list_insert_insert_eq. Qed.

Lemma put_dict_the_dict (l : nat) (w : world) :
  (l < length (w_dicts w))%nat → put_dict l (the_dict l w) w = w.
Proof.
  intros Hl. destruct w as [o ds ia fa]. unfold put_dict, the_dict. simpl in *.
  destruct (lookup_lt_is_Some_2 ds l Hl) as [m Hm]. rewrite Hm. simpl.
  by rewrite list_insert_id.
Qed.

Lemma put_dict_length (l : nat) m (w : world) :
  length (w_dicts (put_dict l m w)) = length (w_dicts w).
Proof. unfold put_dict. simpl. by rewrite length_insert. Qed.

(** The inner function of [dfs_a] on the store does to the dictionary
    [memo] what [dfs_a_dfs] does to the memo it threads, and nothing else. *)
Lemma dfs_a_st_sim (fuel : nat) : ∀ (l : nat) (i c : Z) (w : world),
  (l < length (w_dicts w))%nat →
  match dfs_a_dfs SENTINEL (w_self w) fuel i c (the_dict l w) with
  | Ok (r, memo) => dfs_a_st fuel l i c w = (Ok r, put_dict l memo w)
  | Raise e => ∃ memo, dfs_a_st fuel l i c w = (Raise e, put_dict l memo w)
  end.
Proof.
  induction fuel as [|fuel IH]; intros l i c w Hl.
  { simpl. exists (the_dict l w). by rewrite put_dict_the_dict. }
  cbn [dfs_a_dfs dfs_a_st]. st_step.
  destruct ((n (w_self w) <=? i) || (c <=? 0)) eqn:Hbase.
  { st_step. by rewrite put_dict_the_dict. }
  st_step.
  destruct (the_dict l w !! (i, c)) as [r|] eqn:Hhit.
  { st_step. by rewrite put_dict_the_dict. }
  st_step.
  specialize (IH l (i + 1) c w Hl) as IH1.
  destruct (dfs_a_dfs SENTINEL (w_self w) fuel (i + 1) c (the_dict l w))
    as [[skip memo1]|e]; [|destruct IH1 as [m ->]; by exists m].
  rewrite IH1. rewrite bind_Ok. st_step. st_step.
  destruct (getitem (weights (w_self w)) i) as [wi|e] eqn:Hwi;
    [|by exists memo1].
  rewrite bind_Ok. st_step.
  destruct (wi <=? c) eqn:Hfit.
  - st_step. st_step.
    destruct (getitem (values (w_self w)) i) as [v|e] eqn:Hv;
      [|rewrite !bind_Raise; by exists memo1].
    rewrite bind_Ok. st_step. st_step. rewrite Hwi. st_step.
    assert (Hl1 : (l < length (w_dicts (put_dict l memo1 w)))%nat)
      by by rewrite put_dict_length.
    specialize (IH l (i + 1) (c - wi) (put_dict l memo1 w) Hl1) as IH2.
    rewrite the_dict_put in IH2 by done.
    change (w_self (put_dict l memo1 w)) with (w_self w) in IH2.
    destruct (dfs_a_dfs SENTINEL (w_self w) fuel (i + 1) (c - wi) memo1)
      as [[r memo2]|e].
    2:{ destruct IH2 as [m ->]. exists m. by rewrite put_dict_put. }
    rewrite IH2. rewrite put_dict_put. rewrite !bind_Ok. st_step. st_step.
    st_step. rewrite put_dict_put.
    rewrite !the_dict_put by (done || by rewrite put_dict_length).
    destruct (<[(i, c):=Z.max skip (v + r)]> memo2 !! (i, c)); st_step;
      [done|by eexists].
  - st_step. rewrite bind_Ok. st_step. st_step. rewrite put_dict_put.
    rewrite !the_dict_put by (done || by rewrite put_dict_length).
    destruct (<[(i, c):=Z.max skip SENTINEL]> memo1 !! (i, c)); st_step;
      [done|by eexists].
Qed.

(** Likewise for [dfs_b]. *)
Lemma dfs_b_st_sim (fuel : nat) : ∀ (l : nat) (k c : Z) (w : world),
  (l < length (w_dicts w))%nat →
  match dfs_b_dfs SENTINEL (w_self w) fuel k c (the_dict l w) with
  | Ok (r, memo) => dfs_b_st fuel l k c w = (Ok r, put_dict l memo w)
  | Raise e => ∃ memo, dfs_b_st fuel l k c w = (Raise e, put_dict l memo w)
  end.
Proof.
  induction fuel as [|fuel IH]; intros l k c w Hl.
  { simpl. exists (the_dict l w). by rewrite put_dict_the_dict. }
  cbn [dfs_b_dfs dfs_b_st].
  destruct (k =? 0) eqn:Hbase.
  { st_step. by rewrite put_dict_the_dict. }
  st_step.
  destruct (the_dict l w !! (k, c)) as [r|] eqn:Hhit.
  { st_step. by rewrite put_dict_the_dict. }
  st_step.
  specialize (IH l (k - 1) c w Hl) as IH1.
  destruct (dfs_b_dfs SENTINEL (w_self w) fuel (k - 1) c (the_dict l w))
    as [[skip memo1]|e]; [|destruct IH1 as [m ->]; by exists m].
  rewrite IH1. rewrite bind_Ok. st_step. st_step.
  destruct (getitem (weights (w_self w)) (k - 1)) as [wk|e] eqn:Hwk;
    [|by exists memo1].
  rewrite bind_Ok. st_step.
  destruct (wk <=? c) eqn:Hfit.
  - st_step. st_step.
    destruct (getitem (values (w_self w)) (k - 1)) as [v|e] eqn:Hv;
      [|rewrite !bind_Raise; by exists memo1].
    rewrite bind_Ok. st_step. st_step. rewrite Hwk. st_step.
    assert (Hl1 : (l < length (w_dicts (put_dict l memo1 w)))%nat)
      by by rewrite put_dict_length.
    specialize (IH l (k - 1) (c - wk) (put_dict l memo1 w) Hl1) as IH2.
    rewrite the_dict_put in IH2 by done.
    change (w_self (put_dict l memo1 w)) with (w_self w) in IH2.
    destruct (dfs_b_dfs SENTINEL (w_self w) fuel (k - 1) (c - wk) memo1)
      as [[r memo2]|e].
    2:{ destruct IH2 as [m ->]. exists m. by rewrite put_dict_put. }
    rewrite IH2. rewrite put_dict_put. rewrite !bind_Ok. st_step. st_step.
    st_step. rewrite put_dict_put.
    rewrite !the_dict_put by (done || by rewrite put_dict_length).
    destruct (<[(k, c):=Z.max skip (v + r)]> memo2 !! (k, c)); st_step;
      [done|by eexists].
  - st_step. rewrite bind_Ok. st_step. st_step. rewrite put_dict_put.
    rewrite !the_dict_put by (done || by rewrite put_dict_length).
    destruct (<[(k, c):=Z.max skip SENTINEL]> memo1 !! (k, c)); st_step;
      [done|by eexists].
Qed.

Lemma the_dict_new (w : world) :
  the_dict (length (w_dicts w))
    (mkWorld (w_self w) (w_dicts w ++ [∅]) (w_ints w) (w_floats w)) = ∅.
Proof.
  unfold the_dict. simpl. by rewrite lookup_app_r, Nat.sub_diag by lia.
Qed.

Lemma new_dict_extends (w : world) :
  extends w (mkWorld (w_self w) (w_dicts w ++ [∅]) (w_ints w) (w_floats w)).
Proof. repeat split; try done. by apply prefix_app_r. Qed.

(** A call of [dfs_a] returns what the method returns on the object as the
    call finds it, and leaves the object and the older dictionaries and
    arrays as they are. *)
Lemma dfs_a_body_spec (w : world) :
  ∃ w', dfs_a_body w = (dfs_a (w_self w), w') ∧ extends w w'.
Proof.
  unfold dfs_a_body, dfs_a, dfs_a_with. rewrite st_bind_unfold.
  cbn [new_dict]. cbv beta iota.
  set (w1 := mkWorld _ _ _ _). st_step. st_step.
  change (w_self w1) with (w_self w).
  assert (Hl : (length (w_dicts w) < length (w_dicts w1))%nat).
  { unfold w1. simpl. rewrite length_app. simpl. lia. }
  pose proof (dfs_a_st_sim (S (Z.to_nat (n (w_self w)))) (length (w_dicts w))
                0 (capacity (w_self w)) w1 Hl) as Hsim.
  unfold w1 in Hsim at 2. rewrite the_dict_new in Hsim.
  change (w_self w1) with (w_self w) in Hsim.
  destruct (dfs_a_dfs SENTINEL (w_self w) _ 0 _ ∅) as [[r memo]|e].
  - rewrite Hsim. eexists. split; [done|].
    apply put_dict_extends; [apply new_dict_extends|done].
  - destruct Hsim as [memo ->]. eexists. split; [done|].
    apply put_dict_extends; [apply new_dict_extends|done].
Qed.

Lemma dfs_b_body_spec (w : world) :
  ∃ w', dfs_b_body w = (dfs_b (w_self w), w') ∧ extends w w'.
Proof.
  unfold dfs_b_body, dfs_b, dfs_b_with. rewrite st_bind_unfold.
  cbn [new_dict]. cbv beta iota.
  set (w1 := mkWorld _ _ _ _). st_step. st_step.
  change (w_self w1) with (w_self w).
  assert (Hl : (length (w_dicts w) < length (w_dicts w1))%nat).
  { unfold w1. simpl. rewrite length_app. simpl. lia. }
  pose proof (dfs_b_st_sim (S (Z.to_nat (n (w_self w)))) (length (w_dicts w))
                (n (w_self w)) (capacity (w_self w)) w1 Hl) as Hsim.
  unfold w1 in Hsim at 2. rewrite the_dict_new in Hsim.
  change (w_self w1) with (w_self w) in Hsim.
  destruct (dfs_b_dfs SENTINEL (w_self w) _ _ _ ∅) as [[r memo]|e].
  - rewrite Hsim. eexists. split; [done|].
    apply put_dict_extends; [apply new_dict_extends|done].
  - destruct Hsim as [memo ->]. eexists. split; [done|].
    apply put_dict_extends; [apply new_dict_extends|done].
Qed.

(** *** The arrays *)

(** A loop on the store does to one part of it (a dictionary, an array) what
    the loop with that part threaded does, when its body does. *)
Section Loop.
Context {T : Type} (get : world → T) (put : T → world → world).
Context (I : world → Prop).
Hypothesis put_put : ∀ s s' w, put s (put s' w) = put s w.
Hypothesis get_put : ∀ s w, I w → get (put s w) = s.
Hypothesis put_get : ∀ w, I w → put (get w) w = w.
Hypothesis I_put : ∀ s w, I w → I (put s w).

Lemma for_each_st_sim {A : Type} (xs : list A)
    (body_st : A → st ()) (body : A → T → result T) :
  (∀ x w, I w →
     match body x (get w) with
     | Ok s => body_st x w = (Ok (), put s w)
     | Raise e => ∃ s, body_st x w = (Raise e, put s w)
     end) →
  ∀ w, I w →
    match for_each xs body (get w) with
    | Ok s => for_each_st xs body_st w = (Ok (), put s w)
    | Raise e => ∃ s, for_each_st xs body_st w = (Raise e, put s w)
    end.
Proof.
  intros Hbody. induction xs as [|x xs IH]; intros w Hw.
  { simpl. unfold mret, st_ret. by rewrite put_get. }
  cbn [for_each for_each_st]. rewrite st_bind_unfold.
  specialize (Hbody x w Hw).
  destruct (body x (get w)) as [s|e].
  - rewrite Hbody, bind_Ok.
    specialize (IH (put s w) (I_put s w Hw)). rewrite get_put in IH by done.
    destruct (for_each xs body s) as [s'|e].
    + by rewrite IH, put_put.
    + destruct IH as [s' ->]. exists s'. by rewrite put_put.
  - destruct Hbody as [s ->]. by exists s.
Qed.

End Loop.

Lemma the_ints_put (l : nat) dp (w : world) :
  (l < length (w_ints w))%nat → the_ints l (put_ints l dp w) = dp.
Proof.
  intros Hl. unfold the_ints, put_ints. simpl.
  by rewrite list_lookup_insert_eq.
Qed.

Lemma put_ints_put (l : nat) dp dp' (w : world) :
  put_ints l dp (put_ints l dp' w) = put_ints l dp w.
Proof. unfold put_ints. simpl. by rewrite list_insert_insert_eq. Qed.

Lemma put_ints_the_ints (l : nat) (w : world) :
  (l < length (w_ints w))%nat → put_ints l (the_ints l w) w = w.
Proof.
  intros Hl. destruct w as [o ds ia fa]. unfold put_ints, the_ints. simpl in *.
  destruct (lookup_lt_is_Some_2 ia l Hl) as [m Hm]. rewrite Hm. simpl.
  by rewrite list_insert_id.
Qed.

Lemma put_ints_length (l : nat) dp (w : world) :
  length (w_ints (put_ints l dp w)) = length (w_ints w).
Proof. unfold put_ints. simpl. by rewrite length_insert. Qed.

Lemma the_floats_put (l : nat) dp (w : world) :
  (l < length (w_floats w))%nat → the_floats l (put_floats l dp w) = dp.
Proof.
  intros Hl. unfold the_floats, put_floats. simpl.
  by rewrite list_lookup_insert_eq.
Qed.

Lemma put_floats_put (l : nat) dp dp' (w : world) :
  put_floats l dp (put_floats l dp' w) = put_floats l dp w.
Proof. unfold put_floats. simpl. by rewrite list_insert_insert_eq. Qed.

Lemma put_floats_the_floats (l : nat) (w : world) :
  (l < length (w_floats w))%nat → put_floats l (the_floats l w) w = w.
Proof.
  intros Hl. destruct w as [o ds ia fa].
  unfold put_floats, the_floats. simpl in *.
  destruct (lookup_lt_is_Some_2 fa l Hl) as [m Hm]. rewrite Hm. simpl.
  by rewrite list_insert_id.
Qed.

Lemma put_floats_length (l : nat) dp (w : world) :
  length (w_floats (put_floats l dp w)) = length (w_floats w).
Proof. unfold put_floats. simpl. by rewrite length_insert. Qed.

(** The statements of the inner loop of [dp_a] do to the array what
    [dp_a_cell] does to the grid it threads. *)
Lemma dp_a_cell_st_sim (l : nat) (i c : Z) (w : world) :
  (l < length (w_ints w))%nat →
  match dp_a_cell SENTINEL (w_self w) i c (the_ints l w) with
  | Ok dp => dp_a_cell_st l i c w = (Ok (), put_ints l dp w)
  | Raise e => ∃ dp, dp_a_cell_st l i c w = (Raise e, put_ints l dp w)
  end.
Proof.
  intros Hl. unfold dp_a_cell, dp_a_cell_st.
  assert (Hid : put_ints l (the_ints l w) w = w) by by apply put_ints_the_ints.
  st_step.
  destruct (getitem (the_ints l w) (i + 1)) as [row|e] eqn:Hrow;
    [|rewrite !bind_Raise; exists (the_ints l w); by rewrite Hid].
  rewrite !bind_Ok.
  destruct (getitem row c) as [skip|e] eqn:Hskip;
    [|rewrite ?bind_Raise; exists (the_ints l w); by rewrite Hid].
  rewrite !bind_Ok. st_step. st_step.
  destruct (getitem (weights (w_self w)) i) as [wi|e] eqn:Hwi;
    [|rewrite ?bind_Raise; exists (the_ints l w); by rewrite Hid].
  rewrite !bind_Ok. st_step.
  destruct (wi <=? c) eqn:Hfit.
  - st_step. st_step.
    destruct (getitem (values (w_self w)) i) as [v|e] eqn:Hv;
      [|rewrite ?bind_Raise; exists (the_ints l w); by rewrite Hid].
    rewrite !bind_Ok. st_step. st_step. rewrite Hwi. st_step. st_step.
    rewrite Hrow, bind_Ok.
    destruct (getitem row (c - wi)) as [cell|e] eqn:Hcell;
      [|rewrite ?bind_Raise; exists (the_ints l w); by rewrite Hid].
    rewrite !bind_Ok. st_step.
    destruct (int64_radd v cell) as [take|e] eqn:Htake;
      [|rewrite ?bind_Raise; exists (the_ints l w); by rewrite Hid].
    rewrite bind_Ok. unfold ints_set.
    destruct (setitem2 _ _ _ _) as [dp|e]; [done|].
    exists (the_ints l w). by rewrite Hid.
  - st_step. rewrite bind_Ok. unfold ints_set.
    destruct (setitem2 _ _ _ _) as [dp|e]; [done|].
    exists (the_ints l w). by rewrite Hid.
Qed.

Lemma dp_b_cell_st_sim (l : nat) (k c : Z) (w : world) :
  (l < length (w_floats w))%nat →
  match dp_b_cell SENTINEL (w_self w) k c (the_floats l w) with
  | Ok dp => dp_b_cell_st l k c w = (Ok (), put_floats l dp w)
  | Raise e => ∃ dp, dp_b_cell_st l k c w = (Raise e, put_floats l dp w)
  end.
Proof.
  intros Hl. unfold dp_b_cell, dp_b_cell_st.
  assert (Hid : put_floats l (the_floats l w) w = w)
    by by apply put_floats_the_floats.
  st_step.
  destruct (getitem (the_floats l w) (k - 1)) as [row|e] eqn:Hrow;
    [|rewrite !bind_Raise; exists (the_floats l w); by rewrite Hid].
  rewrite !bind_Ok.
  destruct (getitem row c) as [skip|e] eqn:Hskip;
    [|rewrite ?bind_Raise; exists (the_floats l w); by rewrite Hid].
  rewrite !bind_Ok. st_step. st_step.
  destruct (getitem (weights (w_self w)) (k - 1)) as [wk|e] eqn:Hwk;
    [|rewrite ?bind_Raise; exists (the_floats l w); by rewrite Hid].
  rewrite !bind_Ok. st_step.
  destruct (wk <=? c) eqn:Hfit.
  - st_step. st_step.
    destruct (getitem (values (w_self w)) (k - 1)) as [v|e] eqn:Hv;
      [|rewrite ?bind_Raise; exists (the_floats l w); by rewrite Hid].
    rewrite !bind_Ok. st_step. st_step. rewrite Hwk. st_step. st_step.
    rewrite Hrow, bind_Ok.
    destruct (getitem row (c - wk)) as [cell|e] eqn:Hcell;
      [|rewrite ?bind_Raise; exists (the_floats l w); by rewrite Hid].
    rewrite !bind_Ok. st_step.
    destruct (float64_radd v cell) as [take|e] eqn:Htake;
      [|rewrite ?bind_Raise; exists (the_floats l w); by rewrite Hid].
    rewrite bind_Ok. unfold floats_set.
    destruct (setitem2 _ _ _ _) as [dp|e]; [done|].
    exists (the_floats l w). by rewrite Hid.
  - st_step. rewrite bind_Ok. unfold floats_set.
    destruct (setitem2 _ _ _ _) as [dp|e]; [done|].
    exists (the_floats l w). by rewrite Hid.
Qed.

Lemma dp_a_loops_sim (l : nat) (self : KnapsackSolver) (xs : list Z)
    (w : world) :
  w_self w = self → (l < length (w_ints w))%nat →
  match for_each xs
          (λ i, for_each (seqZ 0 (capacity self + 1))
                  (dp_a_cell SENTINEL self i)) (the_ints l w) with
  | Ok dp =>
    for_each_st xs
      (λ i, cap ← self_capacity;
            for_each_st (seqZ 0 (cap + 1)) (dp_a_cell_st l i)) w
    = (Ok (), put_ints l dp w)
  | Raise e =>
    ∃ dp, for_each_st xs
            (λ i, cap ← self_capacity;
                  for_each_st (seqZ 0 (cap + 1)) (dp_a_cell_st l i)) w
          = (Raise e, put_ints l dp w)
  end.
Proof.
  intros Hs Hl.
  apply (for_each_st_sim (the_ints l) (put_ints l)
           (λ w, w_self w = self ∧ (l < length (w_ints w))%nat)); try done.
  - intros. apply put_ints_put.
  - intros s w' [_ ?]. by apply the_ints_put.
  - intros w' [_ ?]. by apply put_ints_the_ints.
  - intros s w' [? ?]. split; [done|]. by rewrite put_ints_length.
  - intros i w' [Hs' Hl']. rewrite st_bind_unfold. cbn [self_capacity].
    rewrite Hs'.
    apply (for_each_st_sim (the_ints l) (put_ints l)
             (λ w, w_self w = self ∧ (l < length (w_ints w))%nat)); try done.
    + intros. apply put_ints_put.
    + intros s w'' [_ ?]. by apply the_ints_put.
    + intros w'' [_ ?]. by apply put_ints_the_ints.
    + intros s w'' [? ?]. split; [done|]. by rewrite put_ints_length.
    + intros c w'' [Hs'' Hl'']. rewrite <- Hs''. by apply dp_a_cell_st_sim.
Qed.

Lemma dp_b_loops_sim (l : nat) (self : KnapsackSolver) (xs : list Z)
    (w : world) :
  w_self w = self → (l < length (w_floats w))%nat →
  match for_each xs
          (λ k, for_each (seqZ 0 (capacity self + 1))
                  (dp_b_cell SENTINEL self k)) (the_floats l w) with
  | Ok dp =>
    for_each_st xs
      (λ k, cap ← self_capacity;
            for_each_st (seqZ 0 (cap + 1)) (dp_b_cell_st l k)) w
    = (Ok (), put_floats l dp w)
  | Raise e =>
    ∃ dp, for_each_st xs
            (λ k, cap ← self_capacity;
                  for_each_st (seqZ 0 (cap + 1)) (dp_b_cell_st l k)) w
          = (Raise e, put_floats l dp w)
  end.
Proof.
  intros Hs Hl.
  apply (for_each_st_sim (the_floats l) (put_floats l)
           (λ w, w_self w = self ∧ (l < length (w_floats w))%nat)); try done.
  - intros. apply put_floats_put.
  - intros s w' [_ ?]. by apply the_floats_put.
  - intros w' [_ ?]. by apply put_floats_the_floats.
  - intros s w' [? ?]. split; [done|]. by rewrite put_floats_length.
  - intros k w' [Hs' Hl']. rewrite st_bind_unfold. cbn [self_capacity].
    rewrite Hs'.
    apply (for_each_st_sim (the_floats l) (put_floats l)
             (λ w, w_self w = self ∧ (l < length (w_floats w))%nat));
      try done.
    + intros. apply put_floats_put.
    + intros s w'' [_ ?]. by apply the_floats_put.
    + intros w'' [_ ?]. by apply put_floats_the_floats.
    + intros s w'' [? ?]. split; [done|]. by rewrite put_floats_length.
    + intros c w'' [Hs'' Hl'']. rewrite <- Hs''. by apply dp_b_cell_st_sim.
Qed.

Lemma dp_a_body_spec (w : world) :
  ∃ w', dp_a_body w = (dp_a (w_self w), w') ∧ extends w w'.
Proof.
  unfold dp_a_body, dp_a, dp_a_with. st_step. st_step. st_step.
  unfold new_ints.
  destruct (np_full _ _ SENTINEL) as [dp0|e];
    [|exists w; split; [done|apply extends_refl]].
  rewrite bind_Ok. set (l := length (w_ints w)).
  set (w1 := mkWorld _ _ _ _).
  assert (Hl : (l < length (w_ints w1))%nat).
  { unfold w1, l. simpl. rewrite length_app. simpl. lia. }
  assert (H1 : extends w w1).
  { repeat split; try done. by apply prefix_app_r. }
  assert (Hdp : the_ints l w1 = dp0).
  { unfold the_ints, w1, l. simpl.
    by rewrite lookup_app_r, Nat.sub_diag by lia. }
  st_step. change (w_self w1) with (w_self w). st_step.
  unfold ints_set_row. rewrite Hdp.
  destruct (set_row dp0 _ 0) as [dp1|e];
    [|exists w1; split; [done|done]].
  rewrite bind_Ok. st_step. change (w_self w1) with (w_self w). st_step.
  assert (Hl2 : (l < length (w_ints (put_ints l dp1 w1)))%nat)
    by by rewrite put_ints_length.
  pose proof (dp_a_loops_sim l (w_self w) (reverse (seqZ 0 (n (w_self w))))
                (put_ints l dp1 w1) eq_refl Hl2) as Hsim.
  rewrite the_ints_put in Hsim by done.
  destruct (for_each _ _ dp1) as [dp2|e].
  - rewrite Hsim, put_ints_put, bind_Ok. st_step. st_step.
    change (w_self w1) with (w_self w). unfold ints_get.
    rewrite the_ints_put by done.
    eexists. split; [done|]. by apply put_ints_extends.
  - destruct Hsim as [dp2 ->]. rewrite put_ints_put, bind_Raise.
    eexists. split; [done|]. by apply put_ints_extends.
Qed.

Lemma dp_b_body_spec (w : world) :
  ∃ w', dp_b_body w = (dp_b (w_self w), w') ∧ extends w w'.
Proof.
  unfold dp_b_body, dp_b, dp_b_with. st_step. st_step. st_step.
  unfold new_floats.
  destruct (np_full _ _ (Fin 0)) as [dp0|e];
    [|exists w; split; [done|apply extends_refl]].
  rewrite bind_Ok. set (l := length (w_floats w)).
  set (w1 := mkWorld _ _ _ _).
  assert (Hl : (l < length (w_floats w1))%nat).
  { unfold w1, l. simpl. rewrite length_app. simpl. lia. }
  assert (H1 : extends w w1).
  { repeat split; try done. by apply prefix_app_r. }
  assert (Hdp : the_floats l w1 = dp0).
  { unfold the_floats, w1, l. simpl.
    by rewrite lookup_app_r, Nat.sub_diag by lia. }
  st_step. change (w_self w1) with (w_self w). st_step.
  pose proof (dp_b_loops_sim l (w_self w) (seqZ 1 (n (w_self w)))
                w1 eq_refl Hl) as Hsim.
  rewrite Hdp in Hsim.
  destruct (for_each _ _ dp0) as [dp2|e].
  - rewrite Hsim, bind_Ok. st_step. st_step. st_step.
    change (w_self w1) with (w_self w).
    rewrite the_floats_put by done. unfold lift.
    destruct (getitem dp2 (n (w_self w))) as [row|e];
      [|rewrite ?bind_Raise; eexists; split;
        [done|by apply put_floats_extends]].
    rewrite !bind_Ok.
    destruct (getitem row (capacity (w_self w))) as [cell|e];
      [|rewrite ?bind_Raise; eexists; split;
        [done|by apply put_floats_extends]].
    rewrite bind_Ok.
    eexists. split; [done|]. by apply put_floats_extends.
  - destruct Hsim as [dp2 ->]. rewrite bind_Raise.
    eexists. split; [done|]. by apply put_floats_extends.
Qed.

(** Any call returns what the method returns on the object as the call
    finds it, and leaves the object and everything allocated before the call
    as they are. *)
Lemma call_spec (m : method) (w : world) :
  ∃ w', call m w = (solve m (w_self w), w') ∧ extends w w'.
Proof.
  destruct m; simpl.
  - apply dfs_a_body_spec.
  - apply dp_a_body_spec.
  - apply dfs_b_body_spec.
  - apply dp_b_body_spec.
Qed.

Lemma calls_spec (ms : list method) : ∀ w : world,
  ∃ w', calls ms w = ((λ m, solve m (w_self w)) <$> ms, w') ∧ extends w w'.
Proof.
  induction ms as [|m ms IH]; intros w.
  { exists w. split; [done|apply extends_refl]. }
  cbn [calls]. destruct (call_spec m w) as (w1 & -> & H1).
  destruct (IH w1) as (w2 & -> & H2).
  exists w2. split; [|by eapply extends_trans].
  rewrite fmap_cons. destruct H1 as [-> _]. done.
Qed.

Lemma init_body_spec (ws vs : list Z) (cap : Z) (w : world) :
  ∃ w', init_body ws vs cap w = (Ok (), w')
        ∧ __init__ ws vs cap = Ok (w_self w')
        ∧ w_dicts w' = w_dicts w ∧ w_ints w' = w_ints w
        ∧ w_floats w' = w_floats w.
Proof. eexists. by repeat split. Qed.

(** C9: whatever the store holds and whatever methods are called one after
    the other on the object, each call returns what the method returns on
    the object as it was before the first call, and the calls leave the
    object (its weights, values, capacity and n) and every dictionary and
    array allocated before them as they were: the memo and the grid of a
    call are new objects of that call.  In particular the same method called
    twice returns the same result both times; and so it is on an object that
    [__init__] has just constructed. *)
Theorem calls_leave_the_instance (ms : list method) (w : world) :
  (∃ w', calls ms w = ((λ m, solve m (w_self w)) <$> ms, w') ∧ extends w w')
  ∧ (∀ m, ∃ w', calls [m; m] w
               = ([solve m (w_self w); solve m (w_self w)], w')
               ∧ extends w w')
  ∧ (∀ ws vs cap, ∃ self w1 w',
       __init__ ws vs cap = Ok self
       ∧ init_body ws vs cap w = (Ok (), w1)
       ∧ calls ms w1 = ((λ m, solve m self) <$> ms, w')
       ∧ w_self w' = self).
Proof.
  split; [apply calls_spec|]. split; [intros m; apply (calls_spec [m; m])|].
  intros ws vs cap.
  destruct (init_body_spec ws vs cap w) as (w1 & Hinit & Hself & _).
  destruct (calls_spec ms w1) as (w' & Hcalls & Hext & _).
  exists (w_self w1), w1, w'. by repeat split.
Qed.

(** ** The consistency check *)

Lemma size_four_values (a b c d : Z) :
  size (list_to_set [a; b; c; d] : gset Z) = 1%nat ↔ a = b ∧ b = c ∧ c = d.
Proof.
  split.
  - intros Hsize.
    assert (∀ x y, x ∈ [a; b; c; d] → y ∈ [a; b; c; d] → x = y) as Heq.
    { intros x y Hx Hy.
      apply (size_singleton_inv (list_to_set [a; b; c; d] : gset Z));
        [done| |]; by apply elem_of_list_to_set. }
    repeat split; apply Heq; rewrite !elem_of_cons; tauto.
  - intros (-> & -> & ->).
    assert (list_to_set [d; d; d; d] = ({[d]} : gset Z)) as ->
      by (apply set_eq; intros x;
          rewrite elem_of_list_to_set, !elem_of_cons, elem_of_nil,
            elem_of_singleton; tauto).
    apply size_singleton.
Qed.

(** C4: when the four methods return [a], [b], [c] and [d], [solve_all]
    raises its [ValueError] exactly when two of them differ, the error
    carrying all four values under their method names; when they are equal
    it returns the dictionary of the four names to the common value. *)
Theorem solve_all_checks_agreement (self : KnapsackSolver) (a b c d : Z) :
  dfs_a self = Ok a → dp_a self = Ok b → dfs_b self = Ok c →
  dp_b self = Ok d →
  let results := [("DFS_A"%string, a); ("DP_A"%string, b);
                  ("DFS_B"%string, c); ("DP_B"%string, d)] in
  (solve_all self = Raise (ValueError (InconsistentResults results))
   ↔ ¬ (a = b ∧ b = c ∧ c = d))
  ∧ ((∃ e, solve_all self = Raise e) ↔ ¬ (a = b ∧ b = c ∧ c = d))
  ∧ (a = b ∧ b = c ∧ c = d →
     solve_all self = Ok [("DFS_A"%string, a); ("DP_A"%string, a);
                          ("DFS_B"%string, a); ("DP_B"%string, a)]).
Proof.
  intros Ha Hb Hc Hd results. unfold solve_all.
  rewrite Ha, Hb, Hc, Hd, !bind_Ok. cbv zeta. fold results.
  change (results.*2) with [a; b; c; d].
  pose proof (size_four_values a b c d) as Hsize.
  destruct (decide (size (list_to_set [a; b; c; d] : gset Z) ≠ 1%nat))
    as [Hne|Hne].
  - split; [|split].
    + split; [intros _; by rewrite <- Hsize|done].
    + split; [intros _; by rewrite <- Hsize|eauto].
    + intros Heq. by apply Hsize in Heq.
  - assert (a = b ∧ b = c ∧ c = d) as Heq by (apply Hsize; by apply dec_stable).
    split; [|split].
    + split; [done|by intros Hneq].
    + split; [by intros [e He]|by intros Hneq].
    + intros _. unfold results. by destruct Heq as (-> & -> & ->).
Qed.

Lemma solve_all_checks_agreement_witness :
  solve_all (instance [2; 3; 4; 5] [3; 4; 5; 6] 8)
  = Ok [("DFS_A"%string, 10); ("DP_A"%string, 10);
        ("DFS_B"%string, 10); ("DP_B"%string, 10)].
Proof.
  apply (solve_all_checks_agreement (instance [2; 3; 4; 5] [3; 4; 5; 6] 8)
           10 10 10 10); by vm_compute.
Defined.

(** ** The scenarios of the demonstration *)

(** C7: on each of the nine scenarios every method returns the expected
    value, and the demonstration reports nine times four passes and a
    consistent result set. *)
Theorem scenarios_pass :
  length test_cases = 9%nat
  ∧ Forall (λ t, let '(ws, vs, cap, expected) := t in
                 ∀ m, solve m (instance ws vs cap) = Ok expected) test_cases
  ∧ run_test_suite
    = Ok (replicate 9 ([("DFS_A"%string, true); ("DP_A"%string, true);
                        ("DFS_B"%string, true); ("DP_B"%string, true)], true)).
Proof.
  split; [done|]. split; [|by vm_compute].
  unfold test_cases. repeat constructor; intros []; by vm_compute.
Qed.

(** ** Items of weight zero *)

(** C2 fails on the code: at capacity 0 [dfs_a] returns 0 whatever the
    items are, because its base case cuts at [c <= 0]; the three other
    methods count the weightless item, and [solve_all] reports the
    disagreement.  The same cut loses a weightless item that comes after an
    item which uses up the capacity. *)
Theorem dfs_a_drops_weightless_items :
  (∀ ws vs, dfs_a (instance ws vs 0) = Ok 0)
  ∧ valid_instance [0] [5] 0
  ∧ dp_a (instance [0] [5] 0) = Ok 5
  ∧ dfs_b (instance [0] [5] 0) = Ok 5
  ∧ dp_b (instance [0] [5] 0) = Ok 5
  ∧ solve_all (instance [0] [5] 0)
    = Raise (ValueError (InconsistentResults
               [("DFS_A"%string, 0); ("DP_A"%string, 5);
                ("DFS_B"%string, 5); ("DP_B"%string, 5)]))
  ∧ dfs_a (instance [2; 0] [3; 5] 2) = Ok 5
  ∧ dp_a (instance [2; 0] [3; 5] 2) = Ok 8.
Proof.
  split.
  - intros ws vs. unfold dfs_a, dfs_a_with. simpl.
    by destruct (Z.of_nat (length ws) <=? 0).
  - split; [|by vm_compute].
    unfold valid_instance. repeat split; (done || (repeat constructor; lia)).
Qed.

(** ** The four methods on a valid instance *)

Section Valid.

Variable sentinel : Z.
Variables ws vs : list Z.
Variable cap : Z.
Hypothesis sentinel_nonpos : sentinel ≤ 0.
Hypothesis valid : valid_instance ws vs cap.

Local Abbreviation self := (instance ws vs cap).
Local Abbreviation items := (zip ws vs).

Lemma dfs_a_valid : dfs_a_with sentinel self = Ok (f ws vs 0 cap).
Proof.
  destruct valid as (Hlen & _).
  by rewrite (dfs_a_with_f sentinel self sentinel_nonpos eq_refl Hlen).
Qed.

Lemma dfs_b_valid :
  dfs_b_with sentinel self = Ok (g ws vs (Z.of_nat (length ws)) cap).
Proof.
  destruct valid as (Hlen & _).
  by rewrite (dfs_b_with_g sentinel self sentinel_nonpos eq_refl Hlen).
Qed.

Lemma g_knap : g ws vs (Z.of_nat (length ws)) cap = knap items cap.
Proof.
  unfold g. rewrite Nat2Z.id, <- (valid_length ws vs cap valid).
  apply g_upto_knap; [by apply valid_weights with cap|apply valid].
Qed.

Lemma f_knap : Forall (λ w, 0 < w) ws → f ws vs 0 cap = knap items cap.
Proof. intros Hpos. unfold f. simpl. by apply f_from_knap, Forall_zip_pos_weights. Qed.

Lemma knap_is_optimum : is_optimum items cap (knap items cap).
Proof. apply knap_optimum; [by apply valid_weights with cap|apply valid]. Qed.

End Valid.

Lemma float_bound_int64 : 2 ^ 53 ≤ int64_max.
Proof. by vm_compute. Qed.

Lemma SENTINEL_nonpos : SENTINEL ≤ 0.
Proof. by vm_compute. Qed.

(** On a valid instance with positive weights whose values sum to at most
    [2^53], every method returns [knap] of the items. *)
Lemma methods_knap (ws vs : list Z) (cap : Z) (m : method) :
  valid_instance ws vs cap → Forall (λ w, 0 < w) ws →
  total_value (zip ws vs) ≤ 2 ^ 53 →
  solve m (instance ws vs cap) = Ok (knap (zip ws vs) cap).
Proof.
  intros Hvalid Hpos Hbound. pose proof float_bound_int64.
  pose proof SENTINEL_nonpos.
  destruct m; simpl.
  - unfold dfs_a. rewrite dfs_a_valid by done. f_equal. by apply f_knap.
  - unfold dp_a. apply dp_a_with_knap; (done || lia).
  - unfold dfs_b. rewrite dfs_b_valid by done. f_equal. by apply g_knap.
  - unfold dp_b. rewrite dp_b_with_g by done. f_equal. by apply g_knap.
Qed.

(** ** Agreement of the four methods *)

(** C1 fails on the code: the four methods do not return the same value on
    every valid instance.  The grid of [dp_b] is a [float64] array, and a
    value above [2^53] does not survive it: with one item of weight 1 and
    value [2^53 + 1] at capacity 1, [dp_b] returns [2^53] and the three
    other methods [2^53 + 1]. *)
Theorem methods_disagree_on_a_large_value :
  valid_instance [1] [2 ^ 53 + 1] 1
  ∧ dfs_a (instance [1] [2 ^ 53 + 1] 1) = Ok (2 ^ 53 + 1)
  ∧ dp_a (instance [1] [2 ^ 53 + 1] 1) = Ok (2 ^ 53 + 1)
  ∧ dfs_b (instance [1] [2 ^ 53 + 1] 1) = Ok (2 ^ 53 + 1)
  ∧ dp_b (instance [1] [2 ^ 53 + 1] 1) = Ok (2 ^ 53)
  ∧ ¬ (dfs_b (instance [1] [2 ^ 53 + 1] 1)
       = dp_b (instance [1] [2 ^ 53 + 1] 1))
  ∧ solve_all (instance [1] [2 ^ 53 + 1] 1)
    = Raise (ValueError (InconsistentResults
               [("DFS_A"%string, 2 ^ 53 + 1); ("DP_A"%string, 2 ^ 53 + 1);
                ("DFS_B"%string, 2 ^ 53 + 1); ("DP_B"%string, 2 ^ 53)])).
Proof.
  split.
  { unfold valid_instance. repeat split; (done || (repeat constructor; lia)). }
  repeat split; by vm_compute.
Qed.

(** X15: on every valid instance whose weights are all positive and
    whose values sum to at most [2^53], the four methods return the same
    value. *)
Theorem four_methods_agree (ws vs : list Z) (cap : Z) :
  valid_instance ws vs cap → Forall (λ w, 0 < w) ws →
  total_value (zip ws vs) ≤ 2 ^ 53 →
  ∃ r, dfs_a (instance ws vs cap) = Ok r
       ∧ dp_a (instance ws vs cap) = Ok r
       ∧ dfs_b (instance ws vs cap) = Ok r
       ∧ dp_b (instance ws vs cap) = Ok r.
Proof.
  intros Hvalid Hpos Hbound. exists (knap (zip ws vs) cap).
  pose proof (λ m, methods_knap ws vs cap m Hvalid Hpos Hbound) as H.
  repeat split; [apply (H DFS_A)|apply (H DP_A)|apply (H DFS_B)|apply (H DP_B)].
Qed.

Lemma four_methods_agree_witness :
  ∃ r, dfs_a (instance [3; 4; 5] [30; 50; 60] 8) = Ok r
       ∧ dp_a (instance [3; 4; 5] [30; 50; 60] 8) = Ok r
       ∧ dfs_b (instance [3; 4; 5] [30; 50; 60] 8) = Ok r
       ∧ dp_b (instance [3; 4; 5] [30; 50; 60] 8) = Ok r.
Proof.
  apply (four_methods_agree [3; 4; 5] [30; 50; 60] 8).
  - unfold valid_instance. repeat split; (done || (repeat constructor; lia)).
  - repeat constructor; lia.
  - by vm_compute.
Defined.

(** ** The sentinel of the infeasible take branch *)

(** C3 fails on the code as stated: the result of a method is not the
    maximum feasible value whatever the magnitude of the values.  With one
    item of weight 1 and value [2^53 + 1] at capacity 1, [dp_b] returns
    [2^53], which the selection of that item beats. *)
Theorem dp_b_misses_the_optimum_on_a_large_value :
  valid_instance [1] [2 ^ 53 + 1] 1
  ∧ dp_b (instance [1] [2 ^ 53 + 1] 1) = Ok (2 ^ 53)
  ∧ ¬ is_optimum (zip [1] [2 ^ 53 + 1]) 1 (2 ^ 53).
Proof.
  split.
  { unfold valid_instance. repeat split; (done || (repeat constructor; lia)). }
  split; [by vm_compute|].
  intros [_ Hub]. specialize (Hub [(1, 2 ^ 53 + 1)]).
  simpl in Hub. unfold feasible in Hub. simpl in Hub.
  specialize (Hub ltac:(split; [done|lia])). lia.
Qed.

(** X16: on every valid instance the value given to an infeasible
    take branch never reaches a result, whatever the magnitude of the item
    values: each method returns the same outcome when the sentinel [-10**9]
    is replaced by any other number that is not positive (down to [-2^53]
    for the two grids, any for the two recursions).  The result is the
    maximum value of a feasible selection for [dfs_b] always, for [dfs_a]
    when the weights are positive, for [dp_a] when the values sum to at most
    [2^63 - 1], and for [dp_b] when they sum to at most [2^53]. *)
Theorem sentinel_never_contributes (ws vs : list Z) (cap : Z) :
  valid_instance ws vs cap →
  (∀ s, s ≤ 0 →
     dfs_a_with s (instance ws vs cap) = dfs_a (instance ws vs cap)
     ∧ dfs_b_with s (instance ws vs cap) = dfs_b (instance ws vs cap))
  ∧ (∀ s, - 2 ^ 53 ≤ s ≤ 0 →
     dp_a_with s (instance ws vs cap) = dp_a (instance ws vs cap)
     ∧ dp_b_with s (instance ws vs cap) = dp_b (instance ws vs cap))
  ∧ (∃ r, dfs_b (instance ws vs cap) = Ok r ∧ is_optimum (zip ws vs) cap r)
  ∧ (Forall (λ w, 0 < w) ws →
     ∃ r, dfs_a (instance ws vs cap) = Ok r ∧ is_optimum (zip ws vs) cap r)
  ∧ (total_value (zip ws vs) ≤ int64_max →
     ∃ r, dp_a (instance ws vs cap) = Ok r ∧ is_optimum (zip ws vs) cap r)
  ∧ (total_value (zip ws vs) ≤ 2 ^ 53 →
     ∃ r, dp_b (instance ws vs cap) = Ok r ∧ is_optimum (zip ws vs) cap r).
Proof.
  intros Hvalid. pose proof SENTINEL_nonpos as Hs0.
  pose proof (knap_is_optimum ws vs cap Hvalid) as Hopt.
  split; [|split; [|split; [|split; [|split]]]].
  - intros s Hs. unfold dfs_a, dfs_b.
    by rewrite !dfs_a_valid, !dfs_b_valid.
  - intros s Hs. unfold dp_a, dp_b. split.
    + apply dp_a_with_sentinel; simpl; lia.
    + apply dp_b_with_sentinel; simpl; lia.
  - exists (knap (zip ws vs) cap). split; [|done].
    unfold dfs_b. rewrite dfs_b_valid by done. f_equal. by apply g_knap.
  - intros Hpos. exists (knap (zip ws vs) cap). split; [|done].
    unfold dfs_a. rewrite dfs_a_valid by done. f_equal. by apply f_knap.
  - intros Hbound. exists (knap (zip ws vs) cap). split; [|done].
    unfold dp_a. by apply dp_a_with_knap.
  - intros Hbound. exists (knap (zip ws vs) cap). split; [|done].
    unfold dp_b. rewrite dp_b_with_g by done. f_equal. by apply g_knap.
Qed.

Lemma sentinel_never_contributes_witness :
  dfs_a_with (- 10 ^ 100) (instance [2; 4; 6] [100; 1000; 10000] 6)
  = dfs_a (instance [2; 4; 6] [100; 1000; 10000] 6)
  ∧ dp_b_with (- 1) (instance [2; 4; 6] [100; 1000; 10000] 6)
    = dp_b (instance [2; 4; 6] [100; 1000; 10000] 6)
  ∧ ∃ r, dp_a (instance [2; 4; 6] [100; 1000; 10000] 6) = Ok r
         ∧ is_optimum (zip [2; 4; 6] [100; 1000; 10000]) 6 r.
Proof.
  assert (Hvalid : valid_instance [2; 4; 6] [100; 1000; 10000] 6).
  { unfold valid_instance. repeat split; (done || (repeat constructor; lia)). }
  destruct (sentinel_never_contributes [2; 4; 6] [100; 1000; 10000] 6 Hvalid)
    as (Hrec & Hgrid & _ & _ & Hopt & _).
  split; [apply (Hrec (- 10 ^ 100)); lia|].
  split; [apply (Hgrid (- 1)); lia|].
  apply Hopt. by vm_compute.
Defined.

(** ** The recurrence of [dfs_a] *)



(** ** Monotonicity in the capacity *)

(** C8 fails on the code: the result of [dp_a] is not monotone in the
    capacity.  Its grid is an [int64] array, and when the sum of two values
    leaves [int64] it wraps to a negative number and loses the maximum.
    With weights 1 and 2 and values [2^62 + 1] and [2^62], capacity 2 returns
    [2^62 + 1] and capacity 3 returns [2^62], where [dfs_a] returns the sum
    of both values. *)
Theorem dp_a_decreases_with_capacity :
  valid_instance [1; 2] [2 ^ 62 + 1; 2 ^ 62] 2
  ∧ valid_instance [1; 2] [2 ^ 62 + 1; 2 ^ 62] 3
  ∧ dp_a (instance [1; 2] [2 ^ 62 + 1; 2 ^ 62] 2) = Ok (2 ^ 62 + 1)
  ∧ dp_a (instance [1; 2] [2 ^ 62 + 1; 2 ^ 62] 3) = Ok (2 ^ 62)
  ∧ ¬ (2 ^ 62 + 1 ≤ 2 ^ 62)
  ∧ dfs_a (instance [1; 2] [2 ^ 62 + 1; 2 ^ 62] 3) = Ok (2 ^ 63 + 1).
Proof.
  split; [|split].
  1, 2: unfold valid_instance; repeat split;
    (done || (repeat constructor; lia)).
  split; [by vm_compute|]. split; [by vm_compute|]. split; [lia|].
  by vm_compute.
Qed.

(** X17: for capacities [c1 <= c2] on the same valid weights and
    values, [dfs_a] and [dfs_b] return at [c1] at most what they return at
    [c2]; so does [dp_a] when the values sum to at most [2^63 - 1]; and
    whenever [dp_b] returns at both capacities, as it does when the values
    sum to at most [2^53], it returns at [c1] at most what it returns at
    [c2]. *)
Theorem capacity_monotone (ws vs : list Z) (c1 c2 : Z) :
  valid_instance ws vs c1 → c1 ≤ c2 →
  (∃ r1 r2, dfs_a (instance ws vs c1) = Ok r1
            ∧ dfs_a (instance ws vs c2) = Ok r2 ∧ r1 ≤ r2)
  ∧ (∃ r1 r2, dfs_b (instance ws vs c1) = Ok r1
              ∧ dfs_b (instance ws vs c2) = Ok r2 ∧ r1 ≤ r2)
  ∧ (total_value (zip ws vs) ≤ int64_max →
     ∃ r1 r2, dp_a (instance ws vs c1) = Ok r1
              ∧ dp_a (instance ws vs c2) = Ok r2 ∧ r1 ≤ r2)
  ∧ (∀ r1 r2, dp_b (instance ws vs c1) = Ok r1 →
              dp_b (instance ws vs c2) = Ok r2 → r1 ≤ r2)
  ∧ (total_value (zip ws vs) ≤ 2 ^ 53 →
     ∃ r1 r2, dp_b (instance ws vs c1) = Ok r1
              ∧ dp_b (instance ws vs c2) = Ok r2).
Proof.
  intros Hv1 Hc. pose proof SENTINEL_nonpos as Hs0.
  assert (Hv2 : valid_instance ws vs c2).
  { destruct Hv1 as (? & ? & ? & ?). repeat split; (done || lia). }
  split; [|split; [|split; [|split]]].
  - exists (f ws vs 0 c1), (f ws vs 0 c2). unfold dfs_a.
    rewrite !dfs_a_valid by done. repeat split. by apply f_from_mono.
  - exists (g ws vs (Z.of_nat (length ws)) c1),
      (g ws vs (Z.of_nat (length ws)) c2). unfold dfs_b.
    rewrite !dfs_b_valid by done. repeat split. by apply g_upto_mono.
  - intros Hbound. exists (knap (zip ws vs) c1), (knap (zip ws vs) c2).
    unfold dp_a. rewrite !dp_a_with_knap by done.
    repeat split. by apply knap_mono.
  - intros r1 r2. by apply dp_b_mono.
  - intros Hbound. exists (g ws vs (Z.of_nat (length ws)) c1),
      (g ws vs (Z.of_nat (length ws)) c2). unfold dp_b.
    by rewrite !dp_b_with_g by done.
Qed.

Lemma capacity_monotone_witness :
  ∃ r1 r2, dp_a (instance [2; 3; 4; 5] [3; 4; 5; 6] 5) = Ok r1
           ∧ dp_a (instance [2; 3; 4; 5] [3; 4; 5; 6] 8) = Ok r2 ∧ r1 ≤ r2.
Proof.
  apply (capacity_monotone [2; 3; 4; 5] [3; 4; 5; 6] 5 8).
  - unfold valid_instance. repeat split; (done || (repeat constructor; lia)).
  - lia.
  - by vm_compute.
Defined.

(** * Further properties of the solvers *)

(** ** No method returns a negative value *)

Lemma sweep_preserves {A : Type} (P : list A → Prop)
    (rowf : Z → list A → result (list A)) (xs : list Z) (prev row : list A) :
  (∀ x prev row, P prev → rowf x prev = Ok row → P row) →
  P prev → sweep rowf xs prev = Ok row → P row.
Proof.
  intros Hpres. revert prev.
  induction xs as [|x xs IH]; intros prev HP; simpl.
  - by intros [= <-].
  - destruct (rowf x prev) as [row1|] eqn:Hrow; simpl; [|done].
    apply IH. by eapply Hpres.
Qed.

Lemma dfs_a_dfs_nonneg (s : Z) (self : KnapsackSolver) (fuel : nat) :
  ∀ i c memo r memo',
    (∀ key v, memo !! key = Some v → 0 ≤ v) →
    dfs_a_dfs s self fuel i c memo = Ok (r, memo') →
    0 ≤ r ∧ (∀ key v, memo' !! key = Some v → 0 ≤ v).
Proof.
  induction fuel as [|fuel IH]; intros i c memo r memo' Hmemo; [done|].
  simpl. destruct ((n self <=? i) || (c <=? 0)).
  { by intros [= <- <-]. }
  destruct (memo !! (i, c)) as [r0|] eqn:Hlook.
  { intros [= <- <-]. split; [by eapply Hmemo|done]. }
  destruct (dfs_a_dfs s self fuel (i + 1) c memo) as [[skip memo1]|] eqn:Hskip;
    simpl; [|done].
  destruct (IH _ _ _ _ _ Hmemo Hskip) as [Hskip0 Hmemo1].
  destruct (getitem (weights self) i) as [w|]; simpl; [|done].
  assert (Hins : ∀ take (memo2 : gmap (Z * Z) Z),
             (∀ key v, memo2 !! key = Some v → 0 ≤ v) →
             ∀ key v, <[(i, c) := Z.max skip take]> memo2 !! key = Some v →
                      0 ≤ v).
  { intros take memo2 Hmemo2 key v. rewrite lookup_insert.
    case_decide; [|apply Hmemo2]. intros [= <-]. lia. }
  destruct (w <=? c).
  - destruct (getitem (values self) i) as [v|]; simpl; [|done].
    destruct (dfs_a_dfs s self fuel (i + 1) (c - w) memo1)
      as [[r1 memo2]|] eqn:Htake; simpl; [|done].
    destruct (IH _ _ _ _ _ Hmemo1 Htake) as [_ Hmemo2].
    rewrite lookup_insert_eq. intros [= <- <-]. split; [lia|by apply Hins].
  - simpl. rewrite lookup_insert_eq. intros [= <- <-].
    split; [lia|by apply Hins].
Qed.

Lemma dfs_b_dfs_nonneg (s : Z) (self : KnapsackSolver) (fuel : nat) :
  ∀ k w memo r memo',
    (∀ key v, memo !! key = Some v → 0 ≤ v) →
    dfs_b_dfs s self fuel k w memo = Ok (r, memo') →
    0 ≤ r ∧ (∀ key v, memo' !! key = Some v → 0 ≤ v).
Proof.
  induction fuel as [|fuel IH]; intros k w memo r memo' Hmemo; [done|].
  simpl. destruct (k =? 0).
  { by intros [= <- <-]. }
  destruct (memo !! (k, w)) as [r0|] eqn:Hlook.
  { intros [= <- <-]. split; [by eapply Hmemo|done]. }
  destruct (dfs_b_dfs s self fuel (k - 1) w memo) as [[skip memo1]|] eqn:Hskip;
    simpl; [|done].
  destruct (IH _ _ _ _ _ Hmemo Hskip) as [Hskip0 Hmemo1].
  destruct (getitem (weights self) (k - 1)) as [wk|]; simpl; [|done].
  assert (Hins : ∀ take (memo2 : gmap (Z * Z) Z),
             (∀ key v, memo2 !! key = Some v → 0 ≤ v) →
             ∀ key v, <[(k, w) := Z.max skip take]> memo2 !! key = Some v →
                      0 ≤ v).
  { intros take memo2 Hmemo2 key v. rewrite lookup_insert.
    case_decide; [|apply Hmemo2]. intros [= <-]. lia. }
  destruct (wk <=? w).
  - destruct (getitem (values self) (k - 1)) as [v|]; simpl; [|done].
    destruct (dfs_b_dfs s self fuel (k - 1) (w - wk) memo1)
      as [[r1 memo2]|] eqn:Htake; simpl; [|done].
    destruct (IH _ _ _ _ _ Hmemo1 Htake) as [_ Hmemo2].
    rewrite lookup_insert_eq. intros [= <- <-]. split; [lia|by apply Hins].
  - simpl. rewrite lookup_insert_eq. intros [= <- <-].
    split; [lia|by apply Hins].
Qed.

Lemma dp_a_with_nonneg (s : Z) (self : KnapsackSolver) (r : Z) :
  0 ≤ n self → dp_a_with s self = Ok r → 0 ≤ r.
Proof.
  intros Hn. destruct (Z.le_gt_cases (-1) (capacity self)) as [Hcap|Hcap].
  - rewrite dp_a_with_sweep by done.
    destruct (sweep _ _ _) as [row|] eqn:Hsweep; simpl; [|done].
    intros Hget. apply getitem_elem_of in Hget.
    apply (sweep_preserves (Forall (λ y, 0 ≤ y))) in Hsweep.
    + by apply (proj1 (Forall_forall _ _) Hsweep).
    + intros i prev row' Hprev. unfold dp_a_row.
      apply mapM_Ok_Forall. intros c x _. by apply dp_a_value_nonneg.
    + by apply Forall_replicate.
  - unfold dp_a_with, np_full.
    destruct (n self + 1 <? 0); [done|].
    destruct (Z.ltb_spec (capacity self + 1) 0); [done|lia].
Qed.

Lemma dp_b_with_nonneg (s : Z) (self : KnapsackSolver) (r : Z) :
  0 ≤ n self → dp_b_with s self = Ok r → 0 ≤ r.
Proof.
  intros Hn. destruct (Z.le_gt_cases (-1) (capacity self)) as [Hcap|Hcap].
  - rewrite dp_b_with_sweep by done.
    destruct (sweep _ _ _) as [row|] eqn:Hsweep; simpl; [|done].
    destruct (getitem row (capacity self)) as [cell|] eqn:Hget; simpl; [|done].
    apply getitem_elem_of in Hget.
    apply (sweep_preserves (Forall float64_nonneg)) in Hsweep.
    + pose proof (proj1 (Forall_forall _ _) Hsweep _ Hget) as Hcell.
      destruct cell as [z| | |]; simpl in *; try done. by intros [= <-].
    + intros k prev row' Hprev. unfold dp_b_row.
      apply mapM_Ok_Forall. intros w x _. by apply dp_b_value_nonneg.
    + by apply Forall_replicate.
  - unfold dp_b_with, np_full.
    destruct (n self + 1 <? 0); [done|].
    destruct (Z.ltb_spec (capacity self + 1) 0); [done|lia].
Qed.

Lemma solve_nonneg (ws vs : list Z) (cap : Z) (m : method) (r : Z) :
  solve m (instance ws vs cap) = Ok r → 0 ≤ r.
Proof.
  destruct m; simpl.
  - unfold dfs_a, dfs_a_with.
    destruct (dfs_a_dfs _ _ _ _ _ _) as [[r0 memo]|] eqn:Hrun; simpl; [|done].
    intros [= <-]. refine (proj1 (dfs_a_dfs_nonneg _ _ _ _ _ ∅ _ _ _ Hrun)).
    intros key v. by rewrite lookup_empty.
  - apply dp_a_with_nonneg. simpl. lia.
  - unfold dfs_b, dfs_b_with.
    destruct (dfs_b_dfs _ _ _ _ _ _) as [[r0 memo]|] eqn:Hrun; simpl; [|done].
    intros [= <-]. refine (proj1 (dfs_b_dfs_nonneg _ _ _ _ _ ∅ _ _ _ Hrun)).
    intros key v. by rewrite lookup_empty.
  - apply dp_b_with_nonneg. simpl. lia.
Qed.

(** X1: whatever the weights, the values (negative ones included), their
    lengths and the capacity, a method that returns returns a number that is
    not negative: skipping every item is always among the choices. *)
Theorem results_are_nonnegative (ws vs : list Z) (cap : Z) (m : method)
    (r : Z) :
  solve m (instance ws vs cap) = Ok r → 0 ≤ r.
Proof. apply solve_nonneg. Qed.

Lemma results_are_nonnegative_witness :
  0 ≤ 0 ∧ solve DP_A (instance [1; 2] [-7; -3] 2) = Ok 0.
Proof.
  assert (H : solve DP_A (instance [1; 2] [-7; -3] 2) = Ok 0) by (by vm_compute).
  split; [|done].
  apply (results_are_nonnegative [1; 2] [-7; -3] 2 DP_A 0 H).
Defined.

(** ** When no item fits *)

Lemma sweep_fixed {A : Type} (rowf : Z → list A → result (list A))
    (xs : list Z) (prev : list A) :
  (∀ x, x ∈ xs → rowf x prev = Ok prev) → sweep rowf xs prev = Ok prev.
Proof.
  induction xs as [|x xs IH]; intros Hrow; simpl; [done|].
  rewrite Hrow by left. simpl. apply IH. intros y Hy. apply Hrow. by right.
Qed.

Lemma dfs_a_dfs_nothing_fits (self : KnapsackSolver) (c : Z) (fuel : nat) :
  n self = Z.of_nat (length (weights self)) →
  Forall (λ w, c < w) (weights self) →
  ∀ i (memo : gmap (Z * Z) Z),
    0 ≤ i → (Z.to_nat (n self - i) < fuel)%nat →
    (∀ key r, memo !! key = Some r → r = 0) →
    ∃ memo', dfs_a_dfs SENTINEL self fuel i c memo = Ok (0, memo')
             ∧ (∀ key r, memo' !! key = Some r → r = 0).
Proof.
  intros Hn Hws. induction fuel as [|fuel IH]; intros i memo Hi Hfuel Hmemo;
    [lia|].
  simpl. destruct (Z.leb_spec (n self) i) as [Hin|Hin]; simpl.
  { by exists memo. }
  destruct (c <=? 0).
  { by exists memo. }
  destruct (memo !! (i, c)) as [r|] eqn:Hlook.
  { exists memo. by rewrite (Hmemo _ _ Hlook). }
  destruct (IH (i + 1) memo) as (memo1 & -> & Hmemo1); [lia|lia|done|].
  simpl.
  destruct (lookup_lt_is_Some_2 (weights self) (Z.to_nat i)) as [w Hw]; [lia|].
  rewrite (getitem_lookup (weights self) i w) by (done || lia). simpl.
  pose proof (Forall_lookup_1 _ _ _ _ Hws Hw) as Hw0. simpl in Hw0.
  destruct (Z.leb_spec w c); [lia|]. simpl.
  rewrite lookup_insert_eq. eexists. split; [done|].
  intros key r. rewrite lookup_insert. case_decide; [|apply Hmemo1].
  by intros [= <-].
Qed.

Lemma dfs_b_dfs_nothing_fits (self : KnapsackSolver) (w : Z) (fuel : nat) :
  n self = Z.of_nat (length (weights self)) →
  Forall (λ wk, w < wk) (weights self) →
  ∀ k (memo : gmap (Z * Z) Z),
    0 ≤ k ≤ n self → (Z.to_nat k < fuel)%nat →
    (∀ key r, memo !! key = Some r → r = 0) →
    ∃ memo', dfs_b_dfs SENTINEL self fuel k w memo = Ok (0, memo')
             ∧ (∀ key r, memo' !! key = Some r → r = 0).
Proof.
  intros Hn Hws. induction fuel as [|fuel IH]; intros k memo Hk Hfuel Hmemo;
    [lia|].
  simpl. destruct (Z.eqb_spec k 0) as [->|Hk0].
  { by exists memo. }
  destruct (memo !! (k, w)) as [r|] eqn:Hlook.
  { exists memo. by rewrite (Hmemo _ _ Hlook). }
  destruct (IH (k - 1) memo) as (memo1 & -> & Hmemo1); [lia|lia|done|].
  simpl.
  destruct (lookup_lt_is_Some_2 (weights self) (Z.to_nat (k - 1)))
    as [wk Hwk]; [lia|].
  rewrite (getitem_lookup (weights self) (k - 1) wk) by (done || lia). simpl.
  pose proof (Forall_lookup_1 _ _ _ _ Hws Hwk) as Hwk0. simpl in Hwk0.
  destruct (Z.leb_spec wk w); [lia|]. simpl.
  rewrite lookup_insert_eq. eexists. split; [done|].
  intros key r. rewrite lookup_insert. case_decide; [|apply Hmemo1].
  by intros [= <-].
Qed.

Lemma dp_a_row_nothing_fits (ws vs : list Z) (cap i : Z) :
  Forall (λ w, cap < w) ws → 0 ≤ i < Z.of_nat (length ws) →
  dp_a_row SENTINEL (instance ws vs cap) i ((λ _, 0) <$> seqZ 0 (cap + 1))
  = Ok ((λ _, 0) <$> seqZ 0 (cap + 1)).
Proof.
  intros Hws Hi. unfold dp_a_row. simpl capacity.
  apply mapM_Ok_fmap. intros c Hc. apply elem_of_seqZ_0 in Hc.
  unfold dp_a_value. simpl weights.
  rewrite (getitem_fmap_seqZ (λ _, 0)) by lia. simpl.
  destruct (lookup_lt_is_Some_2 ws (Z.to_nat i)) as [w Hw]; [lia|].
  rewrite (getitem_lookup ws i w) by (done || lia). simpl.
  pose proof (Forall_lookup_1 _ _ _ _ Hws Hw) as Hw0. simpl in Hw0.
  destruct (Z.leb_spec w c); [lia|]. done.
Qed.

Lemma dp_b_row_nothing_fits (ws vs : list Z) (cap k : Z) :
  Forall (λ w, cap < w) ws → 1 ≤ k ≤ Z.of_nat (length ws) →
  dp_b_row SENTINEL (instance ws vs cap) k ((λ _, Fin 0) <$> seqZ 0 (cap + 1))
  = Ok ((λ _, Fin 0) <$> seqZ 0 (cap + 1)).
Proof.
  intros Hws Hk. unfold dp_b_row. simpl capacity.
  apply mapM_Ok_fmap. intros w Hw. apply elem_of_seqZ_0 in Hw.
  unfold dp_b_value. simpl weights.
  rewrite (getitem_fmap_seqZ (λ _, Fin 0)) by lia. simpl.
  destruct (lookup_lt_is_Some_2 ws (Z.to_nat (k - 1))) as [wk Hwk]; [lia|].
  rewrite (getitem_lookup ws (k - 1) wk) by (done || lia). simpl.
  pose proof (Forall_lookup_1 _ _ _ _ Hws Hwk) as Hwk0. simpl in Hwk0.
  destruct (Z.leb_spec wk w); [lia|]. done.
Qed.

(** X2: when the capacity is not negative and every weight exceeds it (in
    particular when there is no item at all), each of the four methods
    returns 0, and no value is ever read: the values may be any list, of any
    length. *)
Theorem nothing_fits (ws vs : list Z) (cap : Z) (m : method) :
  0 ≤ cap → Forall (λ w, cap < w) ws →
  solve m (instance ws vs cap) = Ok 0.
Proof.
  intros Hcap Hws. destruct m; simpl.
  - unfold dfs_a, dfs_a_with.
    destruct (dfs_a_dfs_nothing_fits (instance ws vs cap) cap
                (S (Z.to_nat (n (instance ws vs cap)))) eq_refl Hws 0 ∅)
      as (memo' & Hrun & _); [lia|lia|by intros key r; rewrite lookup_empty|].
    simpl in *. by rewrite Hrun.
  - unfold dp_a. rewrite dp_a_with_sweep by (simpl; lia).
    simpl n. simpl capacity. rewrite replicate_fmap_seqZ.
    rewrite sweep_fixed.
    + simpl. by rewrite (getitem_fmap_seqZ (λ _, 0)) by lia.
    + intros i Hi. apply elem_of_reverse, elem_of_seqZ in Hi.
      apply dp_a_row_nothing_fits; [done|lia].
  - unfold dfs_b, dfs_b_with.
    destruct (dfs_b_dfs_nothing_fits (instance ws vs cap) cap
                (S (Z.to_nat (n (instance ws vs cap)))) eq_refl Hws
                (n (instance ws vs cap)) ∅)
      as (memo' & Hrun & _);
      [simpl; lia|lia|by intros key r; rewrite lookup_empty|].
    simpl in *. by rewrite Hrun.
  - unfold dp_b. rewrite dp_b_with_sweep by (simpl; lia).
    simpl n. simpl capacity. rewrite (replicate_fmap_seqZ (Fin 0)).
    rewrite sweep_fixed.
    + simpl. by rewrite (getitem_fmap_seqZ (λ _, Fin 0)) by lia.
    + intros k Hk. apply elem_of_seqZ in Hk.
      apply dp_b_row_nothing_fits; [done|lia].
Qed.

Lemma nothing_fits_witness :
  solve DFS_A (instance [5; 6; 7] [] 4) = Ok 0
  ∧ solve DP_B (instance [] [1; 2] 10) = Ok 0.
Proof.
  split.
  - apply (nothing_fits [5; 6; 7] [] 4 DFS_A); [lia|repeat constructor; lia].
  - apply (nothing_fits [] [1; 2] 10 DP_B); [lia|constructor].
Defined.

(** ** When every item fits *)

Lemma everything_is_optimum (items : list (Z * Z)) (cap : Z) :
  Forall (λ it, 0 ≤ it.2) items → total_weight items ≤ cap →
  is_optimum items cap (total_value items).
Proof.
  intros Hvs Hw. split.
  - exists items. by repeat split.
  - intros sel [Hsub _]. by apply total_value_sublist.
Qed.

Lemma f_from_everything (items : list (Z * Z)) (c : Z) :
  Forall (λ it, 0 ≤ it.1) items → Forall (λ it, 0 ≤ it.2) items →
  total_weight items < c → f_from items c = total_value items.
Proof.
  intros Hws Hvs. revert c.
  induction items as [|[w v] items IH]; intros c Hc; simpl; [done|].
  inversion_clear Hws as [|? ? Hw Hws']. inversion_clear Hvs as [|? ? Hv Hvs'].
  simpl in *. pose proof (total_weight_nonneg items Hws').
  destruct (Z.leb_spec c 0); [lia|].
  destruct (Z.leb_spec w c); [|lia].
  rewrite !IH by (done || lia). lia.
Qed.

(** X3: on a valid instance whose items all fit together,
    [sum(weights) <= capacity], the result is the sum of all values: for
    [dfs_b] always, for [dfs_a] when the weights are positive or the
    capacity is not used up, for [dp_a] when that sum is at most [2^63 - 1]
    and for [dp_b] when it is at most [2^53]. *)
Theorem everything_fits (ws vs : list Z) (cap : Z) :
  valid_instance ws vs cap → total_weight (zip ws vs) ≤ cap →
  dfs_b (instance ws vs cap) = Ok (total_value (zip ws vs))
  ∧ (Forall (λ w, 0 < w) ws ∨ total_weight (zip ws vs) < cap →
     dfs_a (instance ws vs cap) = Ok (total_value (zip ws vs)))
  ∧ (total_value (zip ws vs) ≤ int64_max →
     dp_a (instance ws vs cap) = Ok (total_value (zip ws vs)))
  ∧ (total_value (zip ws vs) ≤ 2 ^ 53 →
     dp_b (instance ws vs cap) = Ok (total_value (zip ws vs))).
Proof.
  intros Hvalid Hfit. pose proof SENTINEL_nonpos as Hs0.
  pose proof (valid_weights ws vs cap Hvalid) as Hws.
  pose proof (valid_values ws vs cap Hvalid) as Hvs.
  assert (Hknap : knap (zip ws vs) cap = total_value (zip ws vs)).
  { apply (is_optimum_unique (zip ws vs) cap).
    - by apply knap_is_optimum.
    - by apply everything_is_optimum. }
  split; [|split; [|split]].
  - unfold dfs_b. rewrite dfs_b_valid by done. f_equal.
    by rewrite g_knap.
  - intros Hor. unfold dfs_a. rewrite dfs_a_valid by done. f_equal.
    destruct Hor as [Hpos|Hlt].
    + by rewrite f_knap.
    + unfold f. simpl. by apply f_from_everything.
  - intros Hbound. unfold dp_a. rewrite dp_a_with_knap by (done || lia).
    by f_equal.
  - intros Hbound. unfold dp_b. rewrite dp_b_with_g by done. f_equal.
    by rewrite g_knap.
Qed.

Lemma everything_fits_witness :
  dfs_b (instance [1; 2; 3] [6; 10; 12] 6) = Ok 28
  ∧ dp_a (instance [1; 2; 3] [6; 10; 12] 6) = Ok 28.
Proof.
  assert (Hvalid : valid_instance [1; 2; 3] [6; 10; 12] 6).
  { unfold valid_instance. repeat split; (done || (repeat constructor; lia)). }
  destruct (everything_fits [1; 2; 3] [6; 10; 12] 6 Hvalid)
    as (Hb & _ & Ha & _); [simpl; lia|].
  split; [exact Hb|]. apply Ha. by vm_compute.
Defined.

(** ** The recurrence of [dfs_b] *)

(** X4: [g] satisfies the recurrence of state space B; [dfs_b] returns a
    cached value when the memo has one, and its top-level call returns
    [g(n, capacity)], leaving a memo whose every entry is [g] at its key. *)
Theorem dfs_b_computes_the_recurrence (ws vs : list Z) (cap : Z) :
  length ws = length vs →
  (∀ w, g ws vs 0 w = 0)
  ∧ (∀ k w wk v,
       1 ≤ k → ws !! Z.to_nat (k - 1) = Some wk →
       vs !! Z.to_nat (k - 1) = Some v →
       g ws vs k w =
       if wk <=? w
       then Z.max (g ws vs (k - 1) w) (v + g ws vs (k - 1) (w - wk))
       else g ws vs (k - 1) w)
  ∧ (∀ fuel k w memo r,
       k ≠ 0 → memo !! (k, w) = Some r →
       dfs_b_dfs SENTINEL (instance ws vs cap) (S fuel) k w memo
       = Ok (r, memo))
  ∧ (∃ memo,
       dfs_b_dfs SENTINEL (instance ws vs cap) (S (length ws))
         (Z.of_nat (length ws)) cap ∅
       = Ok (g ws vs (Z.of_nat (length ws)) cap, memo)
       ∧ memo_b_ok (instance ws vs cap) memo)
  ∧ dfs_b (instance ws vs cap) = Ok (g ws vs (Z.of_nat (length ws)) cap).
Proof.
  intros Hlen. pose proof SENTINEL_nonpos as Hs0.
  split; [done|]. split; [apply g_step|]. split; [|split].
  - intros fuel k w memo r Hk Hlook. simpl.
    destruct (Z.eqb_spec k 0); [done|]. by rewrite Hlook.
  - destruct (dfs_b_dfs_spec SENTINEL (instance ws vs cap) Hs0 eq_refl Hlen
                (S (length ws)) (Z.of_nat (length ws)) cap ∅)
      as (memo & Hrun & Hmemo).
    + simpl. lia.
    + lia.
    + apply memo_b_ok_empty.
    + by exists memo.
  - unfold dfs_b.
    apply (dfs_b_with_g SENTINEL (instance ws vs cap) Hs0 eq_refl Hlen).
Qed.

Lemma dfs_b_computes_the_recurrence_witness :
  dfs_b (instance [3; 4; 5] [30; 50; 60] 8) = Ok (g [3; 4; 5] [30; 50; 60] 3 8).
Proof.
  by apply (dfs_b_computes_the_recurrence [3; 4; 5] [30; 50; 60] 8).
Defined.

(** ** The order of the items *)

Lemma total_weight_perm (l k : list (Z * Z)) :
  l ≡ₚ k → total_weight l = total_weight k.
Proof. induction 1; simpl; lia. Qed.

Lemma total_value_perm (l k : list (Z * Z)) :
  l ≡ₚ k → total_value l = total_value k.
Proof. induction 1; simpl; lia. Qed.

Lemma is_optimum_perm (l k : list (Z * Z)) (cap r : Z) :
  l ≡ₚ k → is_optimum l cap r → is_optimum k cap r.
Proof.
  assert (Hmove : ∀ l k sel, l ≡ₚ k → feasible l cap sel →
            ∃ sel', feasible k cap sel' ∧ total_value sel' = total_value sel).
  { intros l0 k0 sel Hperm [Hsub Hw].
    assert (sel ⊆+ k0) as Hms.
    { apply submseteq_sublist_l. by exists l0. }
    apply submseteq_sublist_r in Hms as (sel' & Hp & Hsub').
    exists sel'. split; [split; [done|]|].
    - by rewrite <- (total_weight_perm _ _ Hp).
    - by rewrite (total_value_perm _ _ Hp). }
  intros Hperm [(sel & Hf & Hv) Hub]. split.
  - destruct (Hmove l k sel Hperm Hf) as (sel' & Hf' & Hv').
    exists sel'. split; [done|lia].
  - intros sel' Hf'. symmetry in Hperm.
    destruct (Hmove k l sel' Hperm Hf') as (sel'' & Hf'' & Hv'').
    rewrite <- Hv''. by apply Hub.
Qed.

(** X5: the order in which the items are given does not matter.  On two
    valid instances with the same capacity whose (weight, value) pairs are a
    permutation of each other, [dfs_b] returns the same result; so does
    [dfs_a] when the weights are positive, [dp_a] when the values sum to at
    most [2^63 - 1] and [dp_b] when they sum to at most [2^53]. *)
Theorem order_of_items_is_irrelevant (ws vs ws' vs' : list Z) (cap : Z) :
  valid_instance ws vs cap → valid_instance ws' vs' cap →
  zip ws vs ≡ₚ zip ws' vs' →
  dfs_b (instance ws vs cap) = dfs_b (instance ws' vs' cap)
  ∧ (Forall (λ w, 0 < w) ws →
     dfs_a (instance ws vs cap) = dfs_a (instance ws' vs' cap))
  ∧ (total_value (zip ws vs) ≤ int64_max →
     dp_a (instance ws vs cap) = dp_a (instance ws' vs' cap))
  ∧ (total_value (zip ws vs) ≤ 2 ^ 53 →
     dp_b (instance ws vs cap) = dp_b (instance ws' vs' cap)).
Proof.
  intros Hv Hv' Hperm. pose proof SENTINEL_nonpos as Hs0.
  pose proof (total_value_perm _ _ Hperm) as Htv.
  assert (Hknap : knap (zip ws vs) cap = knap (zip ws' vs') cap).
  { apply (is_optimum_unique (zip ws' vs') cap).
    - apply (is_optimum_perm (zip ws vs)); [done|]. by apply knap_is_optimum.
    - by apply knap_is_optimum. }
  split; [|split; [|split]].
  - unfold dfs_b. rewrite !dfs_b_valid by done. f_equal.
    by rewrite !g_knap.
  - intros Hpos. unfold dfs_a. rewrite !dfs_a_valid by done. f_equal.
    rewrite f_knap by done. rewrite Hknap. symmetry. unfold f. simpl.
    apply f_from_knap. rewrite <- Hperm. by apply Forall_zip_pos_weights.
  - intros Hbound. unfold dp_a.
    rewrite !dp_a_with_knap by (done || lia). by f_equal.
  - intros Hbound. unfold dp_b.
    rewrite !dp_b_with_g by (done || lia). f_equal. by rewrite !g_knap.
Qed.

Lemma order_of_items_is_irrelevant_witness :
  dfs_b (instance [2; 3; 4] [3; 4; 5] 5) = dfs_b (instance [4; 2; 3] [5; 3; 4] 5).
Proof.
  assert (Hv : valid_instance [2; 3; 4] [3; 4; 5] 5).
  { unfold valid_instance. repeat split; (done || (repeat constructor; lia)). }
  assert (Hv' : valid_instance [4; 2; 3] [5; 3; 4] 5).
  { unfold valid_instance. repeat split; (done || (repeat constructor; lia)). }
  assert (Hp : zip [2; 3; 4] [3; 4; 5] ≡ₚ zip [4; 2; 3] [5; 3; 4]).
  { simpl. symmetry. apply (Permutation_cons_append [(2, 3); (3, 4)] (4, 5)). }
  exact (proj1 (order_of_items_is_irrelevant _ _ _ _ _ Hv Hv' Hp)).
Defined.

(** ** Raising the values *)

Lemma zip_values_le (ws vs vs' : list Z) :
  Forall2 Z.le vs vs' →
  Forall2 (λ a b : Z * Z, a.1 = b.1 ∧ a.2 ≤ b.2) (zip ws vs) (zip ws vs').
Proof.
  intros H. revert ws. induction H as [|v v' vs vs' Hv _ IH]; intros [|w ws];
    simpl; try constructor; auto.
Qed.

Lemma total_value_le (l k : list (Z * Z)) :
  Forall2 (λ a b : Z * Z, a.1 = b.1 ∧ a.2 ≤ b.2) l k →
  total_value l ≤ total_value k.
Proof. induction 1 as [|a b l k [_ Hv] _ IH]; simpl; lia. Qed.

Lemma f_from_mono_values (l k : list (Z * Z)) (c : Z) :
  Forall2 (λ a b : Z * Z, a.1 = b.1 ∧ a.2 ≤ b.2) l k →
  f_from l c ≤ f_from k c.
Proof.
  intros H. revert c.
  induction H as [|[w v] [w' v'] l k [Hw Hv] _ IH]; intros c; simpl; [done|].
  simpl in *. subst w'. destruct (c <=? 0); [done|].
  pose proof (IH c). pose proof (IH (c - w)). destruct (w <=? c); lia.
Qed.

Lemma knap_mono_values (l k : list (Z * Z)) (c : Z) :
  Forall2 (λ a b : Z * Z, a.1 = b.1 ∧ a.2 ≤ b.2) l k →
  knap l c ≤ knap k c.
Proof.
  intros H. revert c.
  induction H as [|[w v] [w' v'] l k [Hw Hv] _ IH]; intros c; simpl; [done|].
  simpl in *. subst w'.
  pose proof (IH c). pose proof (IH (c - w)). destruct (w <=? c); lia.
Qed.

Lemma g_upto_mono_values (l k : list (Z * Z)) (j : nat) (w : Z) :
  Forall2 (λ a b : Z * Z, a.1 = b.1 ∧ a.2 ≤ b.2) l k →
  g_upto l j w ≤ g_upto k j w.
Proof.
  intros H. revert w. induction j as [|j IH]; intros w; simpl; [done|].
  pose proof (IH w) as Hskip.
  destruct (l !! j) as [[wj v]|] eqn:Hl.
  - destruct (Forall2_lookup_l _ _ _ _ _ H Hl) as ([wj' v'] & Hk & Hw & Hv).
    simpl in *. subst wj'. rewrite Hk.
    pose proof (IH (w - wj)). destruct (wj <=? w); lia.
  - apply lookup_ge_None in Hl. rewrite (Forall2_length _ _ _ H) in Hl.
    apply lookup_ge_None in Hl. by rewrite Hl.
Qed.

(** X6: raising values never lowers the result.  For the same valid weights
    and capacity and values [vs <= vs'] position by position, [dfs_a] and
    [dfs_b] return on [vs] at most what they return on [vs']; so does [dp_a]
    when the values [vs'] sum to at most [2^63 - 1], and [dp_b] when they
    sum to at most [2^53]. *)
Theorem result_is_monotone_in_values (ws vs vs' : list Z) (cap : Z) :
  valid_instance ws vs cap → valid_instance ws vs' cap →
  Forall2 Z.le vs vs' →
  (∃ r r', dfs_a (instance ws vs cap) = Ok r
           ∧ dfs_a (instance ws vs' cap) = Ok r' ∧ r ≤ r')
  ∧ (∃ r r', dfs_b (instance ws vs cap) = Ok r
             ∧ dfs_b (instance ws vs' cap) = Ok r' ∧ r ≤ r')
  ∧ (total_value (zip ws vs') ≤ int64_max →
     ∃ r r', dp_a (instance ws vs cap) = Ok r
             ∧ dp_a (instance ws vs' cap) = Ok r' ∧ r ≤ r')
  ∧ (total_value (zip ws vs') ≤ 2 ^ 53 →
     ∃ r r', dp_b (instance ws vs cap) = Ok r
             ∧ dp_b (instance ws vs' cap) = Ok r' ∧ r ≤ r').
Proof.
  intros Hv Hv' Hle. pose proof SENTINEL_nonpos as Hs0.
  pose proof (zip_values_le ws vs vs' Hle) as Hzip.
  pose proof (total_value_le _ _ Hzip) as Htv.
  split; [|split; [|split]].
  - exists (f ws vs 0 cap), (f ws vs' 0 cap). unfold dfs_a.
    rewrite !dfs_a_valid by done. repeat split.
    unfold f. simpl. by apply f_from_mono_values.
  - exists (g ws vs (Z.of_nat (length ws)) cap),
      (g ws vs' (Z.of_nat (length ws)) cap). unfold dfs_b.
    rewrite !dfs_b_valid by done. repeat split.
    by apply g_upto_mono_values.
  - intros Hbound. exists (knap (zip ws vs) cap), (knap (zip ws vs') cap).
    unfold dp_a. rewrite !dp_a_with_knap by (done || lia).
    repeat split. by apply knap_mono_values.
  - intros Hbound. exists (g ws vs (Z.of_nat (length ws)) cap),
      (g ws vs' (Z.of_nat (length ws)) cap). unfold dp_b.
    rewrite !dp_b_with_g by (done || lia). repeat split.
    by apply g_upto_mono_values.
Qed.

Lemma result_is_monotone_in_values_witness :
  ∃ r r', dfs_a (instance [2; 3] [3; 4] 4) = Ok r
          ∧ dfs_a (instance [2; 3] [3; 9] 4) = Ok r' ∧ r ≤ r'.
Proof.
  assert (Hv : valid_instance [2; 3] [3; 4] 4).
  { unfold valid_instance. repeat split; (done || (repeat constructor; lia)). }
  assert (Hv' : valid_instance [2; 3] [3; 9] 4).
  { unfold valid_instance. repeat split; (done || (repeat constructor; lia)). }
  assert (Hle : Forall2 Z.le [3; 4] [3; 9]) by (repeat constructor; lia).
  exact (proj1 (result_is_monotone_in_values _ _ _ _ Hv Hv' Hle)).
Defined.

(** ** What [dfs_a] returns is achieved *)

Lemma f_from_achieved (items : list (Z * Z)) (c : Z) :
  0 ≤ c →
  ∃ sel, feasible items c sel ∧ total_value sel = f_from items c.
Proof.
  revert c. induction items as [|[w v] items IH]; intros c Hc; simpl.
  - exists []. repeat split; [constructor|done].
  - destruct (Z.leb_spec c 0).
    { exists []. repeat split; [apply sublist_nil_l|simpl; lia]. }
    destruct (IH c Hc) as (s0 & [Hs0 Hw0] & Hv0).
    destruct (Z.leb_spec w c) as [Hfit|Hfit].
    + destruct (IH (c - w) ltac:(lia)) as (s1 & [Hs1 Hw1] & Hv1).
      destruct (Z.max_spec (f_from items c) (v + f_from items (c - w)))
        as [[_ ->]|[_ ->]].
      * exists ((w, v) :: s1). repeat split; simpl; [|lia|lia].
        by apply sublist_skip.
      * exists s0. repeat split; [|done|done]. by apply sublist_cons.
    + exists s0. repeat split; [|done|done]. by apply sublist_cons.
Qed.

(** X7: on every valid instance, weight-0 items included, [dfs_a] returns
    the total value of some selection of items that fits the capacity; so it
    never returns more than the maximum feasible value. *)
Theorem dfs_a_returns_an_achieved_value (ws vs : list Z) (cap : Z) :
  valid_instance ws vs cap →
  ∃ r sel, dfs_a (instance ws vs cap) = Ok r
           ∧ feasible (zip ws vs) cap sel ∧ total_value sel = r
           ∧ ∀ best, is_optimum (zip ws vs) cap best → r ≤ best.
Proof.
  intros Hvalid. pose proof SENTINEL_nonpos as Hs0.
  destruct (f_from_achieved (zip ws vs) cap) as (sel & Hf & Hv);
    [apply Hvalid|].
  exists (f ws vs 0 cap), sel. unfold dfs_a.
  rewrite dfs_a_valid by done. repeat split; [apply Hf..|done|].
  intros best [_ Hub]. change (f ws vs 0 cap) with (f_from (zip ws vs) cap).
  rewrite <- Hv. by apply Hub.
Qed.

Lemma dfs_a_returns_an_achieved_value_witness :
  ∃ r sel, dfs_a (instance [2; 0] [3; 5] 2) = Ok r
           ∧ feasible (zip [2; 0] [3; 5]) 2 sel ∧ total_value sel = r
           ∧ ∀ best, is_optimum (zip [2; 0] [3; 5]) 2 best → r ≤ best.
Proof.
  apply (dfs_a_returns_an_achieved_value [2; 0] [3; 5] 2).
  unfold valid_instance. repeat split; (done || (repeat constructor; lia)).
Defined.

(** ** What [solve_all] returns *)

Lemma solve_all_Ok_inv (self : KnapsackSolver) (results : list (string * Z)) :
  solve_all self = Ok results →
  ∃ r, results = [("DFS_A"%string, r); ("DP_A"%string, r);
                  ("DFS_B"%string, r); ("DP_B"%string, r)]
       ∧ ∀ m, solve m self = Ok r.
Proof.
  unfold solve_all.
  destruct (dfs_a self) as [a|] eqn:Ha; [|done]. rewrite bind_Ok.
  destruct (dp_a self) as [b|] eqn:Hb; [|done]. rewrite bind_Ok.
  destruct (dfs_b self) as [c|] eqn:Hc; [|done]. rewrite bind_Ok.
  destruct (dp_b self) as [d|] eqn:Hd; [|done]. rewrite bind_Ok.
  cbv zeta.
  change ([("DFS_A"%string, a); ("DP_A"%string, b);
           ("DFS_B"%string, c); ("DP_B"%string, d)].*2) with [a; b; c; d].
  destruct (decide (size (list_to_set [a; b; c; d] : gset Z) ≠ 1%nat))
    as [Hne|Hne]; [done|].
  apply dec_stable, size_four_values in Hne as (-> & -> & ->).
  intros [= <-]. exists d. split; [done|]. by intros [].
Qed.

(** X8: whatever the instance, when [solve_all] returns it returns exactly
    the four entries DFS_A, DP_A, DFS_B and DP_B, in that order, all with
    one value, which is not negative and is what each of the four methods
    returns. *)
Theorem solve_all_returns_one_value (ws vs : list Z) (cap : Z)
    (results : list (string * Z)) :
  solve_all (instance ws vs cap) = Ok results →
  ∃ r, 0 ≤ r
       ∧ results = [("DFS_A"%string, r); ("DP_A"%string, r);
                    ("DFS_B"%string, r); ("DP_B"%string, r)]
       ∧ ∀ m, solve m (instance ws vs cap) = Ok r.
Proof.
  intros H. apply solve_all_Ok_inv in H as (r & -> & Hm).
  exists r. split; [|done]. apply (solve_nonneg ws vs cap DFS_A), Hm.
Qed.

Lemma solve_all_returns_one_value_witness :
  ∃ r, 0 ≤ r
       ∧ [("DFS_A"%string, 22); ("DP_A"%string, 22);
          ("DFS_B"%string, 22); ("DP_B"%string, 22)]
         = [("DFS_A"%string, r); ("DP_A"%string, r);
            ("DFS_B"%string, r); ("DP_B"%string, r)]
       ∧ ∀ m, solve m (instance [1; 2; 3] [6; 10; 12] 5) = Ok r.
Proof.
  apply (solve_all_returns_one_value [1; 2; 3] [6; 10; 12] 5).
  by vm_compute.
Defined.

Lemma solve_all_of_results (self : KnapsackSolver) (a b c d : Z) :
  dfs_a self = Ok a → dp_a self = Ok b → dfs_b self = Ok c →
  dp_b self = Ok d →
  solve_all self =
  if decide (a = b ∧ b = c ∧ c = d)
  then Ok [("DFS_A"%string, a); ("DP_A"%string, b);
           ("DFS_B"%string, c); ("DP_B"%string, d)]
  else Raise (ValueError (InconsistentResults
                [("DFS_A"%string, a); ("DP_A"%string, b);
                 ("DFS_B"%string, c); ("DP_B"%string, d)])).
Proof.
  intros Ha Hb Hc Hd. unfold solve_all.
  rewrite Ha, Hb, Hc, Hd, !bind_Ok. cbv zeta.
  change ([("DFS_A"%string, a); ("DP_A"%string, b);
           ("DFS_B"%string, c); ("DP_B"%string, d)].*2) with [a; b; c; d].
  pose proof (size_four_values a b c d) as Hsize.
  destruct (decide (size (list_to_set [a; b; c; d] : gset Z) ≠ 1%nat))
    as [Hne|Hne]; destruct (decide (a = b ∧ b = c ∧ c = d)) as [Heq|Heq];
    try done.
  - by apply Hsize in Heq.
  - apply dec_stable in Hne. by apply Hsize in Hne.
Qed.

(** X9: on a valid instance whose values sum to at most [2^53], [dp_a],
    [dfs_b] and [dp_b] all return the maximum feasible value [best], and
    [dfs_a] returns some [a <= best]; [solve_all] returns the four entries
    when [a = best], as it is when the weights are positive, and raises its
    [ValueError] with the values [a, best, best, best] otherwise. *)
Theorem solve_all_hinges_on_dfs_a (ws vs : list Z) (cap : Z) :
  valid_instance ws vs cap → total_value (zip ws vs) ≤ 2 ^ 53 →
  ∃ best a,
    is_optimum (zip ws vs) cap best
    ∧ dp_a (instance ws vs cap) = Ok best
    ∧ dfs_b (instance ws vs cap) = Ok best
    ∧ dp_b (instance ws vs cap) = Ok best
    ∧ dfs_a (instance ws vs cap) = Ok a ∧ a ≤ best
    ∧ (Forall (λ w, 0 < w) ws → a = best)
    ∧ (a = best →
       solve_all (instance ws vs cap)
       = Ok [("DFS_A"%string, best); ("DP_A"%string, best);
             ("DFS_B"%string, best); ("DP_B"%string, best)])
    ∧ (a ≠ best →
       solve_all (instance ws vs cap)
       = Raise (ValueError (InconsistentResults
                  [("DFS_A"%string, a); ("DP_A"%string, best);
                   ("DFS_B"%string, best); ("DP_B"%string, best)]))).
Proof.
  intros Hvalid Hbound. pose proof SENTINEL_nonpos as Hs0.
  pose proof float_bound_int64 as H64.
  pose proof (knap_is_optimum ws vs cap Hvalid) as Hopt.
  set (best := knap (zip ws vs) cap) in *.
  assert (Ha : dfs_a (instance ws vs cap) = Ok (f ws vs 0 cap)).
  { unfold dfs_a. by rewrite dfs_a_valid. }
  assert (Hb : dp_a (instance ws vs cap) = Ok best).
  { unfold dp_a. rewrite dp_a_with_knap by (done || lia). done. }
  assert (Hc : dfs_b (instance ws vs cap) = Ok best).
  { unfold dfs_b. rewrite dfs_b_valid by done. f_equal. by apply g_knap. }
  assert (Hd : dp_b (instance ws vs cap) = Ok best).
  { unfold dp_b. rewrite dp_b_with_g by done. f_equal. by apply g_knap. }
  exists best, (f ws vs 0 cap).
  pose proof (solve_all_of_results _ _ _ _ _ Ha Hb Hc Hd) as Hall.
  do 5 (split; [done|]). split; [|split; [|split]].
  - destruct (f_from_achieved (zip ws vs) cap) as (sel & Hf & Hv);
      [apply Hvalid|].
    change (f ws vs 0 cap) with (f_from (zip ws vs) cap).
    rewrite <- Hv. by apply Hopt.
  - intros Hpos. by apply f_knap.
  - intros Heq. rewrite Hall, Heq. by rewrite decide_True.
  - intros Hne. rewrite Hall. rewrite decide_False; [done|]. by intros [? _].
Qed.

Lemma solve_all_hinges_on_dfs_a_witness :
  ∃ best a,
    is_optimum (zip [2; 0] [3; 5]) 2 best
    ∧ dp_a (instance [2; 0] [3; 5] 2) = Ok best
    ∧ dfs_b (instance [2; 0] [3; 5] 2) = Ok best
    ∧ dp_b (instance [2; 0] [3; 5] 2) = Ok best
    ∧ dfs_a (instance [2; 0] [3; 5] 2) = Ok a ∧ a ≤ best
    ∧ (Forall (λ w, 0 < w) [2; 0] → a = best)
    ∧ (a = best →
       solve_all (instance [2; 0] [3; 5] 2)
       = Ok [("DFS_A"%string, best); ("DP_A"%string, best);
             ("DFS_B"%string, best); ("DP_B"%string, best)])
    ∧ (a ≠ best →
       solve_all (instance [2; 0] [3; 5] 2)
       = Raise (ValueError (InconsistentResults
                  [("DFS_A"%string, a); ("DP_A"%string, best);
                   ("DFS_B"%string, best); ("DP_B"%string, best)]))).
Proof.
  apply (solve_all_hinges_on_dfs_a [2; 0] [3; 5] 2).
  - unfold valid_instance. repeat split; (done || (repeat constructor; lia)).
  - by vm_compute.
Defined.

(** ** Values beyond the last weight *)

Lemma sweep_ext_in {A : Type} (rowf1 rowf2 : Z → list A → result (list A))
    (xs : list Z) (prev : list A) :
  (∀ x prev, x ∈ xs → rowf1 x prev = rowf2 x prev) →
  sweep rowf1 xs prev = sweep rowf2 xs prev.
Proof.
  revert prev. induction xs as [|x xs IH]; intros prev Hext; simpl; [done|].
  rewrite Hext by left. destruct (rowf2 x prev); simpl; [|done].
  apply IH. intros y prev' Hy. apply Hext. by right.
Qed.

Lemma getitem_take {A : Type} (l : list A) (m : nat) (i : Z) :
  (m ≤ length l)%nat → 0 ≤ i < Z.of_nat m →
  getitem (take m l) i = getitem l i.
Proof.
  intros Hm Hi.
  destruct (lookup_lt_is_Some_2 l (Z.to_nat i)) as [x Hx]; [lia|].
  rewrite (getitem_lookup l i x) by (done || lia).
  apply getitem_lookup; [lia|]. rewrite lookup_take_lt by lia. done.
Qed.

Section Values_ext.

Variable s : Z.
Variables ws vs vs' : list Z.
Variable cap : Z.
Hypothesis same_values :
  ∀ i, 0 ≤ i < Z.of_nat (length ws) → getitem vs i = getitem vs' i.

Lemma dfs_a_dfs_values_ext (fuel : nat) :
  ∀ i c (memo : gmap (Z * Z) Z),
    0 ≤ i →
    dfs_a_dfs s (instance ws vs cap) fuel i c memo
    = dfs_a_dfs s (instance ws vs' cap) fuel i c memo.
Proof.
  induction fuel as [|fuel IH]; intros i c memo Hi; [done|]. simpl.
  destruct (Z.leb_spec (Z.of_nat (length ws)) i); simpl; [done|].
  destruct (c <=? 0); [done|].
  destruct (memo !! (i, c)); [done|].
  rewrite IH by lia.
  destruct (dfs_a_dfs s (instance ws vs' cap) fuel (i + 1) c memo)
    as [[skip memo1]|]; simpl; [|done].
  destruct (getitem ws i) as [w|]; simpl; [|done].
  destruct (w <=? c); [|done].
  rewrite same_values by lia.
  destruct (getitem vs' i) as [v|]; simpl; [|done].
  by rewrite IH by lia.
Qed.

Lemma dfs_b_dfs_values_ext (fuel : nat) :
  ∀ k w (memo : gmap (Z * Z) Z),
    0 ≤ k ≤ Z.of_nat (length ws) →
    dfs_b_dfs s (instance ws vs cap) fuel k w memo
    = dfs_b_dfs s (instance ws vs' cap) fuel k w memo.
Proof.
  induction fuel as [|fuel IH]; intros k w memo Hk; [done|]. simpl.
  destruct (Z.eqb_spec k 0); [done|].
  destruct (memo !! (k, w)); [done|].
  rewrite IH by lia.
  destruct (dfs_b_dfs s (instance ws vs' cap) fuel (k - 1) w memo)
    as [[skip memo1]|]; simpl; [|done].
  destruct (getitem ws (k - 1)) as [wk|]; simpl; [|done].
  destruct (wk <=? w); [|done].
  rewrite same_values by lia.
  destruct (getitem vs' (k - 1)) as [v|]; simpl; [|done].
  by rewrite IH by lia.
Qed.

Lemma dp_a_with_values_ext :
  dp_a_with s (instance ws vs cap) = dp_a_with s (instance ws vs' cap).
Proof.
  destruct (Z.le_gt_cases (-1) cap) as [Hcap|Hcap].
  - rewrite !dp_a_with_sweep by (simpl; lia). simpl n. simpl capacity.
    f_equal. apply sweep_ext_in. intros i prev Hi.
    apply elem_of_reverse, elem_of_seqZ in Hi.
    unfold dp_a_row. apply mapM_ext_in. intros c _.
    unfold dp_a_value. simpl weights. simpl values.
    by rewrite same_values by lia.
  - unfold dp_a_with, np_full. simpl.
    destruct (Z.of_nat (length ws) + 1 <? 0); [done|].
    destruct (Z.ltb_spec (cap + 1) 0); [done|lia].
Qed.

Lemma dp_b_with_values_ext :
  dp_b_with s (instance ws vs cap) = dp_b_with s (instance ws vs' cap).
Proof.
  destruct (Z.le_gt_cases (-1) cap) as [Hcap|Hcap].
  - rewrite !dp_b_with_sweep by (simpl; lia). simpl n. simpl capacity.
    f_equal. apply sweep_ext_in. intros k prev Hk. apply elem_of_seqZ in Hk.
    unfold dp_b_row. apply mapM_ext_in. intros w _.
    unfold dp_b_value. simpl weights. simpl values.
    by rewrite same_values by lia.
  - unfold dp_b_with, np_full. simpl.
    destruct (Z.of_nat (length ws) + 1 <? 0); [done|].
    destruct (Z.ltb_spec (cap + 1) 0); [done|lia].
Qed.

End Values_ext.

(** X10: values beyond the last weight are never read.  When there are at
    least as many values as weights, every method gives on the instance the
    outcome it gives with the surplus values cut off. *)
Theorem surplus_values_are_ignored (ws vs : list Z) (cap : Z) (m : method) :
  (length ws ≤ length vs)%nat →
  solve m (instance ws vs cap)
  = solve m (instance ws (take (length ws) vs) cap).
Proof.
  intros Hlen.
  assert (Hsame : ∀ i, 0 ≤ i < Z.of_nat (length ws) →
                       getitem vs i = getitem (take (length ws) vs) i).
  { intros i Hi. symmetry. by apply getitem_take. }
  destruct m; simpl.
  - unfold dfs_a, dfs_a_with.
    by rewrite (dfs_a_dfs_values_ext SENTINEL ws vs _ cap Hsame) by lia.
  - by apply dp_a_with_values_ext.
  - unfold dfs_b, dfs_b_with.
    by rewrite (dfs_b_dfs_values_ext SENTINEL ws vs _ cap Hsame)
      by (simpl; lia).
  - by apply dp_b_with_values_ext.
Qed.

Lemma surplus_values_are_ignored_witness :
  solve DFS_B (instance [1; 2] [6; 10; 99] 3)
  = solve DFS_B (instance [1; 2] (take 2 [6; 10; 99]) 3).
Proof.
  apply (surplus_values_are_ignored [1; 2] [6; 10; 99] 3 DFS_B). simpl. lia.
Defined.

(** ** The verdicts of a scenario *)

(** X11: for a scenario on a valid instance with positive weights whose
    values sum to at most [2^53], the demonstration reports the same verdict
    for the four methods, a pass exactly when the expected value is the
    maximum feasible value, and reports the results as consistent. *)
Theorem scenario_verdicts (ws vs : list Z) (cap expected : Z) :
  valid_instance ws vs cap → Forall (λ w, 0 < w) ws →
  total_value (zip ws vs) ≤ 2 ^ 53 →
  ∃ best,
    is_optimum (zip ws vs) cap best
    ∧ run_test_case (ws, vs, cap, expected)
      = Ok ([("DFS_A"%string, bool_decide (best = expected));
             ("DP_A"%string, bool_decide (best = expected));
             ("DFS_B"%string, bool_decide (best = expected));
             ("DP_B"%string, bool_decide (best = expected))], true).
Proof.
  intros Hvalid Hpos Hbound.
  pose proof (λ m, methods_knap ws vs cap m Hvalid Hpos Hbound) as Hm.
  set (best := knap (zip ws vs) cap) in *.
  exists best. split; [by apply knap_is_optimum|].
  unfold run_test_case, __init__. rewrite bind_Ok.
  fold (instance ws vs cap).
  rewrite (solve_all_of_results _ best best best best
             (Hm DFS_A) (Hm DP_A) (Hm DFS_B) (Hm DP_B)).
  rewrite decide_True by done. rewrite bind_Ok.
  f_equal. f_equal. apply bool_decide_eq_true.
  change ([("DFS_A"%string, best); ("DP_A"%string, best);
           ("DFS_B"%string, best); ("DP_B"%string, best)].*2)
    with [best; best; best; best].
  by apply size_four_values.
Qed.

Lemma scenario_verdicts_witness :
  ∃ best,
    is_optimum (zip [3; 3; 3] [5; 5; 5]) 6 best
    ∧ run_test_case ([3; 3; 3], [5; 5; 5], 6, 11)
      = Ok ([("DFS_A"%string, bool_decide (best = 11));
             ("DP_A"%string, bool_decide (best = 11));
             ("DFS_B"%string, bool_decide (best = 11));
             ("DP_B"%string, bool_decide (best = 11))], true).
Proof.
  apply (scenario_verdicts [3; 3; 3] [5; 5; 5] 6 11).
  - unfold valid_instance. repeat split; (done || (repeat constructor; lia)).
  - repeat constructor; lia.
  - by vm_compute.
Defined.

(** ** More items *)

Lemma f_from_sublist (l k : list (Z * Z)) (c : Z) :
  l `sublist_of` k → f_from l c ≤ f_from k c.
Proof.
  intros H. revert c. induction H as [|[w v] l k _ IH|[w v] l k _ IH];
    intros c; simpl.
  - done.
  - destruct (c <=? 0); [done|].
    pose proof (IH c). pose proof (IH (c - w)). destruct (w <=? c); lia.
  - destruct (Z.leb_spec c 0); [by rewrite f_from_cut|].
    pose proof (IH c). destruct (w <=? c); lia.
Qed.

Lemma is_optimum_sublist (l k : list (Z * Z)) (cap r r' : Z) :
  l `sublist_of` k → is_optimum l cap r → is_optimum k cap r' → r ≤ r'.
Proof.
  intros Hsub [(sel & [Hsel Hw] & <-) _] [_ Hub].
  apply Hub. split; [|done]. by etransitivity.
Qed.

(** X12: more items never lower the result.  When the items of one valid
    instance are, in order, among the items of another with the same
    capacity, [dfs_a] and [dfs_b] return on the first at most what they
    return on the second; so does [dp_a] when the values of the second sum to
    at most [2^63 - 1], and [dp_b] when they sum to at most [2^53]. *)
Theorem more_items_never_lower_the_result (ws vs ws' vs' : list Z) (cap : Z) :
  valid_instance ws vs cap → valid_instance ws' vs' cap →
  zip ws vs `sublist_of` zip ws' vs' →
  (∃ r r', dfs_a (instance ws vs cap) = Ok r
           ∧ dfs_a (instance ws' vs' cap) = Ok r' ∧ r ≤ r')
  ∧ (∃ r r', dfs_b (instance ws vs cap) = Ok r
             ∧ dfs_b (instance ws' vs' cap) = Ok r' ∧ r ≤ r')
  ∧ (total_value (zip ws' vs') ≤ int64_max →
     ∃ r r', dp_a (instance ws vs cap) = Ok r
             ∧ dp_a (instance ws' vs' cap) = Ok r' ∧ r ≤ r')
  ∧ (total_value (zip ws' vs') ≤ 2 ^ 53 →
     ∃ r r', dp_b (instance ws vs cap) = Ok r
             ∧ dp_b (instance ws' vs' cap) = Ok r' ∧ r ≤ r').
Proof.
  intros Hv Hv' Hsub. pose proof SENTINEL_nonpos as Hs0.
  pose proof (total_value_sublist _ _ Hsub (valid_values ws' vs' cap Hv'))
    as Htv.
  assert (Hknap : knap (zip ws vs) cap ≤ knap (zip ws' vs') cap).
  { apply (is_optimum_sublist (zip ws vs) (zip ws' vs') cap);
      [done|by apply knap_is_optimum..]. }
  split; [|split; [|split]].
  - exists (f ws vs 0 cap), (f ws' vs' 0 cap). unfold dfs_a.
    rewrite !dfs_a_valid by done. repeat split.
    by apply f_from_sublist.
  - exists (knap (zip ws vs) cap), (knap (zip ws' vs') cap). unfold dfs_b.
    rewrite !dfs_b_valid by done. by rewrite !g_knap.
  - intros Hbound. exists (knap (zip ws vs) cap), (knap (zip ws' vs') cap).
    unfold dp_a. by rewrite !dp_a_with_knap by (done || lia).
  - intros Hbound. exists (knap (zip ws vs) cap), (knap (zip ws' vs') cap).
    unfold dp_b. rewrite !dp_b_with_g by (done || lia). by rewrite !g_knap.
Qed.

Lemma more_items_never_lower_the_result_witness :
  ∃ r r', dfs_a (instance [2; 4] [3; 5] 6) = Ok r
          ∧ dfs_a (instance [2; 3; 4] [3; 4; 5] 6) = Ok r' ∧ r ≤ r'.
Proof.
  assert (Hv : valid_instance [2; 4] [3; 5] 6).
  { unfold valid_instance. repeat split; (done || (repeat constructor; lia)). }
  assert (Hv' : valid_instance [2; 3; 4] [3; 4; 5] 6).
  { unfold valid_instance. repeat split; (done || (repeat constructor; lia)). }
  assert (Hsub : zip [2; 4] [3; 5] `sublist_of` zip [2; 3; 4] [3; 4; 5]).
  { simpl. apply sublist_skip, sublist_cons. done. }
  exact (proj1 (more_items_never_lower_the_result _ _ _ _ _ Hv Hv' Hsub)).
Defined.

(** ** The keys of the memos *)

Lemma dfs_a_dfs_keys (s : Z) (self : KnapsackSolver) (cap : Z) (fuel : nat) :
  Forall (λ w, 0 ≤ w) (weights self) →
  ∀ i c (memo : gmap (Z * Z) Z) r memo',
    0 ≤ i → c ≤ cap →
    (∀ i' c' v, memo !! (i', c') = Some v →
                0 ≤ i' < n self ∧ 0 < c' ≤ cap) →
    dfs_a_dfs s self fuel i c memo = Ok (r, memo') →
    ∀ i' c' v, memo' !! (i', c') = Some v → 0 ≤ i' < n self ∧ 0 < c' ≤ cap.
Proof.
  intros Hws. induction fuel as [|fuel IH]; intros i c memo r memo' Hi Hc Hmemo;
    [done|].
  simpl. destruct (Z.leb_spec (n self) i); simpl.
  { by intros [= <- <-]. }
  destruct (Z.leb_spec c 0).
  { by intros [= <- <-]. }
  destruct (memo !! (i, c)) as [r0|] eqn:Hlook.
  { by intros [= <- <-]. }
  destruct (dfs_a_dfs s self fuel (i + 1) c memo) as [[skip memo1]|] eqn:Hskip;
    simpl; [|done].
  pose proof (IH (i + 1) c memo skip memo1 ltac:(lia) Hc Hmemo Hskip)
    as Hmemo1.
  destruct (getitem (weights self) i) as [w|] eqn:Hw; simpl; [|done].
  apply getitem_elem_of in Hw.
  pose proof (proj1 (Forall_forall _ _) Hws _ Hw) as Hw0. simpl in Hw0.
  assert (Hins : ∀ take (memo2 : gmap (Z * Z) Z),
             (∀ i' c' v, memo2 !! (i', c') = Some v →
                         0 ≤ i' < n self ∧ 0 < c' ≤ cap) →
             ∀ i' c' v, <[(i, c) := Z.max skip take]> memo2 !! (i', c')
                        = Some v → 0 ≤ i' < n self ∧ 0 < c' ≤ cap).
  { intros take memo2 Hmemo2 i' c' v. rewrite lookup_insert.
    case_decide as Hkey; [|apply Hmemo2]. injection Hkey as <- <-. lia. }
  destruct (w <=? c).
  - destruct (getitem (values self) i) as [v|]; simpl; [|done].
    destruct (dfs_a_dfs s self fuel (i + 1) (c - w) memo1)
      as [[r1 memo2]|] eqn:Htake; simpl; [|done].
    pose proof (IH (i + 1) (c - w) memo1 r1 memo2 ltac:(lia) ltac:(lia)
                  Hmemo1 Htake) as Hmemo2.
    rewrite lookup_insert_eq. intros [= <- <-]. by apply Hins.
  - simpl. rewrite lookup_insert_eq. intros [= <- <-]. by apply Hins.
Qed.

Lemma dfs_b_dfs_keys (s : Z) (self : KnapsackSolver) (cap : Z) (fuel : nat) :
  Forall (λ w, 0 ≤ w) (weights self) →
  ∀ k w (memo : gmap (Z * Z) Z) r memo',
    0 ≤ k ≤ n self → 0 ≤ w ≤ cap →
    (∀ k' w' v, memo !! (k', w') = Some v →
                1 ≤ k' ≤ n self ∧ 0 ≤ w' ≤ cap) →
    dfs_b_dfs s self fuel k w memo = Ok (r, memo') →
    ∀ k' w' v, memo' !! (k', w') = Some v → 1 ≤ k' ≤ n self ∧ 0 ≤ w' ≤ cap.
Proof.
  intros Hws. induction fuel as [|fuel IH]; intros k w memo r memo' Hk Hw Hmemo;
    [done|].
  simpl. destruct (Z.eqb_spec k 0) as [Hk0|Hk0].
  { by intros [= <- <-]. }
  destruct (memo !! (k, w)) as [r0|] eqn:Hlook.
  { by intros [= <- <-]. }
  destruct (dfs_b_dfs s self fuel (k - 1) w memo) as [[skip memo1]|] eqn:Hskip;
    simpl; [|done].
  pose proof (IH (k - 1) w memo skip memo1 ltac:(lia) Hw Hmemo Hskip)
    as Hmemo1.
  destruct (getitem (weights self) (k - 1)) as [wk|] eqn:Hwk; simpl; [|done].
  apply getitem_elem_of in Hwk.
  pose proof (proj1 (Forall_forall _ _) Hws _ Hwk) as Hwk0. simpl in Hwk0.
  assert (Hins : ∀ take (memo2 : gmap (Z * Z) Z),
             (∀ k' w' v, memo2 !! (k', w') = Some v →
                         1 ≤ k' ≤ n self ∧ 0 ≤ w' ≤ cap) →
             ∀ k' w' v, <[(k, w) := Z.max skip take]> memo2 !! (k', w')
                        = Some v → 1 ≤ k' ≤ n self ∧ 0 ≤ w' ≤ cap).
  { intros take memo2 Hmemo2 k' w' v. rewrite lookup_insert.
    case_decide as Hkey; [|apply Hmemo2]. injection Hkey as <- <-. lia. }
  destruct (Z.leb_spec wk w).
  - destruct (getitem (values self) (k - 1)) as [v|]; simpl; [|done].
    destruct (dfs_b_dfs s self fuel (k - 1) (w - wk) memo1)
      as [[r1 memo2]|] eqn:Htake; simpl; [|done].
    pose proof (IH (k - 1) (w - wk) memo1 r1 memo2 ltac:(lia) ltac:(lia)
                  Hmemo1 Htake) as Hmemo2.
    rewrite lookup_insert_eq. intros [= <- <-]. by apply Hins.
  - simpl. rewrite lookup_insert_eq. intros [= <- <-]. by apply Hins.
Qed.

(** X13: on a valid instance the top-level run of each recursion returns,
    and the memo it leaves only holds states inside the table of [n] rows
    and [capacity] columns: keys [(i, c)] with [0 <= i < n] and
    [0 < c <= capacity] for [dfs_a], keys [(k, w)] with [1 <= k <= n] and
    [0 <= w <= capacity] for [dfs_b]. *)
Theorem memo_keys_stay_in_the_table (ws vs : list Z) (cap : Z) :
  valid_instance ws vs cap →
  (∃ r memo,
     dfs_a_dfs SENTINEL (instance ws vs cap)
       (S (Z.to_nat (n (instance ws vs cap)))) 0 cap ∅ = Ok (r, memo)
     ∧ ∀ i c v, memo !! (i, c) = Some v →
                0 ≤ i < Z.of_nat (length ws) ∧ 0 < c ≤ cap)
  ∧ (∃ r memo,
       dfs_b_dfs SENTINEL (instance ws vs cap)
         (S (Z.to_nat (n (instance ws vs cap)))) (Z.of_nat (length ws)) cap ∅
       = Ok (r, memo)
       ∧ ∀ k w v, memo !! (k, w) = Some v →
                  1 ≤ k ≤ Z.of_nat (length ws) ∧ 0 ≤ w ≤ cap).
Proof.
  intros (Hlen & Hws & _ & Hcap). pose proof SENTINEL_nonpos as Hs0. split.
  - destruct (dfs_a_dfs_spec SENTINEL (instance ws vs cap) Hs0 eq_refl Hlen
                (S (Z.to_nat (n (instance ws vs cap)))) 0 cap ∅)
      as (memo & Hrun & _); [lia|lia|apply memo_a_ok_empty|].
    eexists _, memo. split; [exact Hrun|].
    refine (dfs_a_dfs_keys SENTINEL (instance ws vs cap) cap _
              Hws 0 cap ∅ _ memo _ _ _ Hrun); [lia|lia|].
    intros i' c' v. by rewrite lookup_empty.
  - destruct (dfs_b_dfs_spec SENTINEL (instance ws vs cap) Hs0 eq_refl Hlen
                (S (Z.to_nat (n (instance ws vs cap))))
                (Z.of_nat (length ws)) cap ∅)
      as (memo & Hrun & _); [simpl; lia|simpl; lia|apply memo_b_ok_empty|].
    eexists _, memo. split; [exact Hrun|].
    refine (dfs_b_dfs_keys SENTINEL (instance ws vs cap) cap _
              Hws (Z.of_nat (length ws)) cap ∅ _ memo _ _ _ Hrun);
      [simpl; lia|lia|].
    intros k' w' v. by rewrite lookup_empty.
Qed.

Lemma memo_keys_stay_in_the_table_witness :
  ∃ r memo,
    dfs_a_dfs SENTINEL (instance [2; 3] [3; 4] 4)
      (S (Z.to_nat (n (instance [2; 3] [3; 4] 4)))) 0 4 ∅ = Ok (r, memo)
    ∧ ∀ i c v, memo !! (i, c) = Some v → 0 ≤ i < 2 ∧ 0 < c ≤ 4.
Proof.
  apply (memo_keys_stay_in_the_table [2; 3] [3; 4] 4).
  unfold valid_instance. repeat split; (done || (repeat constructor; lia)).
Defined.

(** ** [solve_all] below capacity 0 *)

(** X14: with a negative capacity [solve_all] never reports an
    inconsistency: [dfs_a] returns 0 and the error of [dp_a] comes out, an
    [IndexError] at capacity -1 and the [ValueError] of a negative dimension
    below, whatever the weights and values. *)
Theorem solve_all_negative_capacity (ws vs : list Z) (cap : Z) :
  cap < 0 →
  solve_all (instance ws vs cap)
  = Raise (if decide (cap = -1) then IndexError
           else ValueError NegativeDimensions).
Proof.
  intros Hcap. unfold solve_all.
  assert (dfs_a (instance ws vs cap) = Ok 0) as ->.
  { unfold dfs_a, dfs_a_with. simpl.
    destruct (Z.of_nat (length ws) <=? 0); simpl;
      destruct (Z.leb_spec cap 0); (done || lia). }
  rewrite bind_Ok.
  assert (dp_a (instance ws vs cap)
          = Raise (if decide (cap = -1) then IndexError
                   else ValueError NegativeDimensions)) as ->; [|done].
  case_decide as Hc.
  - unfold dp_a. rewrite dp_a_with_sweep by (simpl; lia).
    subst cap. simpl. rewrite sweep_empty_rows; done.
  - unfold dp_a, dp_a_with, np_full. simpl.
    destruct (Z.of_nat (length ws) + 1 <? 0); [done|].
    destruct (Z.ltb_spec (cap + 1) 0); [done|lia].
Qed.

Lemma solve_all_negative_capacity_witness :
  solve_all (instance [1; 2] [3; 4] (-3))
  = Raise (ValueError NegativeDimensions).
Proof.
  apply (solve_all_negative_capacity [1; 2] [3; 4] (-3)). lia.
Defined.

(** ** The constructor on the store *)


(** ** A run on the store *)

(** X19: on an object constructed with weights [1, 2], values [6, 10] and
    capacity 2, the calls [dfs_a], [dfs_a], [dp_a], [dp_b] each return 10.
    Each call of [dfs_a] leaves a dictionary of its own with the three
    states it memoised, [dp_a] leaves its [int64] grid and [dp_b] its
    [float64] grid, and the object is as constructed. *)
Theorem calls_on_a_constructed_object :
  let w0 := mkWorld (mkSolver [] [] 0 0) [] [] [] in
  let w1 := (init_body [1; 2] [6; 10] 2 w0).2 in
  let w2 := (calls [DFS_A; DFS_A; DP_A; DP_B] w1).2 in
  (calls [DFS_A; DFS_A; DP_A; DP_B] w1).1 = [Ok 10; Ok 10; Ok 10; Ok 10]
  ∧ w_self w2 = mkSolver [1; 2] [6; 10] 2 2
  ∧ map_to_list <$> w_dicts w2
    = [[(0, 2, 10); (1, 2, 10); (1, 1, 0)];
       [(0, 2, 10); (1, 2, 10); (1, 1, 0)]]
  ∧ w_ints w2 = [[[0; 6; 10]; [0; 0; 10]; [0; 0; 0]]]
  ∧ w_floats w2
    = [[[Fin 0; Fin 0; Fin 0]; [Fin 0; Fin 6; Fin 6]; [Fin 0; Fin 6; Fin 10]]].
Proof. cbv zeta. repeat split; by vm_compute. Qed.
